(** * The water-jug solver of [jugs.py], embedded and verified

    The Python program keeps a mutable tree of [JugsState] objects below
    [JugsGraph.start].  Here the tree is an inductive value, an object of the
    tree is addressed by the list of child indices leading to it from the
    root, and every method that mutates an object becomes an update of the
    tree at that address.  Python integers are unbounded, hence [Z]. *)

From Stdlib Require Import Ascii.
From stdpp Require Import prelude pretty.
From Equations Require Import Equations.
From Equations.Prop Require Import Logic.

Open Scope Z_scope.

(** ** class Jug *)

Module Jug.

Record t := mk { capacity : Z; amount : Z }.

(** [Jug.__init__] *)
Definition init (capacity : Z) : t := mk capacity 0.

Definition fill_to_full (self : t) : t := mk (capacity self) (capacity self).

Definition empty (self : t) : t := mk (capacity self) 0.

(** [Jug._fill]: the updated jug and the returned remainder. *)
Definition _fill (self : t) (amount_in : Z) : t * Z :=
  let self1 := mk (capacity self) (amount self + amount_in) in
  if amount self1 >? capacity self1 then
    let remainder := amount self1 - capacity self1 in
    (mk (capacity self1) (amount self1 - remainder), remainder)
  else (self1, 0).

(** [Jug.transfer]: the updated source and the updated destination.  The
    two jugs are distinct objects (the caller skips [i == k]). *)
Definition transfer (self jug : t) : t * t :=
  let '(jug', remainder) := _fill jug (amount self) in
  (mk (capacity self) remainder, jug').

(** The legal range of a container. *)
Definition in_range (j : t) : Prop := 0 <= amount j <= capacity j.

End Jug.

#[global] Instance Jug_eq_dec : EqDecision Jug.t.
Proof. solve_decision. Defined.

(** ** class JugsState

    [parent] is not a field of the model: the parent of the object at
    address [p ++ [i]] is the object at address [p], and the root (address
    [[]]) has none. *)

#[local] Unset Elimination Schemes.
Inductive JugsState := mkState {
  jugs : list Jug.t;
  next_states : list JugsState;
  goal_flag : bool
}.
#[local] Set Elimination Schemes.

(** [JugsState.__init__]: every jug is copied, so the new state shares no
    jug with the list it was built from. *)
Definition JugsState_init (js : list Jug.t) : JugsState := mkState js [] false.

(** [JugsState.add_state], seen from [self]. *)
Definition add_state (jugs_state : JugsState) (self : JugsState) : JugsState :=
  mkState (jugs self) (next_states self ++ [jugs_state]) (goal_flag self).

(** The assignment [state.goal_flag = True]. *)
Definition set_goal_flag (self : JugsState) : JugsState :=
  mkState (jugs self) (next_states self) true.

Inductive failure :=
| IndexError   (* raised by [state.jugs[i]] in [is_same] *)
| TypeError    (* raised by [solution["list"]] when [solution] is [None] *)
| OutOfFuel    (* the budget of the model for a run without a limit ran out *)
| Dangling     (* an address that names no object of the tree *)
| RecursionError. (* raised by the interpreter when calls nest beyond its limit *)

(** [JugsState.is_same]: [enumerate(self.jugs)] from index [i] on. *)
Fixpoint is_same_from (i : nat) (self_jugs state_jugs : list Jug.t) : option bool :=
  match self_jugs with
  | [] => Some true
  | j :: rest =>
      match state_jugs !! i with
      | None => None
      | Some o =>
          if (Jug.capacity j =? Jug.capacity o) && negb (Jug.amount j =? Jug.amount o)
          then Some false
          else is_same_from (S i) rest state_jugs
      end
  end.

(** [None] stands for the [IndexError] of [state.jugs[i]]. *)
Definition is_same (self state : JugsState) : option bool :=
  is_same_from 0 (jugs self) (jugs state).

Definition has_fill_amount (self : JugsState) (amount : Z) : bool :=
  existsb (fun j => Jug.amount j =? amount) (jugs self).

(** ** Addresses in the tree *)

Definition path := list nat.

(** The object at an address. *)
Fixpoint get_state (p : path) (g : JugsState) : option JugsState :=
  match p with
  | [] => Some g
  | i :: p' =>
      match next_states g !! i with
      | None => None
      | Some c => get_state p' c
      end
  end.

(** In-place update of the object at an address. *)
Fixpoint update_at (p : path) (f : JugsState -> JugsState) (g : JugsState) : JugsState :=
  match p with
  | [] => f g
  | i :: p' => mkState (jugs g) (alter (update_at p' f) i (next_states g)) (goal_flag g)
  end.

(** [current_state.parent]. *)
Definition parent (p : path) : option path :=
  match p with
  | [] => None
  | _ => Some (removelast p)
  end.

(** Evaluates [f] on every element, left to right, as a list comprehension
    does; the first exception wins. *)
Definition comprehension {A B} (f : A -> option B) : list A -> option (list B) :=
  fix go l :=
    match l with
    | [] => Some []
    | x :: l' =>
        match f x with
        | None => None
        | Some y => match go l' with None => None | Some ys => Some (y :: ys) end
        end
    end.

(** ** class JugsGraph *)

Record JugsGraph := mkGraph {
  start : JugsState;
  goal : Z;
  graphed : bool
}.

Definition JugsGraph_init (js : list Jug.t) (goal : Z) : JugsGraph :=
  mkGraph (JugsState_init js) goal false.

(** [state_exists._helper] *)
Fixpoint state_exists_helper (state : JugsState) (self_state : JugsState) : option bool :=
  match comprehension (is_same state) (next_states self_state) with
  | None => None
  | Some these_states =>
      match comprehension (state_exists_helper state) (next_states self_state) with
      | None => None
      | Some child_states =>
          let exists_ := fold_left orb these_states false in
          let exists_ := fold_left orb child_states exists_ in
          Some exists_
      end
  end.

(** [JugsGraph.state_exists], on the tree below [self.start]. *)
Definition state_exists (start_ : JugsState) (state : JugsState) : option bool :=
  match is_same state start_ with
  | None => None
  | Some this_state =>
      match state_exists_helper state start_ with
      | None => None
      | Some child_states => Some (this_state || child_states)
      end
  end.

(** ** graph_it

    The state threaded through the expansion: the tree below [self.start]
    and, as a ghost record of the call order, the list of the additions to
    the tree and of the flaggings, oldest first.  Each event names the
    address of [current_state] and the jugs of the candidate. *)

Inductive event :=
| Attached (current_state : path) (candidate : list Jug.t)
| Flagged (current_state : path) (candidate : list Jug.t).

Record store := mkStore {
  root : JugsState;
  history : list event
}.

(** What a block of statements under [try] ends with. *)
Inductive ctl :=
| Normal (s : store)       (* fell through *)
| GoalFound (s : store)    (* [raise GoalFound()], with the store at that moment *)
| Abort (e : failure).

(** What a call ends with: its value, or the exception that escapes. *)
Inductive result (A : Type) :=
| Done (a : A)
| Failed (e : failure).
Arguments Done {A} a.
Arguments Failed {A} e.

(** A [for] loop whose body may raise. *)
Fixpoint for_each {A} (body : A -> store -> ctl) (l : list A) (s : store) : ctl :=
  match l with
  | [] => Normal s
  | x :: l' =>
      match body x s with
      | Normal s' => for_each body l' s'
      | r => r
      end
  end.

(** [current_state.add_state(candidate)] on the object at [current_state]. *)
Definition attach (current_state : path) (candidate : JugsState) (s : store) : store :=
  mkStore (update_at current_state (add_state candidate) (root s))
          (history s ++ [Attached current_state (jugs candidate)]).

(** [candidate.goal_flag = True].  When the candidate was added to the tree
    it is the last child of [current_state] and the tree sees the
    assignment; otherwise the object is unreachable and only the event
    remains. *)
Definition flag_last (self : JugsState) : JugsState :=
  mkState (jugs self)
          (alter set_goal_flag (pred (length (next_states self))) (next_states self))
          (goal_flag self).

Definition flag (current_state : path) (candidate : JugsState) (attached : bool)
    (s : store) : store :=
  mkStore (if attached then update_at current_state flag_last (root s) else root s)
          (history s ++ [Flagged current_state (jugs candidate)]).

(** The four statements that follow the construction of each candidate:
    the duplicate check, [add_state], the goal check, [raise]. *)
Definition consider (goal : Z) (current_state : path) (candidate : JugsState)
    (s : store) : ctl :=
  match state_exists (root s) candidate with
  | None => Abort IndexError
  | Some exists_ =>
      let s1 := if negb exists_ then attach current_state candidate s else s in
      if has_fill_amount candidate goal
      then GoalFound (flag current_state candidate (negb exists_) s1)
      else Normal s1
  end.

(** [transfer_state.jugs[i].transfer(transfer_state.jugs[k])], [i <> k]. *)
Definition transfer_at (i k : nat) (js : list Jug.t) : list Jug.t :=
  match js !! i, js !! k with
  | Some ji, Some jk =>
      let '(ji', jk') := Jug.transfer ji jk in <[k := jk']> (<[i := ji']> js)
  | _, _ => js
  end.

(** The body of [for i, j in enumerate(current_state.jugs)]. *)
Definition expand_jug (goal : Z) (current_state : path) (current_jugs : list Jug.t)
    (i : nat) (s : store) : ctl :=
  let fill_state := JugsState_init (alter Jug.fill_to_full i current_jugs) in
  match consider goal current_state fill_state s with
  | Normal s =>
      let empty_state := JugsState_init (alter Jug.empty i current_jugs) in
      match consider goal current_state empty_state s with
      | Normal s =>
          for_each
            (fun k s =>
               if decide (i = k) then Normal s
               else
                 let transfer_state := JugsState_init (transfer_at i k current_jugs) in
                 consider goal current_state transfer_state s)
            (seq 0 (length current_jugs)) s
      | r => r
      end
  | r => r
  end.

(** The first loop of [_helper]: every candidate of [current_state]. *)
Definition expand (goal : Z) (current_state : path) (s : store) : ctl :=
  match get_state current_state (root s) with
  | None => Abort Dangling
  | Some cs =>
      for_each (expand_jug goal current_state (jugs cs))
               (seq 0 (length (jugs cs))) s
  end.

(** The second loop of [_helper]: every child of [current_state], in the
    order they were added.  [helper] is the recursive call.  The loop runs
    over the children present when it starts and reads each of them from the
    current tree; no call on a child adds a child to [current_state]
    (lemma [helper_keeps_siblings]), so the Python loop sees the same list. *)
Definition descend (helper : path -> store -> result store) (current_state : path)
    (s : store) : ctl :=
  match get_state current_state (root s) with
  | None => Abort Dangling
  | Some cs =>
      for_each
        (fun idx s =>
           match get_state (current_state ++ [idx]) (root s) with
           | None => Abort Dangling
           | Some child =>
               if goal_flag child then GoalFound s
               else
                 match helper (current_state ++ [idx]) s with
                 | Done s' => Normal s'
                 | Failed e => Abort e
                 end
           end)
        (seq 0 (length (next_states cs))) s
  end.

(** The [try] block of [_helper]: the raise of the first loop skips the
    second. *)
Definition try_block (helper : path -> store -> result store) (goal : Z)
    (current_state : path) (s : store) : ctl :=
  match expand goal current_state s with
  | Normal s1 => descend helper current_state s1
  | r => r
  end.

(** [graph_it._helper].  [fuel] bounds the depth of the recursion;
    [except GoalFound: pass] turns both a normal exit and a raise of the
    [try] block into a return. *)
Fixpoint graph_it_helper (fuel : nat) (goal : Z) (current_state : path) (s : store)
    : result store :=
  match fuel with
  | O => Failed OutOfFuel
  | S fuel' =>
      match try_block (graph_it_helper fuel' goal) goal current_state s with
      | Normal s' => Done s'
      | GoalFound s' => Done s'
      | Abort e => Failed e
      end
  end.

(** [JugsGraph.graph_it]: the flag is set first, then the root is expanded.
    The result carries the graph object and the history of the run. *)
Definition graph_it (fuel : nat) (self : JugsGraph) : result (JugsGraph * list event) :=
  match graph_it_helper fuel (goal self) [] (mkStore (start self) []) with
  | Done s => Done (mkGraph (root s) (goal self) true, history s)
  | Failed e => Failed e
  end.

(** The graph that [main] builds from the capacities it reads. *)
Definition new_graph (capacities : list Z) (goal : Z) : JugsGraph :=
  JugsGraph_init (Jug.init <$> capacities) goal.

(** ** print_solutions *)

(** What [print] writes, one constructor per format string. *)
Inductive line :=
| SolutionLine (n : nat)            (* [Solution %i] *)
| JugsLine (js : list Jug.t)        (* [print(s.jugs)] *)
| StepsLine (n : Z)                 (* [%i steps] *)
| NoSolutionLine                    (* [No solution found!] *)
| BestLine                          (* [Best solution found:] *)
| RunGraphItFirstLine.              (* [Run graph_it first!] *)

(** An entry of [self.solutions]: the keys ["steps"] and ["list"]. *)
Record solution := mkSolution {
  steps : Z;
  list_ : list JugsState
}.

(** [self.solution_number], [self.solutions] and the text printed so far. *)
Record printer := mkPrinter {
  solution_number : nat;
  solutions : list solution;
  printed : list line
}.

(** [_get_state_path]: up the [parent] links to the root, each object put
    in front of the path collected so far. *)
Equations _get_state_path (g : JugsState) (current_state : path)
    (current_path : list JugsState) : result (list JugsState)
    by wf (length current_state) lt :=
  _get_state_path g current_state current_path with get_state current_state g := {
    | None => Failed Dangling
    | Some cs with inspect (parent current_state) := {
        | exist _ None _ => Done (cs :: current_path)
        | exist _ (Some q) Hq => _get_state_path g q (cs :: current_path) } }.
Next Obligation.
  destruct current_state as [|i p]; [discriminate|]. injection Hq as <-.
  clear. revert i; induction p as [|j p IH]; intros i; [simpl; lia|].
  change (removelast (i :: j :: p)) with (i :: removelast (j :: p)).
  specialize (IH j); simpl in *; lia.
Qed.

(** The lines printed for one solution. *)
Definition solution_block (number : nat) (state_list : list JugsState) : list line :=
  SolutionLine number
    :: map (fun s => JugsLine (jugs s)) state_list
    ++ [StepsLine (Z.of_nat (length state_list))].

(** The branch of [_traverse_states] taken at a flagged state: the counter
    goes up, the solution is printed and appended to [self.solutions]. *)
Definition record_solution (pr : printer) (state_list : list JugsState) : printer :=
  let number := S (solution_number pr) in
  mkPrinter number
    (solutions pr ++ [mkSolution (Z.of_nat (length state_list)) state_list])
    (printed pr ++ solution_block number state_list).

(** A [for] loop over a list whose body gets the position of the element
    and may fail. *)
Definition for_enumerate {A St} (body : nat -> A -> St -> result St)
    : list A -> nat -> St -> result St :=
  fix each l idx st :=
    match l with
    | [] => Done st
    | x :: rest =>
        match body idx x st with
        | Failed e => Failed e
        | Done st' => each rest (S idx) st'
        end
    end.

(** [_traverse_states], called on the object [cs] found at [current_state]. *)
Fixpoint _traverse_states (g : JugsState) (current_state : path) (cs : JugsState)
    (pr : printer) : result printer :=
  if goal_flag cs then
    match _get_state_path g current_state [] with
    | Failed e => Failed e
    | Done state_list => Done (record_solution pr state_list)
    end
  else
    for_enumerate
      (fun idx s pr => _traverse_states g (current_state ++ [idx]) s pr)
      (next_states cs) 0%nat pr.

(** The loop that looks for the shortest solution, from given values of
    [min_steps] and [solution]. *)
Definition shortest_from (sols : list solution) (init : Z * option solution)
    : Z * option solution :=
  fold_left
    (fun acc s => if steps s <? fst acc then (steps s, Some s) else acc)
    sols init.

(** [min_steps] and [solution] after the loop. *)
Definition shortest (sols : list solution) : Z * option solution :=
  shortest_from sols (9999999999, None).

(** [JugsGraph.print_solutions]: the lines printed, and the exception that
    ends the call if there is one. *)
Definition print_solutions (self : JugsGraph) : list line * option failure :=
  if graphed self then
    match _traverse_states (start self) [] (start self) (mkPrinter 0 [] []) with
    | Failed e => ([], Some e)
    | Done pr =>
        if (solution_number pr =? 0)%nat then (printed pr ++ [NoSolutionLine], None)
        else
          match snd (shortest (solutions pr)) with
          | None => (printed pr ++ [BestLine], Some TypeError)
          | Some sol =>
              (printed pr ++ BestLine
                 :: map (fun s => JugsLine (jugs s)) (list_ sol) ++ [StepsLine (steps sol)],
               None)
          end
    end
  else ([RunGraphItFirstLine], None).

(** ** Vocabulary of the statements *)

(** The jugs and the flag of every object of a tree, the object itself
    first, then its children from left to right. *)
Fixpoint nodes (g : JugsState) : list (list Jug.t * bool) :=
  (jugs g, goal_flag g) :: flat_map nodes (next_states g).

Definition all_jugs (g : JugsState) : list (list Jug.t) := (nodes g).*1.

Definition node_count (g : JugsState) : nat := length (nodes g).

(** The amounts of a configuration, jug by jug. *)
Definition amounts (js : list Jug.t) : list Z := Jug.amount <$> js.

(** One move of the puzzle, as the three candidates of [_helper] make it. *)
Inductive move (js : list Jug.t) : list Jug.t -> Prop :=
| move_fill i :
    (i < length js)%nat -> move js (alter Jug.fill_to_full i js)
| move_empty i :
    (i < length js)%nat -> move js (alter Jug.empty i js)
| move_transfer i k :
    (i < length js)%nat -> (k < length js)%nat -> i <> k ->
    move js (transfer_at i k js).

(** The configurations that some sequence of moves produces from [js]. *)
Inductive reachable (js : list Jug.t) : list Jug.t -> Prop :=
| reachable_here : reachable js js
| reachable_move js1 js2 : reachable js js1 -> move js1 js2 -> reachable js js2.

(** Every configuration of jugs of the given capacities with each amount in
    its legal range. *)
Fixpoint fillings (capacities : list Z) : list (list Jug.t) :=
  match capacities with
  | [] => [[]]
  | c :: rest =>
      flat_map (fun a => map (cons (Jug.mk c (Z.of_nat a))) (fillings rest))
               (seq 0 (S (Z.to_nat c)))
  end.

(** The address an event happened at. *)
Definition site (e : event) : path :=
  match e with
  | Attached p _ => p
  | Flagged p _ => p
  end.

Definition is_attached (e : event) : bool :=
  match e with
  | Attached _ _ => true
  | Flagged _ _ => false
  end.

(** The number of objects in the tree when the first flag was set. *)
Fixpoint nodes_at_discovery (h : list event) : option nat :=
  match h with
  | [] => None
  | Flagged _ _ :: _ => Some 1%nat
  | Attached _ _ :: h' => S <$> nodes_at_discovery h'
  end.

(** No object is added to the tree once a flag has been set. *)
Fixpoint halted_globally (h : list event) : bool :=
  match h with
  | [] => true
  | Flagged _ _ :: h' => forallb (fun e => negb (is_attached e)) h'
  | Attached _ _ :: h' => halted_globally h'
  end.

(** [is_same_from] reads the other list from position [i] on. *)
Fixpoint aligned (a b : list Jug.t) : option bool :=
  match a, b with
  | [], _ => Some true
  | _ :: _, [] => None
  | j :: a', o :: b' =>
      if (Jug.capacity j =? Jug.capacity o) && negb (Jug.amount j =? Jug.amount o)
      then Some false
      else aligned a' b'
  end.

(** Two jugs agree when equal capacities come with equal amounts. *)
Definition agree (x y : Jug.t) : Prop :=
  Jug.capacity x = Jug.capacity y -> Jug.amount x = Jug.amount y.

(** [b] answers [state.is_same] on every object of the tree [g]. *)
Definition answers (state : JugsState) (b : list Jug.t -> bool) (g : JugsState) : Prop :=
  forall js, js ∈ all_jugs g -> is_same_from 0 (jugs state) js = Some (b js).

(** ** Specifications of the expansion *)

(** The address names an object of the tree. *)
Definition valid (p : path) (s : store) : Prop := is_Some (get_state p (root s)).

(** Every object of [s] is still in [s'], at the same address, with the
    same jugs and the same flag. *)
Definition stable (s s' : store) : Prop :=
  forall q n, get_state q (root s) = Some n ->
    exists n', get_state q (root s') = Some n' /\
               jugs n' = jugs n /\ goal_flag n' = goal_flag n.

(** [P] holds of the store a block ends with, [Q] of the exception that
    escapes it. *)
Definition ctl_sat (P : store -> Prop) (Q : failure -> Prop) (r : ctl) : Prop :=
  match r with
  | Normal s | GoalFound s => P s
  | Abort e => Q e
  end.

Definition result_sat {A} (P : A -> Prop) (Q : failure -> Prop) (r : result A) : Prop :=
  match r with
  | Done a => P a
  | Failed e => Q e
  end.

(** Every object has the jugs of the run, in their fixed order, and no two
    objects have the same jugs. *)
Definition well_formed (capacities : list Z) (g : JugsState) : Prop :=
  Forall (fun js => Jug.capacity <$> js = capacities) (all_jugs g)
  /\ NoDup (all_jugs g).

(** Every jug of every object is within its legal range. *)
Definition in_bounds (g : JugsState) : Prop :=
  Forall (Forall Jug.in_range) (all_jugs g).

(** The recursion budget that is enough at depth [length p]. *)
Definition enough_fuel (capacities : list Z) (fuel : nat) (p : path) : Prop :=
  (length (fillings capacities) < fuel + length p)%nat.

(** The run of [main] up to the end of [graph_it] where the limit of the
    interpreter on nested calls is out of reach: the budget of the model is
    always enough.  The run under a limit is [graph_it_within], below; the
    runs with jugs of 3 and 5 are the same under a limit of 1000. *)
Definition run (capacities : list Z) (goal : Z) : result (JugsGraph * list event) :=
  graph_it (S (length (fillings capacities))) (new_graph capacities goal).

(** Two jugs match when both their capacities and their amounts are equal. *)
Definition matches (x y : Jug.t) : Prop :=
  Jug.capacity x = Jug.capacity y /\ Jug.amount x = Jug.amount y.

(** ** What [print_solutions] is expected to find *)

(** The states on the way from the root to an address, root first. *)
Fixpoint states_along (g : JugsState) (p : path) : list JugsState :=
  g :: match p with
       | [] => []
       | i :: p' =>
           match next_states g !! i with
           | Some c => states_along c p'
           | None => []
           end
       end.

Definition flat_mapi {A B} (f : nat -> A -> list B) : list A -> nat -> list B :=
  fix go l idx :=
    match l with
    | [] => []
    | x :: rest => f idx x ++ go rest (S idx)
    end.

(** The addresses of the flagged states met first on the way down from
    [cs], itself at address [p], from left to right. *)
Fixpoint goal_addresses (p : path) (cs : JugsState) : list path :=
  if goal_flag cs then [p]
  else flat_mapi (fun idx c => goal_addresses (p ++ [idx]) c) (next_states cs) 0%nat.

(** The paths from the root to those states. *)
Definition goal_paths (g : JugsState) : list (list JugsState) :=
  states_along g <$> goal_addresses [] g.

(** No state of the tree is flagged. *)
Definition unflagged (g : JugsState) : Prop := Forall (fun n => n.2 = false) (nodes g).

(** The lines printed for the solutions, numbered from [first + 1]. *)
Definition solution_blocks (paths : list (list JugsState)) (first : nat) : list line :=
  flat_mapi (fun i state_list => solution_block (S i) state_list) paths first.

(** The lines printed for the best solution. *)
Definition best_block (state_list : list JugsState) : list line :=
  BestLine
    :: map (fun s => JugsLine (jugs s)) state_list
    ++ [StepsLine (Z.of_nat (length state_list))].

(** [N] holds of the store a block falls through with, [G] of the store it
    raises [GoalFound] with. *)
Definition ctl_post (N G : store -> Prop) (r : ctl) : Prop :=
  match r with
  | Normal s => N s
  | GoalFound s => G s
  | Abort _ => True
  end.

(** Neither address is above the other in the tree. *)
Definition apart (p q : path) : Prop := ~ p `prefix_of` q /\ ~ q `prefix_of` p.

(** After each flag set while expanding the state at some address, nothing
    more happens at that address, above it or below it. *)
Fixpoint halted_locally (h : list event) : Prop :=
  match h with
  | [] => True
  | e :: post =>
      match e with
      | Flagged p _ => Forall (fun e' => apart p (site e')) post
      | Attached _ _ => True
      end /\ halted_locally post
  end.

(** The events are additions to the state at [p]. *)
Definition additions_at (p : path) (t : list event) : Prop :=
  Forall (fun e => is_attached e = true /\ site e = p) t.

(** The events happened at or below the state at [p]. *)
Definition events_below (p : path) (t : list event) : Prop :=
  Forall (fun e => p `prefix_of` site e) t.

(** The history grew by additions at [p] since [s0]. *)
Definition grew_at (p : path) (s0 s : store) : Prop :=
  exists t, history s = history s0 ++ t /\ additions_at p t.

(** The history grew by additions at [p] since [s0], then by one flagging
    at [p]. *)
Definition raised_at (p : path) (s0 s : store) : Prop :=
  exists t c, history s = history s0 ++ t ++ [Flagged p c] /\ additions_at p t.

(** The history grew since [s0] by events at or below [p] that halt
    locally. *)
Definition traced (p : path) (s0 s : store) : Prop :=
  exists t, history s = history s0 ++ t /\ events_below p t /\ halted_locally t.

(** The same before the child of index [x] of [p] is visited: the events
    are at or below the children of lower index. *)
Definition descended (p : path) (s0 : store) (x : nat) (s : store) : Prop :=
  exists t,
    history s = history s0 ++ t /\ halted_locally t /\
    Forall (fun e => exists i, (i < x)%nat /\ (p ++ [i]) `prefix_of` site e) t.

(** The number of additions to the tree in a history. *)
Definition additions (h : list event) : nat := length (List.filter is_attached h).

(** The number of additions to the state at [r] in a history. *)
Definition additions_to (r : path) (h : list event) : nat :=
  length (List.filter (fun e => is_attached e && bool_decide (site e = r)) h).

(** The children of the state at [r] and the additions to it in the history
    grow together, from [n0] and [a0]. *)
Definition children_counted (r : path) (n0 a0 : nat) (s : store) : Prop :=
  exists n, get_state r (root s) = Some n /\
            (length (next_states n) + a0 = n0 + additions_to r (history s))%nat.

(** ** Vocabulary of the further properties *)

(** The water in a configuration. *)
Definition total (js : list Jug.t) : Z := foldr (fun j acc => Jug.amount j + acc) 0 js.

(** Some jug of the configuration holds the amount. *)
Definition holds (js : list Jug.t) (amount : Z) : bool :=
  has_fill_amount (JugsState_init js) amount.

(** Each configuration of the list is one move away from the one before. *)
Fixpoint chain (l : list (list Jug.t)) : Prop :=
  match l with
  | a :: (b :: _) as rest => move a b /\ chain rest
  | _ => True
  end.

(** The pairs of the jugs of a state and of the jugs of one of its children,
    over the whole tree. *)
Fixpoint edges (g : JugsState) : list (list Jug.t * list Jug.t) :=
  flat_map (fun c => (jugs g, jugs c) :: edges c) (next_states g).

(** Every state below the root is flagged exactly when it holds the
    amount. *)
Definition flags_right (amount : Z) (g : JugsState) : Prop :=
  Forall (fun n => n.2 = holds n.1 amount) (tail (nodes g)).

(** Every child is one move away from its parent. *)
Definition edges_are_moves (g : JugsState) : Prop :=
  Forall (fun e => move e.1 e.2) (edges g).

(** Some state of the tree holds the amount. *)
Definition target_met (amount : Z) (g : JugsState) : Prop :=
  exists js, js ∈ all_jugs g /\ holds js amount = true.

(** Every move from the configuration leads to a state of the tree. *)
Definition expanded (g : JugsState) (js : list Jug.t) : Prop :=
  forall js', move js js' -> js' ∈ all_jugs g.

(** Every state at or below the address is expanded. *)
Definition expanded_below (p : path) (g : JugsState) : Prop :=
  forall q n, p `prefix_of` q -> get_state q g = Some n -> expanded g (jugs n).

(** Every flagged state holds the amount. *)
Definition flagged_hold (amount : Z) (g : JugsState) : Prop :=
  Forall (fun n => n.2 = true -> holds n.1 amount = true) (nodes g).

(** The candidates that the iteration [i] of the first loop of [_helper]
    makes from a configuration. *)
Inductive move_from (i : nat) (js : list Jug.t) : list Jug.t -> Prop :=
| from_fill : move_from i js (alter Jug.fill_to_full i js)
| from_empty : move_from i js (alter Jug.empty i js)
| from_transfer k :
    (k < length js)%nat -> i <> k -> move_from i js (transfer_at i k js).

(** The invariant of the first loop of [_helper] on the state with jugs
    [cj], since the store [s0]: the candidates of the iterations done are
    in the tree. *)
Definition candidates_in (capacities : list Z) (s0 : store) (cj : list Jug.t)
    (x : nat) (s : store) : Prop :=
  well_formed capacities (root s) /\ stable s0 s /\
  forall i js', (i < x)%nat -> move_from i cj js' -> js' ∈ all_jugs (root s).

(** The invariant of its inner loop, in the iteration [i] of the outer
    one. *)
Definition pours_in (capacities : list Z) (s0 : store) (cj : list Jug.t)
    (i x : nat) (s : store) : Prop :=
  well_formed capacities (root s) /\ stable s0 s /\
  (forall i' js', (i' < i)%nat -> move_from i' cj js' -> js' ∈ all_jugs (root s)) /\
  alter Jug.fill_to_full i cj ∈ all_jugs (root s) /\
  alter Jug.empty i cj ∈ all_jugs (root s) /\
  forall k, (k < x)%nat -> i <> k -> transfer_at i k cj ∈ all_jugs (root s).

(** The invariant of the second loop of [_helper] on the state at [p] with
    [n] children, since the store [s0]: the children visited are expanded
    with all below them, unless the target is met. *)
Definition children_done (capacities : list Z) (target : Z) (p : path) (n : nat)
    (s0 : store) (x : nat) (s : store) : Prop :=
  (well_formed capacities (root s) /\ flagged_hold target (root s)) /\
  stable s0 s /\
  (exists c, get_state p (root s) = Some c /\ length (next_states c) = n) /\
  (target_met target (root s) \/
   forall idx, (idx < x)%nat -> expanded_below (p ++ [idx]) (root s)).


(** ** The printed forms

    [%i] prints a Python integer as its decimal numeral, with a minus sign
    when it is negative, as [pretty] does on [Z]. *)

(** [Jug.__repr__] *)
Definition Jug_repr (self : Jug.t) : string :=
  "Jug: " +:+ pretty (Jug.amount self) +:+ "/" +:+ pretty (Jug.capacity self).

(** [str(s.jugs)]: the list of the printed forms of the jugs. *)
Definition str_jugs (js : list Jug.t) : string :=
  "[" +:+ String.concat ", " (Jug_repr <$> js) +:+ "]".

Definition newline : string := String "010"%char EmptyString.

(** What one iteration of the loop of [JugsGraph.__repr__._helper] adds to
    [string]: the line of the state [s], then the text of the recursive call
    on its children. *)
Fixpoint repr_state (prefix : string) (s : JugsState) : string :=
  prefix +:+ str_jugs (jugs s)
    +:+ (if goal_flag s then " <----" else "")
    +:+ newline
    +:+ String.concat "" (map (repr_state ("-" +:+ prefix)) (next_states s)).

(** [JugsGraph.__repr__._helper] *)
Definition repr_helper (states : list JugsState) (prefix : string) : string :=
  String.concat "" (map (repr_state prefix) states).

(** [JugsGraph.__repr__] *)
Definition JugsGraph_repr (self : JugsGraph) : string :=
  str_jugs (jugs (start self))
    +:+ (if goal_flag (start self) then " <----" else "")
    +:+ newline
    +:+ repr_helper (next_states (start self)) "-".

(** The number of occurrences of a character in a text. *)
Fixpoint occurrences (c : ascii) (s : string) : nat :=
  match s with
  | EmptyString => 0
  | String a s' => (if Ascii.eqb a c then 1 else 0) + occurrences c s'
  end.

(** ** The recursion limit

    The interpreter counts the calls that are running and raises
    [RecursionError] when one more would exceed [sys.getrecursionlimit()].
    The functions below are those of the sections above with that count
    written out: [room] is the number of calls that may still be nested
    where the function runs.  The exception is not caught anywhere in the
    file ([except GoalFound] lets it pass), so it ends the run. *)

(** What the interpreter counts against the limit besides the calls of the
    functions of this file: for a list comprehension, which runs in a frame
    of its own up to CPython 3.11 and in the frame around it from 3.12 on;
    for the construction of a state besides [__init__] and its
    comprehension, that is what [copy.copy] nests; and on the way from
    [print] of a list to the [__repr__] of a jug. *)
Record interpreter := mkInterpreter {
  comprehension_frames : nat;
  copy_frames : nat;
  repr_frames : nat
}.

Definition and_then {A B} (r : result A) (k : A -> result B) : result B :=
  match r with
  | Done a => k a
  | Failed e => Failed e
  end.

(** A statement of a [try] block that calls something. *)
Definition and_next {A} (r : result A) (k : A -> ctl) : ctl :=
  match r with
  | Done a => k a
  | Failed e => Abort e
  end.

Notation "x <- r ;; k" := (and_then r (fun x => k))
  (at level 100, r at next level, right associativity, only parsing).
Notation "x <~ r ;; k" := (and_next r (fun x => k))
  (at level 100, r at next level, right associativity, only parsing).

(** A call of a function of this file: it takes one of the calls there is
    room for, and its body runs with the others. *)
Definition call {A} (room : nat) (body : nat -> result A) : result A :=
  match room with
  | O => Failed RecursionError
  | S room' => body room'
  end.

(** The calls nested by something that is not a function of this file. *)
Definition frames {A} (n room : nat) (body : nat -> result A) : result A :=
  if (n <=? room)%nat then body (room - n)%nat else Failed RecursionError.

(** The [IndexError] of [is_same]. *)
Definition raising {A} (o : option A) : result A :=
  match o with
  | Some a => Done a
  | None => Failed IndexError
  end.

(** A list comprehension whose element expression calls [f]. *)
Definition comprehension_within {A B} (I : interpreter) (room : nat)
    (f : nat -> A -> result B) (l : list A) : result (list B) :=
  frames (comprehension_frames I) room
    (fun room =>
       (fix go l :=
          match l with
          | [] => Done []
          | x :: l' => y <- f room x ;; ys <- go l' ;; Done (y :: ys)
          end) l).

(** [state_exists._helper] *)
Fixpoint state_exists_helper_within (I : interpreter) (state self_state : JugsState)
    (room : nat) : result bool :=
  these_states <-
    comprehension_within I room
      (fun room s => call room (fun _ => raising (is_same state s)))
      (next_states self_state) ;;
  child_states <-
    comprehension_within I room
      (fun room s => call room (state_exists_helper_within I state s))
      (next_states self_state) ;;
  let exists_ := fold_left orb these_states false in
  let exists_ := fold_left orb child_states exists_ in
  Done exists_.

(** [JugsGraph.state_exists] *)
Definition state_exists_within (I : interpreter) (room : nat) (start_ state : JugsState)
    : result bool :=
  this_state <- call room (fun _ => raising (is_same state start_)) ;;
  child_states <- call room (state_exists_helper_within I state start_) ;;
  Done (this_state || child_states).

(** [JugsState(jugs)]: [__init__], its comprehension and [copy.copy] on
    every jug. *)
Definition JugsState_init_within (I : interpreter) (room : nat) (js : list Jug.t)
    : result JugsState :=
  call room
    (fun room =>
       copies <-
         comprehension_within I room
           (fun room j => frames (copy_frames I) room (fun _ => Done j)) js ;;
       Done (JugsState_init copies)).

(** A method called on jugs of a state, which changes them in place. *)
Definition with_jugs (f : list Jug.t -> list Jug.t) (state : JugsState) : JugsState :=
  mkState (f (jugs state)) (next_states state) (goal_flag state).

(** The four statements that follow the construction of each candidate. *)
Definition consider_within (I : interpreter) (room : nat) (goal : Z)
    (current_state : path) (candidate : JugsState) (s : store) : ctl :=
  exists_ <~ call room (fun room => state_exists_within I room (root s) candidate) ;;
  s1 <~ (if negb exists_
         then call room (fun _ => Done (attach current_state candidate s))
         else Done s) ;;
  found <~ call room (fun _ => Done (has_fill_amount candidate goal)) ;;
  if found : bool
  then GoalFound (flag current_state candidate (negb exists_) s1)
  else Normal s1.

(** The body of [for i, j in enumerate(current_state.jugs)]. *)
Definition expand_jug_within (I : interpreter) (room : nat) (goal : Z)
    (current_state : path) (current_jugs : list Jug.t) (i : nat) (s : store) : ctl :=
  fill_state <~ JugsState_init_within I room current_jugs ;;
  fill_state <~ call room (fun _ =>
                  Done (with_jugs (alter Jug.fill_to_full i) fill_state)) ;;
  match consider_within I room goal current_state fill_state s with
  | Normal s =>
      empty_state <~ JugsState_init_within I room current_jugs ;;
      empty_state <~ call room (fun _ =>
                       Done (with_jugs (alter Jug.empty i) empty_state)) ;;
      match consider_within I room goal current_state empty_state s with
      | Normal s =>
          for_each
            (fun k s =>
               if decide (i = k) then Normal s
               else
                 transfer_state <~ JugsState_init_within I room current_jugs ;;
                 transfer_state <~
                   call room (fun room =>        (* [transfer] *)
                     call room (fun _ =>         (* [_fill] *)
                       Done (with_jugs (transfer_at i k) transfer_state))) ;;
                 consider_within I room goal current_state transfer_state s)
            (seq 0 (length current_jugs)) s
      | r => r
      end
  | r => r
  end.

(** The first loop of [_helper]. *)
Definition expand_within (I : interpreter) (room : nat) (goal : Z)
    (current_state : path) (s : store) : ctl :=
  match get_state current_state (root s) with
  | None => Abort Dangling
  | Some cs =>
      for_each (expand_jug_within I room goal current_state (jugs cs))
               (seq 0 (length (jugs cs))) s
  end.

(** The [try] block of [_helper]. *)
Definition try_block_within (I : interpreter) (room : nat)
    (helper : path -> store -> result store) (goal : Z)
    (current_state : path) (s : store) : ctl :=
  match expand_within I room goal current_state s with
  | Normal s1 => descend helper current_state s1
  | r => r
  end.

(** [graph_it._helper], with room for [room] calls nested inside it. *)
Fixpoint graph_it_helper_within (I : interpreter) (room : nat) (goal : Z)
    (current_state : path) (s : store) : result store :=
  match try_block_within I room
          (fun child s' =>
             call room (fun room' => graph_it_helper_within I room' goal child s'))
          goal current_state s with
  | Normal s' => Done s'
  | GoalFound s' => Done s'
  | Abort e => Failed e
  end.

(** [JugsGraph.graph_it], called where [limit] calls may still be nested. *)
Definition graph_it_within (I : interpreter) (limit : nat) (self : JugsGraph)
    : result (JugsGraph * list event) :=
  call limit
    (fun room =>
       s <- call room (fun room =>
              graph_it_helper_within I room (goal self) [] (mkStore (start self) [])) ;;
       Done (mkGraph (root s) (goal self) true, history s)).

(** [print(s.jugs)]: the text of the list is made by [Jug.__repr__], called
    on one jug after the other. *)
Definition print_jugs (I : interpreter) (room : nat) (js : list Jug.t) : result line :=
  match js with
  | [] => Done (JugsLine js)
  | _ :: _ =>
      frames (repr_frames I) room (fun room => call room (fun _ => Done (JugsLine js)))
  end.

(** [for s in state_list: print(s.jugs)] *)
Fixpoint print_states (I : interpreter) (room : nat) (state_list : list JugsState)
    : result (list line) :=
  match state_list with
  | [] => Done []
  | s :: rest =>
      l <- print_jugs I room (jugs s) ;;
      ls <- print_states I room rest ;;
      Done (l :: ls)
  end.

(** [_get_state_path] *)
Fixpoint _get_state_path_within (g : JugsState) (room : nat) (current_state : path)
    (current_path : list JugsState) : result (list JugsState) :=
  match get_state current_state g with
  | None => Failed Dangling
  | Some cs =>
      match parent current_state with
      | None => Done (cs :: current_path)
      | Some q =>
          call room (fun room' => _get_state_path_within g room' q (cs :: current_path))
      end
  end.

(** [_traverse_states] *)
Fixpoint _traverse_states_within (I : interpreter) (g : JugsState)
    (current_state : path) (cs : JugsState) (room : nat) (pr : printer)
    : result printer :=
  if goal_flag cs then
    state_list <- call room (fun room' =>
                    _get_state_path_within g room' current_state []) ;;
    _ <- print_states I room state_list ;;
    Done (record_solution pr state_list)
  else
    for_enumerate
      (fun idx s pr =>
         call room (fun room' =>
           _traverse_states_within I g (current_state ++ [idx]) s room' pr))
      (next_states cs) 0%nat pr.

(** [JugsGraph.print_solutions], called where [limit] calls may still be
    nested.  As in [print_solutions], the lines printed before an exception
    of the traversal are not kept. *)
Definition print_solutions_within (I : interpreter) (limit : nat) (self : JugsGraph)
    : list line * option failure :=
  match limit with
  | O => ([], Some RecursionError)
  | S room =>
      if graphed self then
        match call room (fun room' =>
                _traverse_states_within I (start self) [] (start self) room'
                  (mkPrinter 0 [] [])) with
        | Failed e => ([], Some e)
        | Done pr =>
            if (solution_number pr =? 0)%nat
            then (printed pr ++ [NoSolutionLine], None)
            else
              match snd (shortest (solutions pr)) with
              | None => (printed pr ++ [BestLine], Some TypeError)
              | Some sol =>
                  match print_states I room (list_ sol) with
                  | Failed e => (printed pr ++ [BestLine], Some e)
                  | Done ls =>
                      (printed pr ++ BestLine :: ls ++ [StepsLine (steps sol)], None)
                  end
              end
        end
      else ([RunGraphItFirstLine], None)
  end.

(** ** Vocabulary of the statements about the limit *)

(** The outcome under a limit: the exception of the limit, or the outcome
    there is without one. *)
Definition or_overflows {A} (r r0 : result A) : Prop :=
  r = Failed RecursionError \/ r = r0.

Definition ctl_or_overflows (r r0 : ctl) : Prop :=
  r = Abort RecursionError \/ r = r0.

(** The number of edges on the longest way down from a state. *)
Fixpoint height (g : JugsState) : nat :=
  foldr Nat.max 0%nat (map (fun c => S (height c)) (next_states g)).

(** The calls that [state_exists] nests inside its own on a tree. *)
Definition state_exists_frames (I : interpreter) (g : JugsState) : nat :=
  ((1 + comprehension_frames I) * (height g + 1))%nat.

(** The calls that [_helper] needs inside its own, whatever the tree of at
    most [n] states. *)
Definition helper_frames (I : interpreter) (n : nat) : nat :=
  ((1 + comprehension_frames I) * n + comprehension_frames I + copy_frames I + 2)%nat.

(** A limit under which [graph_it] returns for the capacities, and
    [print_solutions] after it: room for a chain of [_helper] as long as
    there are configurations, for [state_exists] on such a chain, and for
    the text of a jug. *)
Definition frames_enough (I : interpreter) (capacities : list Z) : nat :=
  (2 + length (fillings capacities)
     + helper_frames I (length (fillings capacities)) + repr_frames I)%nat.

(** Natural exhaustion or discovery of a goal: some state of the graph holds
    the target, or the graph holds exactly what moves lead to. *)
Definition exhausted_or_found (js : list Jug.t) (target : Z) (g : JugsState) : Prop :=
  target_met target g \/ forall js', reachable js js' <-> js' ∈ all_jugs g.

(** A limit under which [print_solutions] does on a graph what it does
    without one: the traversal down to the deepest state, the way back up
    from it, and the text of a jug. *)
Definition print_frames_enough (I : interpreter) (g : JugsState) : nat :=
  (2 * height g + repr_frames I + 3)%nat.

(** An interpreter that would count nothing but the calls of the functions
    of this file: no interpreter has more room. *)
Definition own_calls_only : interpreter := mkInterpreter 0 0 0.

(** The same with a frame for each list comprehension, as up to
    CPython 3.11. *)
Definition with_comprehension_frames : interpreter := mkInterpreter 1 0 0.

(** * Proofs *)

(** ** Containers *)

Lemma fill_to_full_in_range j : Jug.in_range j -> Jug.in_range (Jug.fill_to_full j).
Proof. unfold Jug.in_range; simpl; lia. Qed.

Lemma empty_in_range j : Jug.in_range j -> Jug.in_range (Jug.empty j).
Proof. unfold Jug.in_range; simpl; lia. Qed.

Lemma transfer_eq self jug :
  Jug.transfer self jug =
  (Jug.mk (Jug.capacity self)
          (Jug.amount self - Z.min (Jug.amount self) (Jug.capacity jug - Jug.amount jug)),
   Jug.mk (Jug.capacity jug)
          (Jug.amount jug + Z.min (Jug.amount self) (Jug.capacity jug - Jug.amount jug))).
Proof.
  unfold Jug.transfer, Jug._fill; simpl.
  destruct (Z.gtb_spec (Jug.amount jug + Jug.amount self) (Jug.capacity jug)); simpl.
  - rewrite Z.min_r by lia. f_equal; f_equal; lia.
  - rewrite Z.min_l by lia. f_equal; f_equal; lia.
Qed.

Lemma transfer_in_range self jug :
  Jug.in_range self -> Jug.in_range jug ->
  Jug.in_range (Jug.transfer self jug).1 /\ Jug.in_range (Jug.transfer self jug).2.
Proof. rewrite transfer_eq. unfold Jug.in_range; simpl. lia. Qed.

Lemma transfer_capacity self jug :
  Jug.capacity (Jug.transfer self jug).1 = Jug.capacity self /\
  Jug.capacity (Jug.transfer self jug).2 = Jug.capacity jug.
Proof. by rewrite transfer_eq. Qed.

(** ** Equivalence of states *)

Lemma is_same_from_aligned a : forall i b, is_same_from i a b = aligned a (drop i b).
Proof.
  induction a as [|j a IH]; intros i b; simpl; [done|].
  destruct (b !! i) as [o|] eqn:Hi.
  - rewrite (drop_S _ _ _ Hi). by rewrite IH.
  - apply lookup_ge_None in Hi. by rewrite drop_ge.
Qed.

Lemma aligned_spec a : forall b,
  length a = length b ->
  exists r, aligned a b = Some r /\ (r = true <-> Forall2 agree a b).
Proof.
  induction a as [|j a IH]; intros [|o b] Hlen; simplify_eq/=.
  - exists true. split; [done|]. split; [intros; constructor|done].
  - destruct (IH b Hlen) as (r & Hr & Hiff).
    destruct (Z.eqb_spec (Jug.capacity j) (Jug.capacity o)) as [Hc|Hc];
      destruct (Z.eqb_spec (Jug.amount j) (Jug.amount o)) as [Ha|Ha]; simpl.
    + exists r. split; [done|]. rewrite Hiff. split.
      * intros ?. constructor; [by intros ?|done].
      * by inversion 1.
    + exists false. split; [done|]. split; [done|].
      inversion 1 as [|???? Hh _]; subst. by specialize (Hh Hc).
    + exists r. split; [done|]. rewrite Hiff. split.
      * intros ?. constructor; [by intros ?|done].
      * by inversion 1.
    + exists r. split; [done|]. rewrite Hiff. split.
      * intros ?. constructor; [|done]. by intros ?.
      * by inversion 1.
Qed.

Lemma agree_same_capacities a : forall b,
  Jug.capacity <$> a = Jug.capacity <$> b -> Forall2 agree a b <-> a = b.
Proof.
  induction a as [|[c x] a IH]; intros [|[c' y] b] Hc; simplify_eq/=.
  - split; [done|constructor].
  - split.
    + inversion 1 as [|???? Hh Ht]; subst. apply IH in Ht; [|done].
      specialize (Hh eq_refl). simpl in Hh. by subst.
    + intros [= -> ->]. constructor; [done|]. by apply IH.
Qed.

Lemma is_same_same_capacities a b :
  Jug.capacity <$> jugs a = Jug.capacity <$> jugs b ->
  is_same a b = Some (bool_decide (jugs a = jugs b)).
Proof.
  intros Hc. unfold is_same. rewrite is_same_from_aligned, drop_0.
  assert (length (jugs a) = length (jugs b)) as Hlen.
  { by rewrite <-(length_fmap Jug.capacity), Hc, length_fmap. }
  destruct (aligned_spec _ _ Hlen) as (r & -> & Hiff). f_equal.
  rewrite (agree_same_capacities _ _ Hc) in Hiff.
  destruct r; symmetry.
  - apply bool_decide_eq_true. by apply Hiff.
  - apply bool_decide_eq_false. intros Heq. by apply Hiff in Heq.
Qed.

(** ** The tree and its addresses *)

Lemma JugsState_tree_ind (P : JugsState -> Prop) :
  (forall js cs fl, Forall P cs -> P (mkState js cs fl)) -> forall g, P g.
Proof.
  intros H. fix IH 1. intros [js cs fl]. apply H.
  induction cs as [|c cs IHcs]; constructor; [apply IH|apply IHcs].
Qed.

Lemma get_state_app p : forall q g,
  get_state (p ++ q) g = get_state p g ≫= get_state q.
Proof.
  induction p as [|i p IH]; intros q g; simpl; [done|].
  destruct (next_states g !! i); [apply IH|done].
Qed.

Lemma get_state_snoc p i g cs c :
  get_state p g = Some cs -> next_states cs !! i = Some c ->
  get_state (p ++ [i]) g = Some c.
Proof. intros Hp Hi. rewrite get_state_app, Hp. simpl. by rewrite Hi. Qed.

Lemma nodes_eq g : nodes g = (jugs g, goal_flag g) :: flat_map nodes (next_states g).
Proof. by destruct g. Qed.

Lemma nodes_length_pos g : (0 < length (nodes g))%nat.
Proof. destruct g; simpl; lia. Qed.

Lemma flat_map_nodes_lookup cs i (c : JugsState) :
  cs !! i = Some c -> (length (nodes c) <= length (flat_map nodes cs))%nat.
Proof.
  revert i; induction cs as [|x cs IH]; intros [|i] Hi; simplify_eq/=;
    rewrite length_app; [lia|]. specialize (IH _ Hi). lia.
Qed.

(** A valid address is shorter than the tree is large. *)
Lemma get_state_length p : forall g c,
  get_state p g = Some c -> (length p < node_count g)%nat.
Proof.
  unfold node_count.
  induction p as [|i p IH]; intros g c Hp; [apply nodes_length_pos|].
  simpl in Hp. destruct (next_states g !! i) as [ch|] eqn:Hi; [|done].
  apply IH in Hp. apply flat_map_nodes_lookup in Hi.
  destruct g; simpl in *. lia.
Qed.

Lemma update_at_compose p f h : forall g,
  update_at p f (update_at p h g) = update_at p (f ∘ h) g.
Proof.
  induction p as [|i p IH]; intros g; simpl; [done|]. f_equal.
  rewrite list_alter_alter_eq. apply list_alter_ext; [|done]. intros; apply IH.
Qed.

Lemma flag_last_add_state c n :
  flag_last (add_state c n) = add_state (set_goal_flag c) n.
Proof.
  unfold flag_last, add_state; simpl. f_equal.
  rewrite length_app; simpl. rewrite Nat.add_1_r; simpl.
  by rewrite alter_app_r_alt, Nat.sub_diag by lia.
Qed.

Lemma update_at_flag_add p c g :
  update_at p flag_last (update_at p (add_state c) g) =
  update_at p (add_state (set_goal_flag c)) g.
Proof.
  rewrite update_at_compose. revert g.
  induction p as [|i p IH]; intros g; simpl; [apply flag_last_add_state|].
  f_equal. apply list_alter_ext; [|done]. intros; apply IH.
Qed.

(** Adding a child somewhere leaves every object where it was, with its
    jugs, its flag and its earlier children. *)
Lemma get_state_update_add p c : forall q g n,
  get_state q g = Some n ->
  exists n', get_state q (update_at p (add_state c) g) = Some n' /\
             jugs n' = jugs n /\ goal_flag n' = goal_flag n /\
             (length (next_states n) <= length (next_states n'))%nat.
Proof.
  induction p as [|i p IH]; intros q g n Hq.
  - destruct q as [|j q]; simpl in *.
    + injection Hq as <-. eexists; split; [done|]. simpl.
      rewrite length_app; simpl. repeat split. lia.
    + destruct (next_states g !! j) as [ch|] eqn:Hj; [|done].
      exists n. rewrite lookup_app_l by (by eapply lookup_lt_Some).
      rewrite Hj. repeat split; [done|lia].
  - destruct q as [|j q]; simpl in *.
    + injection Hq as <-. eexists; split; [done|]. simpl.
      rewrite length_alter. repeat split. lia.
    + destruct (next_states g !! j) as [ch|] eqn:Hj; [|done].
      destruct (decide (i = j)) as [->|Hne].
      * rewrite list_lookup_alter_eq, Hj; simpl. by apply IH.
      * rewrite list_lookup_alter_ne, Hj by done. exists n. repeat split; [done|lia].
Qed.

Lemma nodes_update_add p c : forall g,
  is_Some (get_state p g) ->
  nodes (update_at p (add_state c) g) ≡ₚ nodes g ++ nodes c.
Proof.
  induction p as [|i p IH]; intros g [n Hn]; simpl in *.
  - rewrite flat_map_app; simpl. by rewrite app_nil_r, (nodes_eq g).
  - destruct (next_states g !! i) as [ch|] eqn:Hi; [|done].
    apply list_elem_of_split_length in Hi as (l1 & l2 & Hg & Hlen).
    rewrite (nodes_eq g), Hg. subst i.
    rewrite alter_app_r_alt, Nat.sub_diag by lia. simpl.
    rewrite !flat_map_app; simpl. rewrite IH by eauto.
    constructor. rewrite <-!app_assoc. apply Permutation_app_head.
    apply Permutation_app_head. apply Permutation_app_comm.
Qed.

(** ** The duplicate check *)

Lemma fold_left_orb l : forall acc, fold_left orb l acc = acc || existsb id l.
Proof.
  induction l as [|x l IH]; intros acc; simpl; [by rewrite orb_false_r|].
  rewrite IH. by rewrite orb_assoc.
Qed.

Lemma comprehension_Some {A B} (f : A -> option B) (h : A -> B) l :
  Forall (fun x => f x = Some (h x)) l -> comprehension f l = Some (h <$> l).
Proof.
  induction 1 as [|x l Hx _ IH]; simpl; [done|]. by rewrite Hx, IH.
Qed.

Lemma all_jugs_eq g :
  all_jugs g = jugs g :: (flat_map nodes (next_states g)).*1.
Proof. unfold all_jugs. by rewrite nodes_eq. Qed.

Lemma all_jugs_child g c js :
  c ∈ next_states g -> js ∈ all_jugs c -> js ∈ all_jugs g.
Proof.
  intros Hc Hjs. rewrite all_jugs_eq. right.
  unfold all_jugs in Hjs. apply list_elem_of_fmap in Hjs as (x & -> & Hx).
  apply list_elem_of_fmap. exists x. split; [done|].
  apply list_elem_of_In, in_flat_map. exists c.
  by rewrite <-!list_elem_of_In.
Qed.

Section duplicate_check.
Variable state : JugsState.
Variable b : list Jug.t -> bool.

Lemma or_of_children cs :
  fold_left orb ((fun c => existsb b (flat_map nodes (next_states c)).*1) <$> cs)
    (fold_left orb ((fun c => b (jugs c)) <$> cs) false)
  = existsb b (flat_map nodes cs).*1.
Proof.
  rewrite !fold_left_orb. cbn [orb].
  induction cs as [|c cs IH]; [done|].
  rewrite !fmap_cons. cbn [existsb flat_map].
  rewrite fmap_app, existsb_app, <-IH, (nodes_eq c), fmap_cons.
  cbn [existsb fst]. unfold id at 1 3.
  generalize (existsb id ((fun c => b (jugs c)) <$> cs)).
  generalize (existsb id
    ((fun c => existsb b (flat_map nodes (next_states c)).*1) <$> cs)).
  generalize (existsb b (flat_map nodes (next_states c)).*1).
  generalize (b (jugs c)). by intros [] [] [] [].
Qed.

Lemma state_exists_helper_spec g :
  answers state b g ->
  state_exists_helper state g = Some (existsb b (flat_map nodes (next_states g)).*1).
Proof.
  induction g as [js cs fl IH] using JugsState_tree_ind; intros Hg; simpl.
  rewrite (comprehension_Some _ (fun c => b (jugs c))); last first.
  { apply Forall_forall; intros c Hc. apply Hg.
    apply (all_jugs_child _ c); [done|]. rewrite all_jugs_eq. by left. }
  rewrite (comprehension_Some _
             (fun c => existsb b (flat_map nodes (next_states c)).*1)); last first.
  { rewrite Forall_forall in IH. apply Forall_forall; intros c Hc.
    apply IH; [done|]. intros x Hx. apply Hg. by apply (all_jugs_child _ c). }
  by rewrite or_of_children.
Qed.

Lemma state_exists_spec g :
  answers state b g -> state_exists g state = Some (existsb b (all_jugs g)).
Proof.
  intros Hg. unfold state_exists, is_same.
  rewrite (Hg (jugs g)) by (rewrite all_jugs_eq; by left).
  rewrite state_exists_helper_spec by done. by rewrite all_jugs_eq.
Qed.
End duplicate_check.

(** ** A proof rule for the expansion *)

Lemma stable_refl s : stable s s.
Proof. intros q n Hq. eauto. Qed.

Lemma stable_trans s1 s2 s3 : stable s1 s2 -> stable s2 s3 -> stable s1 s3.
Proof.
  intros H12 H23 q n Hq.
  destruct (H12 _ _ Hq) as (n2 & Hq2 & Hj2 & Hf2).
  destruct (H23 _ _ Hq2) as (n3 & Hq3 & Hj3 & Hf3).
  exists n3. repeat split; congruence.
Qed.

Lemma ctl_sat_and P P' Q r :
  ctl_sat P Q r -> ctl_sat P' (fun _ => True) r -> ctl_sat (fun s => P s /\ P' s) Q r.
Proof. destruct r; simpl; auto. Qed.

Lemma ctl_sat_mono (P P' : store -> Prop) (Q Q' : failure -> Prop) r :
  (forall s, P s -> P' s) -> (forall e, Q e -> Q' e) -> ctl_sat P Q r -> ctl_sat P' Q' r.
Proof. destruct r; simpl; auto. Qed.

Lemma for_each_sat {A} (P : store -> Prop) Q (body : A -> store -> ctl) l :
  (forall x s, x ∈ l -> P s -> ctl_sat P Q (body x s)) ->
  forall s, P s -> ctl_sat P Q (for_each body l s).
Proof.
  induction l as [|x l IH]; intros Hbody s Hs; simpl; [done|].
  pose proof (Hbody x s (list_elem_of_here _ _) Hs) as Hx.
  destruct (body x s) as [s'| |]; try done.
  apply IH; [|done]. intros y s0 Hy. apply Hbody. by right.
Qed.

(** What [consider] does, with the flag put on the candidate before it is
    added rather than after. *)
Lemma consider_eq goal p cand s :
  consider goal p cand s =
  match state_exists (root s) cand with
  | None => Abort IndexError
  | Some exists_ =>
      if has_fill_amount cand goal then
        GoalFound
          (if exists_
           then mkStore (root s) (history s ++ [Flagged p (jugs cand)])
           else mkStore (update_at p (add_state (set_goal_flag cand)) (root s))
                        ((history s ++ [Attached p (jugs cand)])
                           ++ [Flagged p (jugs cand)]))
      else
        Normal (if exists_ then s else attach p cand s)
  end.
Proof.
  unfold consider, flag, attach.
  destruct (state_exists (root s) cand) as [[]|]; [| |done]; simpl;
    destruct (has_fill_amount cand goal); try done.
  by rewrite update_at_flag_add.
Qed.

Lemma stable_add p c s h :
  stable s (mkStore (update_at p (add_state c) (root s)) h).
Proof.
  intros q n Hq. simpl.
  destruct (get_state_update_add p c _ _ _ Hq) as (n' & ? & ? & ? & ?). eauto.
Qed.

Lemma consider_stable goal p cand s :
  ctl_sat (stable s) (fun _ => True) (consider goal p cand s).
Proof.
  rewrite consider_eq.
  destruct (state_exists (root s) cand) as [[]|]; [| |done];
    destruct (has_fill_amount cand goal); simpl;
    try apply stable_add; try apply stable_refl.
  intros q n Hq; eauto.
Qed.

Section rule.
Variable goal : Z.
Variable I : store -> Prop.
Variable Q : failure -> Prop.
Variable F : nat -> path -> Prop.

Hypothesis consider_sat : forall p cs cand s,
  I s -> get_state p (root s) = Some cs -> move (jugs cs) cand ->
  ctl_sat I Q (consider goal p (JugsState_init cand) s).
Hypothesis fuel_step : forall fuel p i, F (S fuel) p -> F fuel (p ++ [i]).
Hypothesis fuel_out : forall p s, I s -> valid p s -> F 0%nat p -> Q OutOfFuel.

Lemma consider_inv s0 p cs cand s :
  get_state p (root s0) = Some cs -> move (jugs cs) cand ->
  I s /\ stable s0 s ->
  ctl_sat (fun s' => I s' /\ stable s0 s') Q
          (consider goal p (JugsState_init cand) s).
Proof.
  intros Hp Hmove [Hs Hst].
  destruct (Hst _ _ Hp) as (cs' & Hp' & Hjugs & _).
  apply ctl_sat_and.
  - apply (consider_sat p cs'); [done|done|]. by rewrite Hjugs.
  - eapply ctl_sat_mono; [| |apply consider_stable]; [|done].
    intros s'. by apply stable_trans.
Qed.

Lemma expand_jug_sat s0 p cs i s :
  get_state p (root s0) = Some cs -> (i < length (jugs cs))%nat ->
  I s /\ stable s0 s ->
  ctl_sat (fun s' => I s' /\ stable s0 s') Q (expand_jug goal p (jugs cs) i s).
Proof.
  intros Hp Hi Hs. unfold expand_jug.
  pose proof (consider_inv s0 p cs _ s Hp (move_fill _ i Hi) Hs) as H1.
  destruct (consider _ _ (JugsState_init (alter Jug.fill_to_full _ _)) _)
    as [s1| |]; try done.
  pose proof (consider_inv s0 p cs _ s1 Hp (move_empty _ i Hi) H1) as H2.
  destruct (consider _ _ (JugsState_init (alter Jug.empty _ _)) _)
    as [s2| |]; try done.
  apply for_each_sat; [|done]. intros k s3 Hk Hs3.
  apply elem_of_seq in Hk. case_decide; [done|].
  apply (consider_inv s0 p cs); [done| |done].
  apply move_transfer; [done|lia|done].
Qed.

Lemma expand_sat p s :
  I s -> valid p s ->
  ctl_sat (fun s' => I s' /\ stable s s') Q (expand goal p s).
Proof.
  intros Hs [cs Hp]. unfold expand. rewrite Hp.
  apply for_each_sat; [|split; [done|apply stable_refl]].
  intros i s1 Hi Hs1. apply elem_of_seq in Hi.
  apply (expand_jug_sat s); [done|lia|done].
Qed.

Lemma graph_it_helper_sat fuel : forall p s,
  I s -> valid p s -> F fuel p ->
  result_sat (fun s' => I s' /\ stable s s') Q (graph_it_helper fuel goal p s).
Proof.
  induction fuel as [|fuel IH]; intros p s Hs Hp HF; simpl; [by eapply fuel_out|].
  unfold try_block.
  pose proof (expand_sat p s Hs Hp) as Hexp.
  destruct (expand goal p s) as [s1| |]; try done.
  destruct Hexp as [Hs1 Hst1]. destruct Hp as [cs0 Hp].
  destruct (Hst1 _ _ Hp) as (cs & Hp1 & _).
  assert (ctl_sat (fun s' => I s' /\ stable s1 s') Q
            (descend (graph_it_helper fuel goal) p s1)) as Hloop.
  { unfold descend. rewrite Hp1.
    apply for_each_sat; [|split; [done|apply stable_refl]].
    intros idx s2 Hidx [Hs2 Hst2]. apply elem_of_seq in Hidx.
    destruct (lookup_lt_is_Some_2 (next_states cs) idx) as [child Hchild]; [lia|].
    pose proof (get_state_snoc _ _ _ _ _ Hp1 Hchild) as Hc1.
    destruct (Hst2 _ _ Hc1) as (child' & Hc2 & _). rewrite Hc2.
    destruct (goal_flag child'); [done|].
    pose proof (IH (p ++ [idx]) s2 Hs2 (ex_intro _ _ Hc2) (fuel_step _ _ _ HF)) as Hrec.
    destruct (graph_it_helper fuel goal (p ++ [idx]) s2); simpl in *; [|done].
    destruct Hrec. split; [done|]. by eapply stable_trans. }
  destruct (descend _ _ s1) as [s'|s'|]; simpl in *; try done;
    (destruct Hloop; split; [done|]; by eapply stable_trans).
Qed.
End rule.

(** ** Moves keep the jugs and their ranges *)

Lemma alter_capacity f (i : nat) (js : list Jug.t) :
  (forall j, Jug.capacity (f j) = Jug.capacity j) ->
  Jug.capacity <$> alter f i js = Jug.capacity <$> js.
Proof.
  intros Hf. rewrite (list_fmap_alter _ f id) by (apply Forall_forall; auto).
  by apply list_alter_id.
Qed.

Lemma transfer_at_capacity i k js :
  Jug.capacity <$> transfer_at i k js = Jug.capacity <$> js.
Proof.
  unfold transfer_at.
  destruct (js !! i) as [ji|] eqn:Hi; [|done].
  destruct (js !! k) as [jk|] eqn:Hk; [|done].
  destruct (transfer_capacity ji jk) as [H1 H2].
  destruct (Jug.transfer ji jk) as [ji' jk']; simpl in *.
  rewrite !list_fmap_insert, H1, H2.
  rewrite (list_insert_id (Jug.capacity <$> js) i).
  - apply list_insert_id. by rewrite list_lookup_fmap, Hk.
  - by rewrite list_lookup_fmap, Hi.
Qed.

Lemma transfer_at_in_range i k js :
  Forall Jug.in_range js -> Forall Jug.in_range (transfer_at i k js).
Proof.
  intros Hjs. unfold transfer_at.
  destruct (js !! i) as [ji|] eqn:Hi; [|done].
  destruct (js !! k) as [jk|] eqn:Hk; [|done].
  destruct (transfer_in_range ji jk) as [H1 H2].
  { by eapply Forall_lookup_1. }
  { by eapply Forall_lookup_1. }
  destruct (Jug.transfer ji jk) as [ji' jk']; simpl in *.
  by repeat apply Forall_insert.
Qed.

Lemma move_capacity js js' :
  move js js' -> Jug.capacity <$> js' = Jug.capacity <$> js.
Proof.
  destruct 1; [by apply alter_capacity..|apply transfer_at_capacity].
Qed.

Lemma move_in_range js js' :
  move js js' -> Forall Jug.in_range js -> Forall Jug.in_range js'.
Proof.
  destruct 1; intros Hjs.
  - apply Forall_alter; [done|]. intros; by apply fill_to_full_in_range.
  - apply Forall_alter; [done|]. intros; by apply empty_in_range.
  - by apply transfer_at_in_range.
Qed.

(** ** The invariant of the tree *)

Lemma get_state_nodes p : forall g n,
  get_state p g = Some n -> (jugs n, goal_flag n) ∈ nodes g.
Proof.
  induction p as [|i p IH]; intros g n Hp; simpl in Hp.
  - injection Hp as <-. rewrite nodes_eq. by left.
  - destruct (next_states g !! i) as [c|] eqn:Hi; [|done].
    rewrite nodes_eq. right. apply list_elem_of_In, in_flat_map.
    exists c. rewrite <-!list_elem_of_In. split; [|by apply IH].
    by eapply list_elem_of_lookup_2.
Qed.

Lemma get_state_all_jugs p g n : get_state p g = Some n -> jugs n ∈ all_jugs g.
Proof.
  intros Hp. apply get_state_nodes in Hp. unfold all_jugs.
  apply list_elem_of_fmap. by exists (jugs n, goal_flag n).
Qed.

Lemma all_jugs_update_add p c g :
  is_Some (get_state p g) -> next_states c = [] ->
  all_jugs (update_at p (add_state c) g) ≡ₚ all_jugs g ++ [jugs c].
Proof.
  intros Hp Hc. unfold all_jugs. rewrite nodes_update_add by done.
  rewrite fmap_app, (nodes_eq c), Hc. done.
Qed.

Lemma existsb_bool_decide (x : list Jug.t) l :
  existsb (fun y => bool_decide (x = y)) l = bool_decide (x ∈ l).
Proof.
  induction l as [|y l IH]; cbn [existsb].
  - symmetry. apply bool_decide_eq_false_2. apply not_elem_of_nil.
  - rewrite IH. destruct (decide (x = y)) as [->|Hne].
    + rewrite (bool_decide_eq_true_2 (y = y)) by done. cbn [orb]. symmetry.
      apply bool_decide_eq_true_2. by left.
    + rewrite (bool_decide_eq_false_2 (x = y)) by done. cbn [orb].
      apply bool_decide_ext. rewrite elem_of_cons. by split; [right|intros [?|?]].
Qed.

Lemma state_exists_well_formed caps g cand fl :
  well_formed caps g -> Jug.capacity <$> cand = caps ->
  state_exists g (mkState cand [] fl) = Some (bool_decide (cand ∈ all_jugs g)).
Proof.
  intros [Hall _] Hcand.
  rewrite (state_exists_spec _ (fun js => bool_decide (cand = js))).
  - by rewrite existsb_bool_decide.
  - intros js Hjs. rewrite Forall_forall in Hall. pose proof (Hall _ Hjs) as Hc.
    apply (is_same_same_capacities (mkState cand [] fl) (mkState js [] false)).
    simpl. congruence.
Qed.

Lemma well_formed_add caps p g cand fl :
  well_formed caps g -> is_Some (get_state p g) ->
  Jug.capacity <$> cand = caps -> cand ∉ all_jugs g ->
  well_formed caps (update_at p (add_state (mkState cand [] fl)) g).
Proof.
  intros [Hall Hnd] Hp Hc Hnew.
  pose proof (all_jugs_update_add p (mkState cand [] fl) g Hp eq_refl) as Hperm.
  split.
  - rewrite Hperm. apply Forall_app. split; [done|]. by constructor.
  - rewrite Hperm. apply NoDup_app. repeat split; [done| |apply NoDup_singleton].
    intros x Hx Hx'. apply list_elem_of_singleton in Hx'. by subst.
Qed.

Lemma in_bounds_add p g cand fl :
  in_bounds g -> is_Some (get_state p g) -> Forall Jug.in_range cand ->
  in_bounds (update_at p (add_state (mkState cand [] fl)) g).
Proof.
  intros Hall Hp Hr. unfold in_bounds.
  rewrite (all_jugs_update_add p (mkState cand [] fl) g Hp eq_refl).
  apply Forall_app. split; [done|]. by constructor.
Qed.

(** The duplicate check never fails on a well-formed tree, and keeps it
    well formed. *)
Lemma consider_well_formed goal caps p cs cand s :
  well_formed caps (root s) -> get_state p (root s) = Some cs ->
  move (jugs cs) cand ->
  ctl_sat (fun s' => well_formed caps (root s')) (fun _ => False)
          (consider goal p (JugsState_init cand) s).
Proof.
  intros Hwf Hp Hmove.
  assert (Jug.capacity <$> cand = caps) as Hc.
  { destruct Hwf as [Hall _]. rewrite Forall_forall in Hall.
    rewrite (move_capacity _ _ Hmove). apply Hall. by eapply get_state_all_jugs. }
  rewrite consider_eq. unfold JugsState_init.
  rewrite (state_exists_well_formed caps) by done.
  case_bool_decide as Hin; destruct (has_fill_amount _ goal); simpl; try done.
  - apply well_formed_add; eauto.
  - apply well_formed_add; eauto.
Qed.

Lemma consider_in_bounds goal p cs cand s :
  in_bounds (root s) -> get_state p (root s) = Some cs ->
  move (jugs cs) cand ->
  ctl_sat (fun s' => in_bounds (root s')) (fun _ => True)
          (consider goal p (JugsState_init cand) s).
Proof.
  intros Hb Hp Hmove.
  assert (Forall Jug.in_range cand) as Hr.
  { eapply move_in_range; [done|]. unfold in_bounds in Hb.
    rewrite Forall_forall in Hb. apply Hb. by eapply get_state_all_jugs. }
  rewrite consider_eq. unfold JugsState_init.
  destruct (state_exists _ _) as [[]|]; [| |done];
    destruct (has_fill_amount _ goal); simpl; try done.
  - apply in_bounds_add; eauto.
  - apply in_bounds_add; eauto.
Qed.

(** ** The size of a well-formed tree *)

Lemma fillings_complete js : forall caps,
  Jug.capacity <$> js = caps -> Forall Jug.in_range js -> js ∈ fillings caps.
Proof.
  induction js as [|[c a] js IH]; intros caps <- Hr.
  - by left.
  - inversion Hr as [|?? [Ha1 Ha2] Hr']; subst; simpl in Ha1, Ha2.
    rewrite fmap_cons. cbn [fillings Jug.capacity].
    apply list_elem_of_In, in_flat_map. exists (Z.to_nat a). split.
    + apply in_seq. lia.
    + apply in_map_iff. exists js. rewrite Z2Nat.id by done. split; [done|].
      apply list_elem_of_In. by apply IH.
Qed.

Lemma well_formed_size caps g :
  well_formed caps g -> in_bounds g ->
  (node_count g <= length (fillings caps))%nat.
Proof.
  intros [Hall Hnd] Hb. unfold node_count.
  rewrite <-(length_fmap fst). apply submseteq_length, NoDup_submseteq; [done|].
  intros js Hjs. unfold in_bounds in Hb. rewrite Forall_forall in Hall, Hb.
  apply fillings_complete; auto.
Qed.

Lemma well_formed_init caps : well_formed caps (JugsState_init (Jug.init <$> caps)).
Proof.
  split; unfold all_jugs; simpl; [|apply NoDup_singleton].
  constructor; [|done].
  induction caps as [|c caps IH]; [done|]. rewrite !fmap_cons. by rewrite IH.
Qed.

Lemma in_bounds_init caps :
  Forall (fun c => 0 <= c) caps -> in_bounds (JugsState_init (Jug.init <$> caps)).
Proof.
  intros Hpos. unfold in_bounds, all_jugs; simpl. constructor; [|done].
  apply Forall_fmap. eapply Forall_impl; [done|].
  intros c Hc. unfold Jug.in_range, compose; simpl in *. lia.
Qed.

(** ** Partial correctness of the expansion, and its termination without a
    limit on nested calls *)

Lemma graph_it_helper_well_formed goal caps fuel p s :
  well_formed caps (root s) -> valid p s ->
  result_sat (fun s' => well_formed caps (root s') /\ stable s s')
             (fun e => e = OutOfFuel) (graph_it_helper fuel goal p s).
Proof.
  intros Hwf Hp.
  apply (graph_it_helper_sat goal (fun s => well_formed caps (root s))
           (fun e => e = OutOfFuel) (fun _ _ => True)); try done.
  intros. eapply ctl_sat_mono; [| |by eapply consider_well_formed]; done.
Qed.

Lemma graph_it_helper_in_bounds goal fuel p s :
  in_bounds (root s) -> valid p s ->
  result_sat (fun s' => in_bounds (root s') /\ stable s s')
             (fun _ => True) (graph_it_helper fuel goal p s).
Proof.
  intros Hb Hp.
  apply (graph_it_helper_sat goal (fun s => in_bounds (root s))
           (fun _ => True) (fun _ _ => True)); try done.
  intros. by eapply consider_in_bounds.
Qed.

Lemma graph_it_helper_total goal caps fuel p s :
  well_formed caps (root s) -> in_bounds (root s) -> valid p s ->
  enough_fuel caps fuel p ->
  result_sat (fun s' => (well_formed caps (root s') /\ in_bounds (root s'))
                        /\ stable s s')
             (fun _ => False) (graph_it_helper fuel goal p s).
Proof.
  intros Hwf Hb.
  apply (graph_it_helper_sat goal
           (fun s => well_formed caps (root s) /\ in_bounds (root s))
           (fun _ => False) (enough_fuel caps)); [| | |done].
  - intros q cs cand s0 [Hwf0 Hb0] Hq Hmove. apply ctl_sat_and.
    + by eapply consider_well_formed.
    + by eapply consider_in_bounds.
  - unfold enough_fuel. intros ? ? ?. rewrite length_app; simpl. lia.
  - unfold enough_fuel. intros q s0 [Hwf0 Hb0] [n Hq] Hfuel.
    apply get_state_length in Hq. pose proof (well_formed_size _ _ Hwf0 Hb0). lia.
Qed.

(** More fuel does not change the outcome of a call that returned. *)
Lemma for_each_mono {A} (body body' : A -> store -> ctl) l :
  (forall x s r, (forall e, r <> Abort e) -> body x s = r -> body' x s = r) ->
  forall s r, (forall e, r <> Abort e) -> for_each body l s = r -> for_each body' l s = r.
Proof.
  intros Hbody. induction l as [|x l IH]; intros s r Hr Hrun; simpl in *; [done|].
  destruct (body x s) as [s1|s1|e] eqn:Hx.
  - rewrite (Hbody x s (Normal s1)); [by apply IH|done|done].
  - rewrite (Hbody x s (GoalFound s1)); [done|done|done].
  - by destruct (Hr e).
Qed.

Lemma graph_it_helper_mono goal fuel : forall p s s',
  graph_it_helper fuel goal p s = Done s' ->
  graph_it_helper (S fuel) goal p s = Done s'.
Proof.
  induction fuel as [|fuel IH]; intros p s s' Hrun; [done|].
  change (graph_it_helper (S (S fuel)) goal p s) with
    (match try_block (graph_it_helper (S fuel) goal) goal p s with
     | Normal s' | GoalFound s' => Done s'
     | Abort e => Failed e
     end).
  change (graph_it_helper (S fuel) goal p s) with
    (match try_block (graph_it_helper fuel goal) goal p s with
     | Normal s' | GoalFound s' => Done s'
     | Abort e => Failed e
     end) in Hrun.
  assert (forall r, (forall e, r <> Abort e) ->
            try_block (graph_it_helper fuel goal) goal p s = r ->
            try_block (graph_it_helper (S fuel) goal) goal p s = r) as Hblock.
  { unfold try_block, descend. intros r Hr.
    destruct (expand goal p s) as [s1| |]; [|done..].
    destruct (get_state p (root s1)); [|done].
    apply for_each_mono; [|done]. intros idx s2 r2 Hr2.
    destruct (get_state (p ++ [idx]) (root s2)) as [child|]; [|done].
    destruct (goal_flag child); [done|].
    destruct (graph_it_helper fuel goal (p ++ [idx]) s2) as [s3|e] eqn:Hrec.
    - by rewrite (IH _ _ _ Hrec).
    - intros <-. by destruct (Hr2 e). }
  destruct (try_block (graph_it_helper fuel goal) goal p s) as [s1|s1|e] eqn:Hb;
    [| |done].
  - by rewrite (Hblock (Normal s1)).
  - by rewrite (Hblock (GoalFound s1)).
Qed.

Lemma graph_it_helper_more_fuel goal fuel fuel' p s s' :
  (fuel <= fuel')%nat ->
  graph_it_helper fuel goal p s = Done s' ->
  graph_it_helper fuel' goal p s = Done s'.
Proof.
  induction 1 as [|fuel' _ IH]; [done|]. intros Hrun.
  by apply graph_it_helper_mono, IH.
Qed.

(** The outcome of a call that returns does not depend on the fuel. *)
Lemma graph_it_deterministic fuel fuel' self r r' :
  graph_it fuel self = Done r -> graph_it fuel' self = Done r' -> r = r'.
Proof.
  unfold graph_it. intros H H'.
  destruct (graph_it_helper fuel _ _ _) as [s|] eqn:Hs; [|done].
  destruct (graph_it_helper fuel' _ _ _) as [s'|] eqn:Hs'; [|done].
  destruct (Nat.le_ge_cases fuel fuel') as [Hle|Hle].
  - rewrite (graph_it_helper_more_fuel _ _ _ _ _ _ Hle Hs) in Hs'. congruence.
  - rewrite (graph_it_helper_more_fuel _ _ _ _ _ _ Hle Hs') in Hs. congruence.
Qed.

(** ** Runs of [graph_it] *)

Lemma valid_root s : valid [] s.
Proof. by eexists. Qed.

Lemma graph_it_inv fuel self g h :
  graph_it fuel self = Done (g, h) ->
  exists s', graph_it_helper fuel (goal self) [] (mkStore (start self) []) = Done s' /\
             g = mkGraph (root s') (goal self) true /\ h = history s'.
Proof.
  unfold graph_it. destruct (graph_it_helper _ _ _ _) as [s'|]; [|done].
  intros [= <- <-]. eauto.
Qed.

Lemma graph_it_well_formed fuel caps goal g h :
  graph_it fuel (new_graph caps goal) = Done (g, h) -> well_formed caps (start g).
Proof.
  intros (s' & Hrun & -> & _)%graph_it_inv. simpl in *.
  pose proof (graph_it_helper_well_formed goal caps fuel []
                (mkStore (JugsState_init (Jug.init <$> caps)) [])
                (well_formed_init caps) (valid_root _)) as Hsat.
  rewrite Hrun in Hsat. by destruct Hsat.
Qed.

Lemma graph_it_in_bounds fuel caps goal g h :
  Forall (fun c => 0 <= c) caps ->
  graph_it fuel (new_graph caps goal) = Done (g, h) -> in_bounds (start g).
Proof.
  intros Hpos (s' & Hrun & -> & _)%graph_it_inv. simpl in *.
  pose proof (graph_it_helper_in_bounds goal fuel []
                (mkStore (JugsState_init (Jug.init <$> caps)) [])
                (in_bounds_init caps Hpos) (valid_root _)) as Hsat.
  rewrite Hrun in Hsat. by destruct Hsat.
Qed.

Lemma run_total caps target :
  Forall (fun c => 0 <= c) caps ->
  exists g h, run caps target = Done (g, h) /\ graphed g = true.
Proof.
  intros Hpos. unfold run, graph_it, new_graph, JugsGraph_init. cbn [start goal].
  pose proof (graph_it_helper_total target caps (S (length (fillings caps))) []
                (mkStore (JugsState_init (Jug.init <$> caps)) [])
                (well_formed_init caps) (in_bounds_init caps Hpos) (valid_root _))
    as Hsat.
  destruct (graph_it_helper _ _ _ _) as [s'|e].
  - eexists _, _. split; reflexivity.
  - exfalso. apply Hsat. unfold enough_fuel. simpl. lia.
Qed.

Lemma positive_nonnegative caps :
  Forall (fun c => 0 < c) caps -> Forall (fun c => 0 <= c) caps.
Proof. intros H. eapply Forall_impl; [done|]. intros; simpl in *; lia. Qed.

(** Without a limit on the nesting of calls the expansion returns, with the
    same graph for every budget of the model above the number of
    configurations. *)
Lemma graph_it_without_limit (capacities : list Z) (target : Z) :
  Forall (fun c => 0 <= c) capacities ->
  exists g h,
    graphed g = true /\
    forall fuel, (length (fillings capacities) < fuel)%nat ->
      graph_it fuel (new_graph capacities target) = Done (g, h).
Proof.
  intros Hpos.
  destruct (run_total capacities target Hpos) as (g & h & Hrun & Hg).
  exists g, h. split; [done|]. intros fuel Hfuel.
  unfold run in Hrun. apply graph_it_inv in Hrun as (s' & Hrun & -> & ->).
  apply (graph_it_helper_more_fuel _ _ fuel) in Hrun; [|lia].
  unfold graph_it. by rewrite Hrun.
Qed.

Lemma jugs_eq_by_parts (a : list Jug.t) : forall b,
  Jug.capacity <$> a = Jug.capacity <$> b ->
  Jug.amount <$> a = Jug.amount <$> b -> a = b.
Proof.
  induction a as [|[c x] a IH]; intros [|[c' y] b] Hc Ha; simplify_eq/=; [done|].
  f_equal. by apply IH.
Qed.

(** C4: filling, emptying and pouring keep every container involved within
    [0, capacity]; hence every configuration that moves produce from the
    empty jugs, and every state of the graph that [graph_it] builds, has all
    its amounts within range. *)
Theorem amounts_stay_in_range :
  (forall j, Jug.in_range j ->
     Jug.in_range (Jug.fill_to_full j) /\ Jug.in_range (Jug.empty j)) /\
  (forall self jug, Jug.in_range self -> Jug.in_range jug ->
     Jug.in_range (Jug.transfer self jug).1 /\
     Jug.in_range (Jug.transfer self jug).2) /\
  (forall capacities js,
     Forall (fun c => 0 < c) capacities ->
     reachable (Jug.init <$> capacities) js -> Forall Jug.in_range js) /\
  (forall capacities target fuel g h,
     Forall (fun c => 0 < c) capacities ->
     graph_it fuel (new_graph capacities target) = Done (g, h) ->
     Forall (Forall Jug.in_range) (all_jugs (start g))).
Proof.
  split; [|split; [|split]].
  - intros j Hj. split; [by apply fill_to_full_in_range|by apply empty_in_range].
  - apply transfer_in_range.
  - intros caps js Hpos%positive_nonnegative Hreach.
    induction Hreach as [|js1 js2 _ IH Hmove].
    + pose proof (in_bounds_init caps Hpos) as Hb.
      unfold in_bounds, all_jugs in Hb; simpl in Hb. by inversion Hb.
    + by eapply move_in_range.
  - intros caps target fuel g h Hpos%positive_nonnegative Hrun.
    by eapply graph_it_in_bounds.
Qed.

Lemma amounts_stay_in_range_witness :
  Jug.in_range (Jug.fill_to_full (Jug.mk 5 2)) /\
  Jug.in_range (Jug.transfer (Jug.mk 5 4) (Jug.mk 3 1)).1 /\
  Forall Jug.in_range (transfer_at 1 0 (Jug.init <$> [3; 5])) /\
  exists g h,
    graph_it 2 (new_graph [7] 7) = Done (g, h) /\
    Forall (Forall Jug.in_range) (all_jugs (start g)).
Proof.
  destruct amounts_stay_in_range as (Hops & Hpour & Hreach & Hgraph).
  split; [|split; [|split]].
  - apply Hops. unfold Jug.in_range; simpl; lia.
  - apply Hpour; unfold Jug.in_range; simpl; lia.
  - apply (Hreach [3; 5]); [repeat constructor|].
    eapply reachable_move; [apply reachable_here|].
    apply move_transfer; simpl; lia.
  - eexists _, _. split; [vm_compute; reflexivity|].
    eapply (Hgraph [7] 7 2%nat); [repeat constructor|vm_compute; reflexivity].
Defined.

(** C6: on a graph whose states all have the jugs of the run, a candidate
    whose amounts equal those of some state of the graph (root included) is
    not added, and any other candidate is; hence the graph that [graph_it]
    returns has no two states with the same amounts, and [is_same] is false
    between any two of them. *)
Theorem duplicates_are_discarded :
  (forall capacities target p cand s,
     well_formed capacities (root s) ->
     Jug.capacity <$> cand = capacities ->
     (exists js, js ∈ all_jugs (root s) /\ amounts js = amounts cand) ->
     ctl_sat (fun s' => root s' = root s) (fun _ => False)
             (consider target p (JugsState_init cand) s)) /\
  (forall capacities target p cand s,
     well_formed capacities (root s) -> valid p s ->
     Jug.capacity <$> cand = capacities ->
     (forall js, js ∈ all_jugs (root s) -> amounts js <> amounts cand) ->
     ctl_sat (fun s' => all_jugs (root s') ≡ₚ all_jugs (root s) ++ [cand])
             (fun _ => False)
             (consider target p (JugsState_init cand) s)) /\
  (forall capacities target fuel g h,
     graph_it fuel (new_graph capacities target) = Done (g, h) ->
     NoDup (amounts <$> all_jugs (start g)) /\
     forall i j a b,
       i <> j ->
       all_jugs (start g) !! i = Some a -> all_jugs (start g) !! j = Some b ->
       is_same (JugsState_init a) (JugsState_init b) = Some false).
Proof.
  split; [|split].
  - intros caps target p cand s Hwf Hc (js & Hjs & Ha).
    assert (cand ∈ all_jugs (root s)) as Hin.
    { destruct Hwf as [Hall _]. rewrite Forall_forall in Hall.
      rewrite <-(jugs_eq_by_parts js cand); [done| |done].
      rewrite Hc. by apply Hall. }
    rewrite consider_eq. unfold JugsState_init.
    rewrite (state_exists_well_formed caps) by done.
    rewrite bool_decide_eq_true_2 by done.
    by destruct (has_fill_amount _ target).
  - intros caps target p cand s Hwf Hp Hc Hnew.
    assert (cand ∉ all_jugs (root s)) as Hin.
    { intros Hin. by apply (Hnew _ Hin). }
    rewrite consider_eq. unfold JugsState_init.
    rewrite (state_exists_well_formed caps) by done.
    rewrite bool_decide_eq_false_2 by done.
    destruct (has_fill_amount _ target); simpl; by apply all_jugs_update_add.
  - intros caps target fuel g h Hrun.
    destruct (graph_it_well_formed _ _ _ _ _ Hrun) as [Hall Hnd].
    rewrite Forall_forall in Hall. split.
    + apply NoDup_fmap_2_strong; [|done]. intros a b Ha Hb Hab.
      apply jugs_eq_by_parts; [|done]. by rewrite (Hall _ Ha), (Hall _ Hb).
    + intros i j a b Hij Hi Hj.
      rewrite is_same_same_capacities; simpl.
      * f_equal. apply bool_decide_eq_false_2. intros ->.
        apply Hij. by eapply NoDup_lookup.
      * rewrite (Hall a), (Hall b); [done|by eapply list_elem_of_lookup_2..].
Qed.

Lemma duplicates_are_discarded_witness :
  ctl_sat (fun s' => root s' = JugsState_init (Jug.init <$> [3; 5]))
          (fun _ => False)
          (consider 4 [] (JugsState_init (Jug.init <$> [3; 5]))
                    (mkStore (JugsState_init (Jug.init <$> [3; 5])) [])) /\
  ctl_sat (fun s' => all_jugs (root s') ≡ₚ
                     all_jugs (JugsState_init (Jug.init <$> [3; 5]))
                       ++ [[Jug.mk 3 3; Jug.mk 5 0]])
          (fun _ => False)
          (consider 4 [] (JugsState_init [Jug.mk 3 3; Jug.mk 5 0])
                    (mkStore (JugsState_init (Jug.init <$> [3; 5])) [])) /\
  exists g h,
    graph_it 9 (new_graph [3; 5] 4) = Done (g, h) /\
    NoDup (amounts <$> all_jugs (start g)).
Proof.
  destruct duplicates_are_discarded as (Hdup & Hnew & Hgraph).
  split; [|split].
  - apply (Hdup [3; 5]).
    + apply well_formed_init.
    + reflexivity.
    + eexists. split; [by left|reflexivity].
  - apply (Hnew [3; 5]).
    + apply well_formed_init.
    + apply valid_root.
    + reflexivity.
    + intros js ->%list_elem_of_singleton. by vm_compute.
  - eexists _, _. split; [vm_compute; reflexivity|].
    eapply (Hgraph [3; 5] 4 9%nat). vm_compute; reflexivity.
Defined.

(** C5: between two containers within range a pour moves exactly
    [min (amount, other.capacity - other.amount)] from the source to the
    destination; into a full container or from an empty one it changes
    nothing. *)
Theorem transfer_pours_min (self jug : Jug.t) :
  Jug.in_range self -> Jug.in_range jug ->
  Jug.transfer self jug =
    (Jug.mk (Jug.capacity self)
       (Jug.amount self - Z.min (Jug.amount self) (Jug.capacity jug - Jug.amount jug)),
     Jug.mk (Jug.capacity jug)
       (Jug.amount jug + Z.min (Jug.amount self) (Jug.capacity jug - Jug.amount jug)))
  /\ (Jug.amount jug = Jug.capacity jug -> Jug.transfer self jug = (self, jug))
  /\ (Jug.amount self = 0 -> Jug.transfer self jug = (self, jug)).
Proof.
  intros [Hs1 Hs2] [Hj1 Hj2]. split; [apply transfer_eq|].
  destruct self as [cs a], jug as [c b]; simpl in *.
  split; intros Heq; rewrite transfer_eq; simpl; f_equal; f_equal; lia.
Qed.

Lemma transfer_pours_min_witness :
  Jug.transfer (Jug.mk 5 4) (Jug.mk 3 1) = (Jug.mk 5 2, Jug.mk 3 3) /\
  Jug.transfer (Jug.mk 5 4) (Jug.mk 3 3) = (Jug.mk 5 4, Jug.mk 3 3) /\
  Jug.transfer (Jug.mk 5 0) (Jug.mk 3 1) = (Jug.mk 5 0, Jug.mk 3 1).
Proof.
  assert (forall c a, 0 <= a <= c -> Jug.in_range (Jug.mk c a)) as Hr by done.
  split; [|split].
  - apply (transfer_pours_min (Jug.mk 5 4) (Jug.mk 3 1)); apply Hr; lia.
  - apply (proj1 (proj2 (transfer_pours_min (Jug.mk 5 4) (Jug.mk 3 3)
                           (Hr 5 4 ltac:(lia)) (Hr 3 3 ltac:(lia))))).
    reflexivity.
  - apply (proj2 (proj2 (transfer_pours_min (Jug.mk 5 0) (Jug.mk 3 1)
                           (Hr 5 0 ltac:(lia)) (Hr 3 1 ltac:(lia))))).
    reflexivity.
Defined.

(** C3, as the code has it: between states with as many jugs each,
    [is_same] is true exactly when the amounts are equal at every position
    where the capacities are equal, a position where the capacities differ
    being passed over; when the capacities are the same position by
    position it is true exactly when all the amounts are equal. *)
Theorem is_same_compares_where_capacities_agree (a b : JugsState) :
  length (jugs a) = length (jugs b) ->
  exists r, is_same a b = Some r /\
    (r = true <-> Forall2 agree (jugs a) (jugs b)) /\
    (Jug.capacity <$> jugs a = Jug.capacity <$> jugs b ->
     (r = true <-> amounts (jugs a) = amounts (jugs b))).
Proof.
  intros Hlen. unfold is_same. rewrite is_same_from_aligned, drop_0.
  destruct (aligned_spec _ _ Hlen) as (r & Hr & Hiff).
  exists r. split; [done|]. split; [done|]. intros Hc.
  rewrite Hiff, (agree_same_capacities _ _ Hc). split; [by intros ->|].
  intros Ha. by apply jugs_eq_by_parts.
Qed.

Lemma is_same_compares_where_capacities_agree_witness :
  exists r,
    is_same (JugsState_init [Jug.mk 3 1; Jug.mk 5 2])
            (JugsState_init [Jug.mk 3 2; Jug.mk 5 1]) = Some r /\
    (r = true <-> Forall2 agree [Jug.mk 3 1; Jug.mk 5 2] [Jug.mk 3 2; Jug.mk 5 1]) /\
    (Jug.capacity <$> [Jug.mk 3 1; Jug.mk 5 2] = Jug.capacity <$> [Jug.mk 3 2; Jug.mk 5 1] ->
     (r = true <-> amounts [Jug.mk 3 1; Jug.mk 5 2] = amounts [Jug.mk 3 2; Jug.mk 5 1])).
Proof.
  apply (is_same_compares_where_capacities_agree
           (JugsState_init [Jug.mk 3 1; Jug.mk 5 2])
           (JugsState_init [Jug.mk 3 2; Jug.mk 5 1])).
  reflexivity.
Defined.

(** C3, as the claim has it, fails: two states with as many jugs each, the
    second with the jugs of the first in swapped positions, are the same for
    [is_same] although neither the capacities nor the amounts match at any
    position. *)
Lemma is_same_true_without_match :
  length (jugs (JugsState_init [Jug.mk 3 1; Jug.mk 5 2])) =
  length (jugs (JugsState_init [Jug.mk 5 2; Jug.mk 3 1])) /\
  is_same (JugsState_init [Jug.mk 3 1; Jug.mk 5 2])
          (JugsState_init [Jug.mk 5 2; Jug.mk 3 1]) = Some true /\
  ~ Forall2 matches [Jug.mk 3 1; Jug.mk 5 2] [Jug.mk 5 2; Jug.mk 3 1].
Proof.
  split; [done|]. split; [done|].
  inversion 1 as [|???? [Hc _] _]; subst. simpl in Hc. lia.
Qed.

(** C10: the flag is only ever set on candidates, so the root of the graph
    that [graph_it] returns is unflagged; with one jug and target 0, which
    only the root configuration and its copies satisfy, the expansion stops
    at the first copy, which is not added, and [print_solutions] finds no
    solution. *)
Theorem root_is_never_flagged :
  (forall js target fuel g h,
     graph_it fuel (JugsGraph_init js target) = Done (g, h) ->
     goal_flag (start g) = false) /\
  (forall c fuel, exists g h,
     graph_it (S fuel) (new_graph [c] 0) = Done (g, h) /\
     Forall (fun n => n.2 = false) (nodes (start g)) /\
     print_solutions g = ([NoSolutionLine], None)).
Proof.
  split.
  - intros js target fuel g h (s' & Hrun & -> & _)%graph_it_inv. simpl in *.
    pose proof (graph_it_helper_sat target (fun _ => True) (fun _ => True)
                  (fun _ _ => True)) as Hsat.
    specialize (Hsat ltac:(intros; by destruct (consider _ _ _ _))
                     ltac:(done) ltac:(done) fuel []
                     (mkStore (JugsState_init js) []) I (valid_root _) I).
    rewrite Hrun in Hsat. destruct Hsat as [_ Hst].
    by destruct (Hst [] _ eq_refl) as (n' & [= <-] & _ & ->).
  - intros c fuel.
    destruct c as [|q|q]; eexists _, _;
      (split;
       [unfold graph_it, new_graph, JugsGraph_init; cbn;
        unfold try_block, expand, expand_jug, consider, state_exists, is_same,
          has_fill_amount, JugsState_init, Jug.init, attach, flag;
        repeat (unfold is_same; simpl; rewrite ?Pos.eqb_refl); reflexivity
       |split; [by repeat constructor|reflexivity]]).
Qed.

(** ** Solution extraction *)

Lemma get_state_path_unfold g p acc :
  _get_state_path g p acc =
  match get_state p g with
  | None => Failed Dangling
  | Some cs =>
      match parent p with
      | None => Done (cs :: acc)
      | Some q => _get_state_path g q (cs :: acc)
      end
  end.
Proof.
  rewrite _get_state_path_equation_1.
  unfold _get_state_path_unfold_clause_1.
  destruct (get_state p g); [|done].
  unfold _get_state_path_unfold_clause_1_clause_2.
  by destruct p.
Qed.

Lemma parent_snoc (q : path) i : parent (q ++ [i]) = Some q.
Proof.
  unfold parent. rewrite removelast_last. by destruct q.
Qed.

Lemma get_state_snoc_inv q i g cs :
  get_state (q ++ [i]) g = Some cs ->
  exists cq, get_state q g = Some cq /\ next_states cq !! i = Some cs.
Proof.
  rewrite get_state_app. destruct (get_state q g) as [cq|]; [|done]. simpl.
  destruct (next_states cq !! i) as [c|] eqn:Hi; [|done]. intros [= ->]. eauto.
Qed.

Lemma states_along_snoc q : forall g cq i c,
  get_state q g = Some cq -> next_states cq !! i = Some c ->
  states_along g (q ++ [i]) = states_along g q ++ [c].
Proof.
  induction q as [|j q IH]; intros g cq i c Hq Hi; simpl in *.
  - injection Hq as <-. by rewrite Hi.
  - destruct (next_states g !! j) as [ch|]; [|done]. f_equal. by eapply IH.
Qed.

Lemma get_state_path_spec g p : forall acc cs,
  get_state p g = Some cs ->
  _get_state_path g p acc = Done (states_along g p ++ acc).
Proof.
  induction p as [|i q IH] using rev_ind; intros acc cs Hp.
  - rewrite get_state_path_unfold. simpl. done.
  - rewrite get_state_path_unfold, Hp, parent_snoc.
    destruct (get_state_snoc_inv _ _ _ _ Hp) as (cq & Hq & Hi).
    rewrite (IH _ _ Hq), (states_along_snoc _ _ _ _ _ Hq Hi).
    by rewrite <-app_assoc.
Qed.

Lemma traverse_spec g cs : forall p pr,
  get_state p g = Some cs ->
  _traverse_states g p cs pr =
  Done (fold_left record_solution (states_along g <$> goal_addresses p cs) pr).
Proof.
  induction cs as [js children fl IH] using JugsState_tree_ind; intros p pr Hp.
  simpl. destruct fl.
  - rewrite (get_state_path_spec _ _ _ _ Hp). by rewrite app_nil_r.
  - assert (forall rest pre pr,
              children = pre ++ rest ->
              for_enumerate
                (fun idx s pr => _traverse_states g (p ++ [idx]) s pr)
                rest (length pre) pr =
              Done (fold_left record_solution
                      (states_along g <$>
                         flat_mapi (fun idx c => goal_addresses (p ++ [idx]) c)
                                   rest (length pre)) pr)) as Hloop.
    { induction rest as [|c rest IHrest]; intros pre pr0 Hsplit; [done|].
      cbn [for_enumerate flat_mapi].
      assert (c ∈ children) as Hc by (rewrite Hsplit; set_solver).
      rewrite Forall_forall in IH. rewrite (IH c Hc); last first.
      { eapply get_state_snoc; [done|]. simpl. rewrite Hsplit.
        by apply list_lookup_middle. }
      rewrite fmap_app, fold_left_app.
      specialize (IHrest (pre ++ [c]) (fold_left record_solution
        (states_along g <$> goal_addresses (p ++ [length pre]) c) pr0)).
      rewrite length_app, Nat.add_1_r in IHrest. apply IHrest.
      by rewrite <-app_assoc. }
    apply (Hloop children [] pr eq_refl).
Qed.

Lemma flat_mapi_nil {A B} (f : nat -> A -> list B) l : forall idx,
  flat_mapi f l idx = [] <-> forall i x, l !! i = Some x -> f (idx + i)%nat x = [].
Proof.
  induction l as [|x l IH]; intros idx; cbn [flat_mapi].
  - split; [intros _ i y Hi; by rewrite lookup_nil in Hi|done].
  - rewrite app_nil, IH. split.
    + intros [Hx Hl] [|i] y Hi; simpl in Hi.
      * injection Hi as <-. by rewrite Nat.add_0_r.
      * rewrite Nat.add_succ_r. by apply (Hl i y).
    + intros H. split.
      * rewrite <-(Nat.add_0_r idx). by apply (H 0%nat).
      * intros i y Hi. rewrite Nat.add_succ_comm. by apply (H (S i)).
Qed.

Lemma unflagged_eq g :
  unflagged g <-> goal_flag g = false /\ Forall unflagged (next_states g).
Proof.
  unfold unflagged. rewrite (nodes_eq g), Forall_cons. simpl.
  apply and_iff_compat_l. rewrite !Forall_forall. split.
  - intros H c Hc. apply Forall_forall. intros n Hn. apply H.
    apply list_elem_of_In, in_flat_map. exists c. by rewrite <-!list_elem_of_In.
  - intros H n Hn. apply list_elem_of_In, in_flat_map in Hn as (c & Hc & Hn).
    rewrite <-!list_elem_of_In in *. specialize (H c Hc).
    rewrite Forall_forall in H. by apply H.
Qed.

Lemma goal_addresses_nil cs : forall p, goal_addresses p cs = [] <-> unflagged cs.
Proof.
  induction cs as [js children fl IH] using JugsState_tree_ind; intros p.
  rewrite unflagged_eq. simpl. destruct fl.
  - split; [done|]. by intros [? _].
  - rewrite flat_mapi_nil, Forall_forall. rewrite Forall_forall in IH. split.
    + intros H. split; [done|]. intros c Hc.
      apply list_elem_of_lookup in Hc as [i Hi]. eapply IH; [|by eapply H].
      by eapply list_elem_of_lookup_2.
    + intros [_ H] i c Hi. apply IH; [|apply H]; by eapply list_elem_of_lookup_2.
Qed.




(** ** What the traversal leaves in the printer *)

Lemma fold_record_number paths : forall pr,
  solution_number (fold_left record_solution paths pr) =
  (solution_number pr + length paths)%nat.
Proof.
  induction paths as [|sl paths IH]; intros pr; simpl; [lia|].
  rewrite IH. simpl. lia.
Qed.

Lemma fold_record_solutions paths : forall pr,
  solutions (fold_left record_solution paths pr) =
  solutions pr ++ ((fun sl => mkSolution (Z.of_nat (length sl)) sl) <$> paths).
Proof.
  induction paths as [|sl paths IH]; intros pr; simpl; [by rewrite app_nil_r|].
  rewrite IH. simpl. by rewrite <-app_assoc.
Qed.

Lemma fold_record_printed paths : forall pr,
  printed (fold_left record_solution paths pr) =
  printed pr ++ solution_blocks paths (solution_number pr).
Proof.
  unfold solution_blocks.
  induction paths as [|sl paths IH]; intros pr; simpl; [by rewrite app_nil_r|].
  rewrite IH. simpl. by rewrite <-app_assoc.
Qed.

(** ** The shortest solution *)



Lemma print_solutions_eq self :
  graphed self = true ->
  print_solutions self =
  let paths := goal_paths (start self) in
  if (length paths =? 0)%nat then ([NoSolutionLine], None)
  else
    match snd (shortest ((fun sl => mkSolution (Z.of_nat (length sl)) sl) <$> paths)) with
    | None => (solution_blocks paths 0 ++ [BestLine], Some TypeError)
    | Some sol =>
        (solution_blocks paths 0
           ++ BestLine :: map (fun s => JugsLine (jugs s)) (list_ sol)
           ++ [StepsLine (steps sol)], None)
    end.
Proof.
  intros Hg. unfold print_solutions. rewrite Hg.
  rewrite (traverse_spec (start self) (start self) [] _ eq_refl).
  fold (goal_paths (start self)).
  rewrite fold_record_number, fold_record_solutions, fold_record_printed.
  simpl. by destruct (goal_paths (start self)).
Qed.


(** ** Runs in which no candidate can hold the target *)

Lemma has_fill_amount_out_of_reach caps target js fl :
  Forall (fun c => c < target) caps ->
  Jug.capacity <$> js = caps -> Forall Jug.in_range js ->
  has_fill_amount (mkState js [] fl) target = false.
Proof.
  intros Hcaps <- Hr. unfold has_fill_amount; simpl.
  induction Hr as [|j js [_ Hj] _ IH]; [done|].
  rewrite fmap_cons in Hcaps. inversion Hcaps as [|?? Hc Hcs]; subst. simpl.
  rewrite IH by done. rewrite orb_false_r. apply Z.eqb_neq. lia.
Qed.

Lemma unflagged_add p g cand :
  unflagged g -> is_Some (get_state p g) ->
  unflagged (update_at p (add_state (mkState cand [] false)) g).
Proof.
  intros Hg Hp. unfold unflagged.
  rewrite (nodes_update_add p (mkState cand [] false) g Hp).
  apply Forall_app. split; [done|]. by repeat constructor.
Qed.

Lemma consider_out_of_reach target caps p cs cand s :
  Forall (fun c => c < target) caps ->
  well_formed caps (root s) /\ in_bounds (root s) /\ unflagged (root s) ->
  get_state p (root s) = Some cs -> move (jugs cs) cand ->
  ctl_sat (fun s' => well_formed caps (root s') /\ in_bounds (root s') /\
                     unflagged (root s'))
          (fun _ => False)
          (consider target p (JugsState_init cand) s).
Proof.
  intros Hcaps (Hwf & Hb & Hu) Hp Hmove.
  pose proof (consider_well_formed target caps p cs cand s Hwf Hp Hmove) as H1.
  pose proof (consider_in_bounds target p cs cand s Hb Hp Hmove) as H2.
  assert (has_fill_amount (JugsState_init cand) target = false) as Hno.
  { apply (has_fill_amount_out_of_reach caps); [done|..].
    - destruct Hwf as [Hall _]. rewrite Forall_forall in Hall.
      rewrite (move_capacity _ _ Hmove). apply Hall. by eapply get_state_all_jugs.
    - eapply move_in_range; [done|]. unfold in_bounds in Hb.
      rewrite Forall_forall in Hb. apply Hb. by eapply get_state_all_jugs. }
  rewrite consider_eq in *. rewrite Hno in *.
  destruct (state_exists (root s) (JugsState_init cand)) as [[]|]; simpl in *;
    [exact (conj Hwf (conj Hb Hu))| |done].
  split; [exact H1|]. split; [exact H2|]. apply unflagged_add; eauto.
Qed.


Lemma root_is_never_flagged_witness :
  exists g h,
    graph_it 2 (JugsGraph_init [Jug.mk 7 0] 7) = Done (g, h) /\
    goal_flag (start g) = false.
Proof.
  eexists _, _. split; [vm_compute; reflexivity|].
  eapply (proj1 root_is_never_flagged [Jug.mk 7 0] 7 2%nat).
  vm_compute; reflexivity.
Defined.

(** C2, as the claim has it, fails: for the jugs 3 and 5 and the target 4
    the path printed as the best solution has 7 states, not 6. *)
Lemma best_for_3_5_4_is_not_6_states :
  exists g h,
    run [3; 5] 4 = Done (g, h) /\
    print_solutions g =
      (solution_blocks (goal_paths (start g)) 0
         ++ best_block (states_along (start g) [1; 0; 0; 0; 0; 0]%nat), None) /\
    length (states_along (start g) [1; 0; 0; 0; 0; 0]%nat) <> 6%nat.
Proof.
  eexists _, _. split; [vm_compute; reflexivity|].
  split; [vm_compute; reflexivity|]. vm_compute. lia.
Qed.

(** C2, as the code has it: for the jugs 3 and 5 and the target 4 the
    expansion flags two states, [print_solutions] prints both paths, of 9 and
    of 7 states, and the one printed as the best solution has 7 states (6
    moves), from the empty root to the state that holds 4 in the second jug:
    fill 5, pour 5 into 3, empty 3, pour 5 into 3, fill 5, pour 5 into 3. *)
Theorem best_for_3_5_4_has_7_states :
  exists g h,
    run [3; 5] 4 = Done (g, h) /\
    (length <$> goal_paths (start g)) = [9; 7]%nat /\
    print_solutions g =
      (solution_blocks (goal_paths (start g)) 0
         ++ best_block (states_along (start g) [1; 0; 0; 0; 0; 0]%nat), None) /\
    (fun s => amounts (jugs s)) <$> states_along (start g) [1; 0; 0; 0; 0; 0]%nat =
      [[0; 0]; [0; 5]; [3; 2]; [0; 2]; [2; 0]; [2; 5]; [3; 4]].
Proof.
  eexists _, _. split; [vm_compute; reflexivity|].
  split; [|split]; vm_compute; reflexivity.
Qed.

(** ** The order of events *)

Lemma for_each_post {A} (N G : store -> Prop) (body : A -> store -> ctl) l :
  (forall x s, x ∈ l -> N s -> ctl_post N G (body x s)) ->
  forall s, N s -> ctl_post N G (for_each body l s).
Proof.
  induction l as [|x l IH]; intros Hbody s Hs; simpl; [done|].
  pose proof (Hbody x s (list_elem_of_here _ _) Hs) as Hx.
  destruct (body x s) as [s'| |]; try done.
  apply IH; [|done]. intros y s0 Hy. apply Hbody. by right.
Qed.

Lemma for_each_seq_post (N : nat -> store -> Prop) (G : store -> Prop) body n :
  forall a s,
    N a s ->
    (forall x s, (a <= x < a + n)%nat -> N x s -> ctl_post (N (S x)) G (body x s)) ->
    ctl_post (N (a + n)%nat) G (for_each body (seq a n) s).
Proof.
  induction n as [|n IH]; intros a s Hs Hbody; simpl.
  - by rewrite Nat.add_0_r.
  - pose proof (Hbody a s ltac:(lia) Hs) as Ha.
    destruct (body a s) as [s'| |]; try done.
    rewrite <-Nat.add_succ_comm. apply IH; [done|].
    intros x s0 Hx. apply Hbody. lia.
Qed.

Section trace.
Variable goal : Z.

Lemma grew_at_refl p s : grew_at p s s.
Proof. exists []. rewrite app_nil_r. split; [done|constructor]. Qed.

Lemma consider_trace p s0 cand s :
  grew_at p s0 s ->
  ctl_post (grew_at p s0) (raised_at p s0) (consider goal p cand s).
Proof.
  intros (t & Ht & Hadd). rewrite consider_eq.
  assert (additions_at p (t ++ [Attached p (jugs cand)])) as Hadd'.
  { apply Forall_app. split; [done|]. by repeat constructor. }
  destruct (state_exists (root s) cand) as [[]|]; [| |done];
    destruct (has_fill_amount cand goal); simpl.
  - exists t, (jugs cand). simpl. rewrite Ht, <-app_assoc. by split.
  - by exists t.
  - exists (t ++ [Attached p (jugs cand)]), (jugs cand). simpl.
    rewrite Ht, <-!app_assoc. by split.
  - exists (t ++ [Attached p (jugs cand)]). unfold attach. simpl.
    rewrite Ht, <-!app_assoc. by split.
Qed.

Lemma expand_trace p s :
  ctl_post (grew_at p s) (raised_at p s) (expand goal p s).
Proof.
  unfold expand. destruct (get_state p (root s)) as [cs|]; [|done].
  apply for_each_post; [|apply grew_at_refl]. intros i s1 _ Hs1.
  unfold expand_jug.
  pose proof (consider_trace p s
    (JugsState_init (alter Jug.fill_to_full i (jugs cs))) _ Hs1) as H1.
  destruct (consider _ _ _ s1) as [s2| |]; try done.
  pose proof (consider_trace p s
    (JugsState_init (alter Jug.empty i (jugs cs))) _ H1) as H2.
  destruct (consider _ _ _ s2) as [s3| |]; try done.
  apply for_each_post; [|done]. intros k s4 _ Hs4.
  case_decide; [done|]. by apply consider_trace.
Qed.
End trace.

Lemma halted_locally_app T : forall t,
  halted_locally T -> halted_locally t ->
  (forall q c, Flagged q c ∈ T -> Forall (fun e => apart q (site e)) t) ->
  halted_locally (T ++ t).
Proof.
  induction T as [|e T IH]; intros t HT Ht Hcross; [done|].
  destruct HT as [He HT]. split.
  - destruct e as [|q c]; [done|]. apply Forall_app. split; [done|].
    apply (Hcross q c). by left.
  - apply IH; [done..|]. intros q c Hq. apply (Hcross q c). by right.
Qed.

Lemma additions_not_flagged p t q c : additions_at p t -> Flagged q c ∉ t.
Proof.
  intros Hadd Hin. unfold additions_at in Hadd. rewrite Forall_forall in Hadd.
  by destruct (Hadd _ Hin) as [? _].
Qed.

Lemma halted_locally_additions p t : additions_at p t -> halted_locally t.
Proof.
  induction 1 as [|e t [He _] _ IH]; [done|]. split; [|done]. by destruct e.
Qed.

Lemma apart_branches (p : path) i j q r :
  i <> j -> (p ++ [i]) `prefix_of` q -> (p ++ [j]) `prefix_of` r -> apart q r.
Proof.
  intros Hij [q' ->] [r' ->]. split; intros [k Hk]; rewrite <-!app_assoc in Hk;
    apply app_inv_head in Hk; simpl in Hk; congruence.
Qed.

Lemma ctl_post_mono (N N' G G' : store -> Prop) r :
  (forall s, N s -> N' s) -> (forall s, G s -> G' s) ->
  ctl_post N G r -> ctl_post N' G' r.
Proof. destruct r; simpl; auto. Qed.

Section halting.
Variable goal : Z.

Lemma descend_trace helper p s1 :
  (forall idx s s', helper (p ++ [idx]) s = Done s' -> traced (p ++ [idx]) s s') ->
  ctl_post (fun s => exists x, descended p s1 x s)
           (fun s => exists x, descended p s1 x s)
           (descend helper p s1).
Proof.
  intros Hrec. unfold descend. destruct (get_state p (root s1)) as [cs|]; [|done].
  eapply (ctl_post_mono (descended p s1 (0 + length (next_states cs))) _
            (fun s => exists x, descended p s1 x s)); [eauto..|].
  apply for_each_seq_post.
  { exists []. rewrite app_nil_r. split; [done|]. split; [exact I|constructor]. }
  intros x s _ Hs.
  destruct (get_state (p ++ [x]) (root s)) as [child|]; [|done].
  destruct (goal_flag child); simpl; [eauto|].
  destruct (helper (p ++ [x]) s) as [s'|] eqn:Hcall; simpl; [|done].
  destruct Hs as (T & HT & Hhalt & Hbelow).
  destruct (Hrec _ _ _ Hcall) as (t & Ht & Htb & Hth).
  exists (T ++ t). rewrite Ht, HT, <-app_assoc. split; [done|]. split.
  - apply halted_locally_app; [done..|]. intros q c Hq.
    rewrite Forall_forall in Hbelow. destruct (Hbelow _ Hq) as (i & Hi & Hpre).
    unfold events_below in Htb. eapply Forall_impl; [exact Htb|].
    intros e He. simpl in *. apply (apart_branches p i x); [lia|done..].
  - apply Forall_app. split.
    + eapply Forall_impl; [exact Hbelow|]. intros e (i & Hi & He).
      exists i. split; [lia|done].
    + unfold events_below in Htb. eapply Forall_impl; [exact Htb|].
      intros e He. exists x. split; [lia|done].
Qed.

Lemma graph_it_helper_trace fuel : forall p s s',
  graph_it_helper fuel goal p s = Done s' -> traced p s s'.
Proof.
  induction fuel as [|fuel IH]; intros p s s' Hrun; [done|].
  simpl in Hrun. unfold try_block in Hrun.
  pose proof (expand_trace goal p s) as Hexp.
  destruct (expand goal p s) as [s1|s1|]; [| |done].
  - destruct Hexp as (t1 & Ht1 & Hadd).
    pose proof (descend_trace (graph_it_helper fuel goal) p s1
                  (fun idx => IH (p ++ [idx]))) as Hdesc.
    assert (exists x, descended p s1 x s') as (x & T & HT & Hhalt & Hbelow).
    { destruct (descend _ p s1) as [s2|s2|]; simpl in *; [| |done];
        by injection Hrun as <-. }
    exists (t1 ++ T). rewrite HT, Ht1, <-app_assoc. split; [done|]. split.
    + apply Forall_app. split.
      * unfold additions_at in Hadd. eapply Forall_impl; [exact Hadd|].
        intros e [_ ->]. done.
      * eapply Forall_impl; [exact Hbelow|]. intros e (i & _ & He).
        etrans; [|exact He]. by apply prefix_app_r.
    + apply halted_locally_app; [by eapply halted_locally_additions|done|].
      intros q c Hq. by apply (additions_not_flagged p) in Hq.
  - injection Hrun as <-. destruct Hexp as (t1 & c & Ht1 & Hadd).
    exists (t1 ++ [Flagged p c]). split; [done|]. split.
    + apply Forall_app. split.
      * unfold additions_at in Hadd. eapply Forall_impl; [exact Hadd|].
        intros e [_ ->]. done.
      * by repeat constructor.
    + apply halted_locally_app; [by eapply halted_locally_additions| |].
      * by repeat constructor.
      * intros q c' Hq. by apply (additions_not_flagged p) in Hq.
Qed.
End halting.

Lemma halted_locally_split h : forall pre p c post,
  halted_locally h -> h = pre ++ Flagged p c :: post ->
  Forall (fun e => apart p (site e)) post.
Proof.
  intros pre. revert h. induction pre as [|e pre IH]; intros h p c post Hh ->.
  - by destruct Hh.
  - destruct Hh as [_ Hh]. by eapply IH.
Qed.

Lemma additions_app h t : additions (h ++ t) = (additions h + additions t)%nat.
Proof. unfold additions. by rewrite List.filter_app, length_app. Qed.

Lemma node_count_add p c g :
  is_Some (get_state p g) -> next_states c = [] ->
  node_count (update_at p (add_state c) g) = S (node_count g).
Proof.
  intros Hp Hc. unfold node_count. rewrite (nodes_update_add p c g Hp).
  rewrite length_app, (nodes_eq c), Hc. simpl. lia.
Qed.

(** The history counts the additions to the tree. *)
Lemma consider_counts target n0 p cs cand s :
  node_count (root s) = (n0 + additions (history s))%nat ->
  get_state p (root s) = Some cs ->
  ctl_sat (fun s' => node_count (root s') = (n0 + additions (history s'))%nat)
          (fun _ => True)
          (consider target p (JugsState_init cand) s).
Proof.
  intros Hs Hp. rewrite consider_eq.
  destruct (state_exists (root s) (JugsState_init cand)) as [[]|]; [| |done];
    destruct (has_fill_amount _ target); simpl;
    rewrite ?additions_app, ?node_count_add by eauto; simpl.
  - unfold additions at 2; simpl. lia.
  - done.
  - unfold additions at 2 3; simpl. lia.
  - unfold additions at 2; simpl. lia.
Qed.

(** C1, as the code has it: every call of [_helper] catches the exception
    raised in it, so a flag set while the state at some address is expanded
    ends the expansion of that state only: every later event happens at an
    address that is neither that one, nor above it, nor below it, in the
    branches still pending.  The history the statement is about counts the
    states of the graph. *)
Theorem goal_halts_its_own_branch (fuel : nat) (self g : JugsGraph) (h : list event) :
  graph_it fuel self = Done (g, h) ->
  (forall pre p c post,
     h = pre ++ Flagged p c :: post -> Forall (fun e => apart p (site e)) post) /\
  node_count (start g) = (node_count (start self) + additions h)%nat.
Proof.
  intros (s' & Hrun & -> & ->)%graph_it_inv. split.
  - intros pre p c post. apply halted_locally_split.
    destruct (graph_it_helper_trace _ _ _ _ _ Hrun) as (t & Ht & _ & Hhalt).
    simpl in Ht. by rewrite Ht.
  - pose proof (graph_it_helper_sat (goal self)
                  (fun s => node_count (root s) =
                            (node_count (start self) + additions (history s))%nat)
                  (fun _ => True) (fun _ _ => True)) as Hsat.
    specialize (Hsat ltac:(intros; by eapply consider_counts) ltac:(done) ltac:(done)
                     fuel [] (mkStore (start self) [])).
    specialize (Hsat ltac:(unfold additions; simpl; lia) (valid_root _) I).
    rewrite Hrun in Hsat. by destruct Hsat as [Hcount _].
Qed.

Lemma goal_halts_its_own_branch_witness :
  exists g h,
    graph_it 9 (new_graph [3; 5] 4) = Done (g, h) /\
    (forall pre p c post,
       h = pre ++ Flagged p c :: post -> Forall (fun e => apart p (site e)) post) /\
    node_count (start g) = (1 + additions h)%nat.
Proof.
  eexists _, _. split; [vm_compute; reflexivity|].
  eapply (goal_halts_its_own_branch 9 (new_graph [3; 5] 4)).
  vm_compute; reflexivity.
Defined.

(** C1, as the claim has it, fails: for the jugs 3 and 5 and the target 4
    the graph has 11 states when the first flag is set, states are added
    after that, and the graph returned has 16. *)
Lemma expansion_goes_on_after_a_goal :
  exists g h,
    run [3; 5] 4 = Done (g, h) /\
    halted_globally h = false /\
    nodes_at_discovery h = Some 11%nat /\
    node_count (start g) = 16%nat.
Proof.
  eexists _, _. split; [vm_compute; reflexivity|].
  split; [|split]; vm_compute; reflexivity.
Qed.

(** ** The children of a state during the calls on its children

    [descend] visits the children that the state has when the loop starts;
    the Python loop reads the list as it goes.  The two agree: a call of
    [_helper] adds nothing to a state that is not at or below the one it was
    called on. *)

Lemma get_state_update_add_children p c : forall q g n,
  get_state q g = Some n ->
  exists n', get_state q (update_at p (add_state c) g) = Some n' /\
             length (next_states n') =
             (length (next_states n) + if decide (p = q) then 1 else 0)%nat.
Proof.
  induction p as [|i p IH]; intros q g n Hq.
  - destruct q as [|j q]; simpl in *.
    + injection Hq as <-. eexists; split; [done|]. simpl.
      by rewrite length_app.
    + destruct (next_states g !! j) as [ch|] eqn:Hj; [|done].
      exists n. rewrite lookup_app_l by (by eapply lookup_lt_Some).
      rewrite Hj. split; [done|lia].
  - destruct q as [|j q]; simpl in *.
    + injection Hq as <-. eexists; split; [done|]. simpl.
      rewrite length_alter. lia.
    + destruct (next_states g !! j) as [ch|] eqn:Hj; [|done].
      destruct (decide (i = j)) as [->|Hne].
      * rewrite list_lookup_alter_eq, Hj; simpl.
        destruct (IH _ _ _ Hq) as (n' & Hn' & Hlen). exists n'. split; [done|].
        rewrite Hlen. repeat case_decide; congruence.
      * rewrite list_lookup_alter_ne, Hj by done. exists n. split; [done|].
        case_decide; [congruence|lia].
Qed.

Lemma additions_to_app r h t :
  additions_to r (h ++ t) = (additions_to r h + additions_to r t)%nat.
Proof. unfold additions_to. by rewrite List.filter_app, length_app. Qed.

Lemma additions_to_cons r e h :
  additions_to r (e :: h) =
  ((if is_attached e && bool_decide (site e = r) then 1 else 0) + additions_to r h)%nat.
Proof.
  unfold additions_to. simpl.
  by destruct (is_attached e && bool_decide (site e = r)).
Qed.

Lemma additions_to_outside q r t :
  events_below q t -> ~ q `prefix_of` r -> additions_to r t = 0%nat.
Proof.
  intros Ht Hr. unfold additions_to.
  induction Ht as [|e t He _ IH]; [done|]. simpl.
  rewrite (bool_decide_eq_false_2 (site e = r)) by (by intros <-).
  by rewrite andb_false_r.
Qed.

Lemma children_counted_add r n0 a0 p c cand s h :
  children_counted r n0 a0 s -> additions_to r h = 0%nat ->
  children_counted r n0 a0
    (mkStore (update_at p (add_state c) (root s))
             (history s ++ Attached p cand :: h)).
Proof.
  intros (n & Hr & Hlen) Hh. unfold children_counted. simpl.
  destruct (get_state_update_add_children p c _ _ _ Hr) as (n' & Hr' & Hlen').
  exists n'. split; [done|].
  rewrite additions_to_app, additions_to_cons, Hlen', Hh. simpl.
  destruct (decide (p = r)) as [->|Hne].
  - rewrite bool_decide_eq_true_2 by done. simpl. lia.
  - rewrite bool_decide_eq_false_2 by done. simpl. lia.
Qed.

Lemma consider_children_counted target r n0 a0 p cand s :
  children_counted r n0 a0 s ->
  ctl_sat (children_counted r n0 a0) (fun _ => True)
          (consider target p (JugsState_init cand) s).
Proof.
  intros Hs. rewrite consider_eq.
  destruct (state_exists (root s) (JugsState_init cand)) as [[]|]; [| |done];
    destruct (has_fill_amount _ target); simpl.
  - destruct Hs as (n & Hr & Hlen). exists n. simpl.
    rewrite additions_to_app, additions_to_cons. simpl.
    split; [done|]. unfold additions_to at 2. simpl. lia.
  - done.
  - rewrite <-app_assoc. by apply children_counted_add.
  - unfold attach. by apply children_counted_add.
Qed.

Lemma helper_leaves_outside_alone target fuel q s s' r n :
  graph_it_helper fuel target q s = Done s' ->
  valid q s -> ~ q `prefix_of` r ->
  get_state r (root s) = Some n ->
  exists n', get_state r (root s') = Some n' /\
             length (next_states n') = length (next_states n).
Proof.
  intros Hrun Hq Hout Hr.
  destruct (graph_it_helper_trace _ _ _ _ _ Hrun) as (t & Ht & Hbelow & _).
  pose proof (graph_it_helper_sat target
                (children_counted r (length (next_states n))
                                  (additions_to r (history s)))
                (fun _ => True) (fun _ _ => True)) as Hsat.
  specialize (Hsat ltac:(intros; by eapply consider_children_counted)
                   ltac:(done) ltac:(done) fuel q s).
  rewrite Hrun in Hsat. destruct Hsat as [(n' & Hr' & Hlen) _]; [|done..|].
  - exists n. split; [done|lia].
  - exists n'. split; [done|]. rewrite Ht, additions_to_app in Hlen.
    rewrite (additions_to_outside q r t) in Hlen by done. lia.
Qed.

(** The children of [current_state] are the same before and after the call
    on any of them. *)
Lemma helper_keeps_siblings target fuel p idx s s' cs :
  graph_it_helper fuel target (p ++ [idx]) s = Done s' ->
  valid (p ++ [idx]) s -> get_state p (root s) = Some cs ->
  exists cs', get_state p (root s') = Some cs' /\
              length (next_states cs') = length (next_states cs).
Proof.
  intros Hrun Hvalid Hp. eapply helper_leaves_outside_alone; [done..| |done].
  intros [k Hk]. apply (f_equal length) in Hk.
  rewrite !length_app in Hk. simpl in Hk. lia.
Qed.

(** * Further properties of the code *)

(** ** Pouring *)

Lemma transfer_sum self jug :
  Jug.amount (Jug.transfer self jug).1 + Jug.amount (Jug.transfer self jug).2 =
  Jug.amount self + Jug.amount jug.
Proof. rewrite transfer_eq. simpl. lia. Qed.

(** X1: a pour neither creates nor loses water and leaves both capacities
    as they are, whatever the amounts and the capacities; [_fill] returns as
    remainder exactly what it does not keep. *)
Theorem transfer_conserves (self jug : Jug.t) (amount_in : Z) :
  Jug.amount (Jug.transfer self jug).1 + Jug.amount (Jug.transfer self jug).2 =
    Jug.amount self + Jug.amount jug /\
  Jug.capacity (Jug.transfer self jug).1 = Jug.capacity self /\
  Jug.capacity (Jug.transfer self jug).2 = Jug.capacity jug /\
  Jug.amount (Jug._fill jug amount_in).1 + (Jug._fill jug amount_in).2 =
    Jug.amount jug + amount_in /\
  Jug.capacity (Jug._fill jug amount_in).1 = Jug.capacity jug.
Proof.
  split; [apply transfer_sum|].
  rewrite transfer_eq. unfold Jug._fill. simpl.
  destruct (Jug.amount jug + amount_in >? Jug.capacity jug); simpl; lia.
Qed.

(** X2: after a pour between containers within range the source is empty or
    the destination is full, and pouring again changes nothing. *)
Theorem transfer_settles (self jug : Jug.t) :
  Jug.in_range self -> Jug.in_range jug ->
  (Jug.amount (Jug.transfer self jug).1 = 0 \/
   Jug.amount (Jug.transfer self jug).2 = Jug.capacity jug) /\
  Jug.transfer (Jug.transfer self jug).1 (Jug.transfer self jug).2 =
    Jug.transfer self jug.
Proof.
  intros [Hs1 Hs2] [Hj1 Hj2]. rewrite !transfer_eq. simpl. split; [lia|].
  f_equal; f_equal; lia.
Qed.

Lemma transfer_settles_witness :
  (Jug.amount (Jug.transfer (Jug.mk 5 4) (Jug.mk 3 1)).1 = 0 \/
   Jug.amount (Jug.transfer (Jug.mk 5 4) (Jug.mk 3 1)).2 = 3) /\
  Jug.transfer (Jug.transfer (Jug.mk 5 4) (Jug.mk 3 1)).1
               (Jug.transfer (Jug.mk 5 4) (Jug.mk 3 1)).2 =
    Jug.transfer (Jug.mk 5 4) (Jug.mk 3 1).
Proof.
  apply (transfer_settles (Jug.mk 5 4) (Jug.mk 3 1));
    unfold Jug.in_range; simpl; lia.
Defined.

Lemma total_insert (js : list Jug.t) : forall i j x,
  js !! i = Some j -> total (<[i := x]> js) = total js - Jug.amount j + Jug.amount x.
Proof.
  induction js as [|y js IH]; intros [|i] j x Hi; simplify_eq/=; [lia|].
  rewrite (IH _ _ x Hi). lia.
Qed.

(** X3: no move changes the number of jugs, their order or their
    capacities, which is what [is_same] depends on. *)
Theorem moves_keep_the_jugs (js js' : list Jug.t) :
  move js js' ->
  length js' = length js /\ Jug.capacity <$> js' = Jug.capacity <$> js.
Proof.
  intros Hmove. pose proof (move_capacity _ _ Hmove) as Hc. split; [|done].
  by rewrite <-(length_fmap Jug.capacity), Hc, length_fmap.
Qed.

Lemma moves_keep_the_jugs_witness :
  length (transfer_at 1 0 [Jug.mk 3 1; Jug.mk 5 4]) = 2%nat /\
  Jug.capacity <$> transfer_at 1 0 [Jug.mk 3 1; Jug.mk 5 4] = [3; 5].
Proof.
  apply (moves_keep_the_jugs [Jug.mk 3 1; Jug.mk 5 4]).
  apply move_transfer; simpl; lia.
Defined.

(** X4: a pour from one jug of a configuration into another keeps the water
    of the configuration. *)
Theorem pours_keep_the_water (js : list Jug.t) (i k : nat) :
  i <> k -> total (transfer_at i k js) = total js.
Proof.
  intros Hik. unfold transfer_at.
  destruct (js !! i) as [ji|] eqn:Hi; [|done].
  destruct (js !! k) as [jk|] eqn:Hk; [|done].
  pose proof (transfer_sum ji jk) as Hsum.
  destruct (Jug.transfer ji jk) as [ji' jk']; simpl in *.
  rewrite (total_insert _ k jk), (total_insert _ i ji) by
    (done || by rewrite list_lookup_insert_ne).
  lia.
Qed.

Lemma pours_keep_the_water_witness :
  total (transfer_at 1 0 [Jug.mk 3 1; Jug.mk 5 4]) = total [Jug.mk 3 1; Jug.mk 5 4].
Proof. apply (pours_keep_the_water [Jug.mk 3 1; Jug.mk 5 4] 1 0). lia. Defined.

(** ** Equivalence of states, further *)

Lemma aligned_refl a : aligned a a = Some true.
Proof.
  induction a as [|j a IH]; simpl; [done|].
  by rewrite (Z.eqb_refl (Jug.amount j)), andb_false_r.
Qed.

Lemma aligned_sym a : forall b, length a = length b -> aligned a b = aligned b a.
Proof.
  induction a as [|j a IH]; intros [|o b] Hlen; simplify_eq/=; [done|].
  rewrite (Z.eqb_sym (Jug.capacity o)), (Z.eqb_sym (Jug.amount o)).
  destruct (_ && _); [done|]. by apply IH.
Qed.

(** X5: a state is the same as itself, and between states with as many jugs
    each [is_same] gives the same answer in both directions. *)
Theorem is_same_reflexive_symmetric (a b : JugsState) :
  is_same a a = Some true /\
  (length (jugs a) = length (jugs b) -> is_same a b = is_same b a).
Proof.
  unfold is_same. rewrite !is_same_from_aligned, !drop_0. split.
  - apply aligned_refl.
  - apply aligned_sym.
Qed.

Lemma is_same_reflexive_symmetric_witness :
  is_same (JugsState_init [Jug.mk 3 1; Jug.mk 5 2])
          (JugsState_init [Jug.mk 3 1; Jug.mk 5 2]) = Some true /\
  is_same (JugsState_init [Jug.mk 3 1; Jug.mk 5 2])
          (JugsState_init [Jug.mk 3 2; Jug.mk 5 2]) =
  is_same (JugsState_init [Jug.mk 3 2; Jug.mk 5 2])
          (JugsState_init [Jug.mk 3 1; Jug.mk 5 2]).
Proof.
  destruct (is_same_reflexive_symmetric
              (JugsState_init [Jug.mk 3 1; Jug.mk 5 2])
              (JugsState_init [Jug.mk 3 2; Jug.mk 5 2])) as [Hrefl Hsym].
  split; [exact Hrefl|]. apply Hsym. reflexivity.
Defined.

Lemma aligned_longer a : forall b,
  (length a <= length b)%nat -> aligned a b = aligned a (take (length a) b).
Proof.
  induction a as [|j a IH]; intros [|o b] Hlen; simpl in *; [done|done|lia|].
  destruct (_ && _); [done|]. apply IH. lia.
Qed.

Lemma aligned_shorter a : forall b,
  (length b < length a)%nat ->
  (aligned a b = None <-> Forall2 agree (take (length b) a) b) /\
  aligned a b <> Some true.
Proof.
  induction a as [|j a IH]; intros [|o b] Hlen; simpl in *; [lia|lia| |].
  - split; [|done]. split; [constructor|done].
  - destruct (IH b ltac:(lia)) as [Hiff Hne].
    destruct (Z.eqb_spec (Jug.capacity j) (Jug.capacity o)) as [Hc|Hc];
      destruct (Z.eqb_spec (Jug.amount j) (Jug.amount o)) as [Ha|Ha]; simpl.
    + split; [|done]. rewrite Hiff. split.
      * intros ?. constructor; [by intros ?|done].
      * by inversion 1.
    + split; [|done]. split; [done|].
      inversion 1 as [|???? Hh _]; subst. by specialize (Hh Hc).
    + split; [|done]. rewrite Hiff. split.
      * intros ?. constructor; [by intros ?|done].
      * by inversion 1.
    + split; [|done]. rewrite Hiff. split.
      * intros ?. constructor; [by intros ?|done].
      * by inversion 1.
Qed.

(** X6: when the other state has at least as many jugs, [is_same] never
    fails and does not look at the jugs beyond its own; when the other state
    has fewer, [is_same] is never true: it raises [IndexError] exactly when
    the jugs that both have agree, and is false otherwise. *)
Theorem is_same_on_unequal_lengths (a b : JugsState) :
  ((length (jugs a) <= length (jugs b))%nat ->
   is_Some (is_same a b) /\
   is_same a b = is_same a (JugsState_init (take (length (jugs a)) (jugs b)))) /\
  ((length (jugs b) < length (jugs a))%nat ->
   (is_same a b = None <->
    Forall2 agree (take (length (jugs b)) (jugs a)) (jugs b)) /\
   is_same a b <> Some true).
Proof.
  unfold is_same. rewrite !is_same_from_aligned, !drop_0. simpl. split.
  - intros Hlen. rewrite <-aligned_longer by done. split; [|done].
    rewrite (aligned_longer _ _ Hlen).
    destruct (aligned_spec (jugs a) (take (length (jugs a)) (jugs b)))
      as (r & -> & _); [|done].
    rewrite length_take. lia.
  - apply aligned_shorter.
Qed.

Lemma is_same_on_unequal_lengths_witness :
  (is_Some (is_same (JugsState_init [Jug.mk 3 1])
                    (JugsState_init [Jug.mk 3 1; Jug.mk 5 2])) /\
   is_same (JugsState_init [Jug.mk 3 1])
           (JugsState_init [Jug.mk 3 1; Jug.mk 5 2]) =
   is_same (JugsState_init [Jug.mk 3 1]) (JugsState_init [Jug.mk 3 1])) /\
  (is_same (JugsState_init [Jug.mk 3 1; Jug.mk 5 2])
           (JugsState_init [Jug.mk 3 1]) = None <->
   Forall2 agree [Jug.mk 3 1] [Jug.mk 3 1]) /\
  is_same (JugsState_init [Jug.mk 3 1; Jug.mk 5 2])
          (JugsState_init [Jug.mk 3 1]) <> Some true.
Proof.
  split.
  - apply (proj1 (is_same_on_unequal_lengths
                    (JugsState_init [Jug.mk 3 1])
                    (JugsState_init [Jug.mk 3 1; Jug.mk 5 2]))).
    simpl. lia.
  - apply (proj2 (is_same_on_unequal_lengths
                    (JugsState_init [Jug.mk 3 1; Jug.mk 5 2])
                    (JugsState_init [Jug.mk 3 1]))).
    simpl. lia.
Defined.

(** ** The duplicate check on any tree *)




(** ** The shortest solution, further *)

Lemma shortest_from_spec sols : forall m o,
  (Forall (fun s => m <= steps s) sols /\ shortest_from sols (m, o) = (m, o)) \/
  (exists pre s post,
     sols = pre ++ s :: post /\ steps s < m /\
     (forall s', s' ∈ pre -> steps s < steps s') /\
     (forall s', s' ∈ post -> steps s <= steps s') /\
     shortest_from sols (m, o) = (steps s, Some s)).
Proof.
  unfold shortest_from.
  induction sols as [|x l IH]; intros m o; simpl; [left; by split|].
  destruct (Z.ltb_spec (steps x) m) as [Hlt|Hge].
  - right. destruct (IH (steps x) (Some x)) as [[Hall ->]|Hfound].
    + exists [], x, l. repeat split; [done| |].
      * by intros s' ?%elem_of_nil.
      * intros s' Hs'. rewrite Forall_forall in Hall. by apply Hall.
    + destruct Hfound as (pre & s & post & -> & Hs & Hpre & Hpost & ->).
      exists (x :: pre), s, post. repeat split; [lia| |done].
      intros s' [->|Hs']%elem_of_cons; [done|by apply Hpre].
  - destruct (IH m o) as [[Hall ->]|Hfound].
    + left. split; [by constructor|done].
    + right. destruct Hfound as (pre & s & post & -> & Hs & Hpre & Hpost & ->).
      exists (x :: pre), s, post. repeat split; [done| |done].
      intros s' [->|Hs']%elem_of_cons; [lia|by apply Hpre].
Qed.

(** Without a limit on the nesting of calls, on a built graph
    [print_solutions] raises no exception but the [TypeError] of
    [solution["list"]], and that one exactly when there are solutions and
    none has fewer than 9999999999 states, the initial value of
    [min_steps]. *)
Lemma print_solutions_without_limit (self : JugsGraph) :
  graphed self = true ->
  (snd (print_solutions self) = None \/
   snd (print_solutions self) = Some TypeError) /\
  (snd (print_solutions self) = Some TypeError <->
   goal_paths (start self) <> [] /\
   Forall (fun sl => 9999999999 <= Z.of_nat (length sl)) (goal_paths (start self))).
Proof.
  intros Hg. rewrite (print_solutions_eq _ Hg). cbn zeta.
  destruct (goal_paths (start self)) as [|sl paths] eqn:Hpaths.
  { simpl. split; [by left|]. split; [done|]. by intros [? _]. }
  remember (sl :: paths) as all eqn:Hall.
  assert ((length all =? 0)%nat = false) as -> by (by subst).
  unfold shortest.
  destruct (shortest_from_spec
              ((fun sl => mkSolution (Z.of_nat (length sl)) sl) <$> all)
              9999999999 None) as [[Hbig ->]|Hfound].
  - simpl. split; [by right|]. split; [|done]. intros _. split; [by subst|].
    rewrite Forall_forall in Hbig. apply Forall_forall. intros sl' Hsl'.
    apply (Hbig (mkSolution (Z.of_nat (length sl')) sl')).
    apply list_elem_of_fmap. by exists sl'.
  - destruct Hfound as (pre & s & post & Heq & Hs & _ & _ & ->). simpl.
    split; [by left|]. split; [done|]. intros [_ Hbig]. exfalso.
    assert (s ∈ (fun sl => mkSolution (Z.of_nat (length sl)) sl) <$> all) as Hin
      by (rewrite Heq; set_solver).
    apply list_elem_of_fmap in Hin as (sl' & -> & Hsl').
    rewrite Forall_forall in Hbig. specialize (Hbig _ Hsl'). simpl in Hs. lia.
Qed.

(** ** What the graph is made of *)

Lemma edges_eq g :
  edges g = flat_map (fun c => (jugs g, jugs c) :: edges c) (next_states g).
Proof. by destruct g. Qed.

Lemma update_at_add_root p c g :
  jugs (update_at p (add_state c) g) = jugs g /\
  goal_flag (update_at p (add_state c) g) = goal_flag g.
Proof. by destruct p. Qed.

Lemma nodes_tail_update_add p c g :
  is_Some (get_state p g) ->
  tail (nodes (update_at p (add_state c) g)) ≡ₚ tail (nodes g) ++ nodes c.
Proof.
  intros Hp. pose proof (nodes_update_add p c g Hp) as Hperm.
  destruct (update_at_add_root p c g) as [Hj Hf].
  rewrite (nodes_eq (update_at _ _ _)), (nodes_eq g), Hj, Hf in Hperm.
  rewrite (nodes_eq (update_at _ _ _)), (nodes_eq g). simpl in *.
  by apply Permutation_cons_inv in Hperm.
Qed.

Lemma edges_update_add p c : forall g cs,
  get_state p g = Some cs -> next_states c = [] ->
  edges (update_at p (add_state c) g) ≡ₚ edges g ++ [(jugs cs, jugs c)].
Proof.
  induction p as [|i p IH]; intros g cs Hp Hc; simpl in *.
  - injection Hp as <-. rewrite (edges_eq g), flat_map_app. simpl.
    by rewrite (edges_eq c), Hc.
  - destruct (next_states g !! i) as [ch|] eqn:Hi; [|done].
    apply list_elem_of_split_length in Hi as (l1 & l2 & Hg & Hlen).
    rewrite (edges_eq g), Hg. subst i.
    rewrite alter_app_r_alt, Nat.sub_diag by lia. simpl.
    rewrite !flat_map_app. simpl.
    destruct (update_at_add_root p c ch) as [-> _].
    rewrite (IH _ _ Hp Hc). rewrite <-!app_assoc. simpl.
    apply Permutation_app_head. constructor. rewrite <-!app_assoc.
    apply Permutation_app_head. apply (Permutation_app_comm [_]).
Qed.

Lemma consider_flags_right target p cs cand s :
  flags_right target (root s) -> get_state p (root s) = Some cs ->
  ctl_sat (fun s' => flags_right target (root s')) (fun _ => True)
          (consider target p (JugsState_init cand) s).
Proof.
  intros Hs Hp. rewrite consider_eq.
  destruct (state_exists (root s) (JugsState_init cand)) as [[]|]; [| |done];
    destruct (has_fill_amount (JugsState_init cand) target) eqn:Hhas; simpl;
    try done; unfold flags_right;
    rewrite nodes_tail_update_add by eauto;
    (apply Forall_app; split; [done|]); by repeat constructor.
Qed.

Lemma consider_edges_are_moves target p cs cand s :
  edges_are_moves (root s) -> get_state p (root s) = Some cs ->
  move (jugs cs) cand ->
  ctl_sat (fun s' => edges_are_moves (root s')) (fun _ => True)
          (consider target p (JugsState_init cand) s).
Proof.
  intros Hs Hp Hmove. rewrite consider_eq.
  destruct (state_exists (root s) (JugsState_init cand)) as [[]|]; [| |done];
    destruct (has_fill_amount (JugsState_init cand) target); simpl;
    try done; unfold edges_are_moves;
    rewrite (edges_update_add p _ _ cs) by done;
    (apply Forall_app; split; [done|]); by repeat constructor.
Qed.

Lemma graph_it_flags_right fuel js target g h :
  graph_it fuel (JugsGraph_init js target) = Done (g, h) ->
  goal g = target /\ goal_flag (start g) = false /\ jugs (start g) = js /\
  flags_right target (start g) /\ edges_are_moves (start g).
Proof.
  intros (s' & Hrun & -> & _)%graph_it_inv. simpl in *.
  pose proof (graph_it_helper_sat target
                (fun s => flags_right target (root s) /\ edges_are_moves (root s))
                (fun _ => True) (fun _ _ => True)) as Hsat.
  specialize (Hsat ltac:(intros p cs cand s [H1 H2] Hp Hmove; apply ctl_sat_and;
                         [by eapply consider_flags_right
                         |by eapply consider_edges_are_moves])
                   ltac:(done) ltac:(done) fuel []
                   (mkStore (JugsState_init js) [])).
  specialize (Hsat ltac:(split; constructor) (valid_root _) I).
  rewrite Hrun in Hsat. destruct Hsat as [[Hflags Hedges] Hst].
  destruct (Hst [] _ eq_refl) as (n' & [= <-] & Hj & Hf).
  by repeat split.
Qed.

Lemma nodes_get_state g : forall x,
  x ∈ nodes g -> exists p n, get_state p g = Some n /\ x = (jugs n, goal_flag n).
Proof.
  induction g as [js cs fl IH] using JugsState_tree_ind. intros x Hx.
  simpl in Hx. apply elem_of_cons in Hx as [->|Hx].
  - by exists [], (mkState js cs fl).
  - apply list_elem_of_In, in_flat_map in Hx as (c & Hc & Hx).
    rewrite <-!list_elem_of_In in *. rewrite Forall_forall in IH.
    destruct (IH c Hc x Hx) as (p & n & Hp & ->).
    apply list_elem_of_lookup in Hc as [i Hi].
    exists (i :: p), n. simpl. by rewrite Hi.
Qed.

Lemma get_state_nodes_tail i p g n :
  get_state (i :: p) g = Some n -> (jugs n, goal_flag n) ∈ tail (nodes g).
Proof.
  simpl. destruct (next_states g !! i) as [c|] eqn:Hi; [|done]. intros Hp.
  rewrite nodes_eq. simpl. apply list_elem_of_In, in_flat_map.
  exists c. rewrite <-!list_elem_of_In. split; [by eapply list_elem_of_lookup_2|].
  by eapply get_state_nodes.
Qed.

Lemma states_along_cons g p : exists rest, states_along g p = g :: rest.
Proof. destruct p; simpl; eauto. Qed.

Lemma states_along_last p : forall g n,
  get_state p g = Some n -> last (states_along g p) = Some n.
Proof.
  induction p as [|i p IH]; intros g n Hp; simpl in *; [done|].
  destruct (next_states g !! i) as [c|]; [|done].
  destruct (states_along_cons c p) as [rest Hrest].
  specialize (IH _ _ Hp). rewrite Hrest in *. done.
Qed.

Lemma edges_child g c :
  c ∈ next_states g -> (jugs g, jugs c) ∈ edges g /\ edges c ⊆ edges g.
Proof.
  intros Hc. rewrite (edges_eq g). split.
  - apply list_elem_of_In, in_flat_map. exists c.
    rewrite <-!list_elem_of_In. split; [done|by left].
  - intros e He. apply list_elem_of_In, in_flat_map. exists c.
    rewrite <-!list_elem_of_In. split; [done|by right].
Qed.

Lemma edges_are_moves_child g c :
  edges_are_moves g -> c ∈ next_states g ->
  move (jugs g) (jugs c) /\ edges_are_moves c.
Proof.
  unfold edges_are_moves. rewrite !Forall_forall. intros Hg Hc.
  destruct (edges_child g c Hc) as [Hedge Hsub]. split.
  - by apply (Hg _ Hedge).
  - intros e He. by apply Hg, Hsub.
Qed.

Lemma chain_along p : forall g n,
  edges_are_moves g -> get_state p g = Some n ->
  chain (jugs <$> states_along g p).
Proof.
  induction p as [|i p IH]; intros g n Hg Hp; simpl in *; [done|].
  destruct (next_states g !! i) as [c|] eqn:Hi; [|done].
  destruct (edges_are_moves_child g c Hg) as [Hmove Hc];
    [by eapply list_elem_of_lookup_2|].
  specialize (IH _ _ Hc Hp).
  destruct (states_along_cons c p) as [rest Hrest]. rewrite Hrest in *.
  rewrite !fmap_cons in *. by split.
Qed.

Lemma chain_reachable a : forall l x,
  chain (a :: l) -> last (a :: l) = Some x -> reachable a x.
Proof.
  intros l. revert a. induction l as [|b l IH]; intros a x Hchain Hlast.
  - injection Hlast as <-. constructor.
  - destruct Hchain as [Hmove Hchain]. specialize (IH b x Hchain Hlast).
    clear -Hmove IH. induction IH as [|js1 js2 _ IH' Hm].
    + eapply reachable_move; [constructor|done].
    + by eapply reachable_move.
Qed.



(** X10: in the graph built from given jugs the root is not flagged and
    every other state is flagged exactly when one of its jugs holds the
    target. *)
Theorem flags_mark_the_target fuel js target g h :
  graph_it fuel (JugsGraph_init js target) = Done (g, h) ->
  goal_flag (start g) = false /\
  forall p n, p <> [] -> get_state p (start g) = Some n ->
    goal_flag n = holds (jugs n) target.
Proof.
  intros (_ & Hroot & _ & Hflags & _)%graph_it_flags_right. split; [done|].
  intros [|i p] n Hne Hn; [done|].
  apply get_state_nodes_tail in Hn. unfold flags_right in Hflags.
  rewrite Forall_forall in Hflags. by apply (Hflags _ Hn).
Qed.

Lemma flags_mark_the_target_witness :
  exists g h,
    graph_it 9 (new_graph [3; 5] 4) = Done (g, h) /\
    goal_flag (start g) = false /\
    forall p n, p <> [] -> get_state p (start g) = Some n ->
      goal_flag n = holds (jugs n) 4.
Proof.
  eexists _, _. split; [vm_compute; reflexivity|].
  eapply (flags_mark_the_target 9 (Jug.init <$> [3; 5]) 4).
  vm_compute; reflexivity.
Defined.

(** ** Exhaustion *)

Lemma stable_all_jugs s s' js :
  stable s s' -> js ∈ all_jugs (root s) -> js ∈ all_jugs (root s').
Proof.
  intros Hst (x & -> & Hx)%list_elem_of_fmap.
  destruct (nodes_get_state _ _ Hx) as (p & n & Hp & ->).
  destruct (Hst _ _ Hp) as (n' & Hp' & <- & _). by eapply get_state_all_jugs.
Qed.

Lemma stable_target_met target s s' :
  stable s s' -> target_met target (root s) -> target_met target (root s').
Proof. intros Hst (js & Hjs & Hh). exists js. split; [by eapply stable_all_jugs|done]. Qed.

Lemma stable_expanded s s' js :
  stable s s' -> expanded (root s) js -> expanded (root s') js.
Proof. intros Hst Hjs js' Hmove. eapply stable_all_jugs; [done|]. by apply Hjs. Qed.

Lemma move_move_from js js' :
  move js js' <-> exists i, (i < length js)%nat /\ move_from i js js'.
Proof.
  split.
  - destruct 1 as [i Hi|i Hi|i k Hi Hk Hik]; exists i; split; try done;
      by constructor.
  - intros (i & Hi & Hfrom). destruct Hfrom; by constructor.
Qed.

(** One candidate: the tree stays well formed and afterwards holds the
    candidate, which holds the target when [GoalFound] was raised. *)
Lemma consider_step target caps s0 p cs cand s :
  well_formed caps (root s) -> stable s0 s ->
  get_state p (root s0) = Some cs -> move (jugs cs) cand ->
  ctl_post (fun s' => well_formed caps (root s') /\ stable s0 s' /\
                      stable s s' /\ cand ∈ all_jugs (root s'))
           (fun s' => target_met target (root s'))
           (consider target p (JugsState_init cand) s).
Proof.
  intros Hwf Hst Hp0 Hmove.
  destruct (Hst _ _ Hp0) as (cs' & Hp & Hjugs & _).
  rewrite <-Hjugs in Hmove.
  pose proof (consider_well_formed target caps p cs' cand s Hwf Hp Hmove) as H1.
  pose proof (consider_stable target p (JugsState_init cand) s) as H2.
  assert (Jug.capacity <$> cand = caps) as Hc.
  { destruct Hwf as [Hall _]. rewrite Forall_forall in Hall.
    rewrite (move_capacity _ _ Hmove). apply Hall. by eapply get_state_all_jugs. }
  assert (ctl_post (fun s' => cand ∈ all_jugs (root s'))
                   (fun s' => target_met target (root s'))
                   (consider target p (JugsState_init cand) s)) as H3.
  { rewrite consider_eq. unfold JugsState_init.
    rewrite (state_exists_well_formed caps) by done.
    case_bool_decide as Hin;
      destruct (has_fill_amount _ target) eqn:Hhas; simpl.
    - by exists cand.
    - done.
    - exists cand. split; [|done].
      rewrite all_jugs_update_add by eauto. set_solver.
    - rewrite all_jugs_update_add by eauto. set_solver. }
  destruct (consider target p (JugsState_init cand) s) as [s'|s'|]; simpl in *;
    [|done..].
  split; [done|]. split; [by eapply stable_trans|done].
Qed.

Lemma expand_exhausts target caps p s cs :
  well_formed caps (root s) -> get_state p (root s) = Some cs ->
  ctl_post (fun s1 => well_formed caps (root s1) /\ stable s s1 /\
                      expanded (root s1) (jugs cs))
           (fun s1 => target_met target (root s1))
           (expand target p s).
Proof.
  intros Hwf Hp. unfold expand. rewrite Hp.
  eapply (ctl_post_mono
            (candidates_in caps s (jugs cs) (0 + length (jugs cs))) _
            (fun s1 => target_met target (root s1))); [|done|].
  { intros s1 (Hwf1 & Hst1 & Hall). split; [done|]. split; [done|].
    intros js' (i & Hi & Hfrom)%move_move_from. by apply (Hall i). }
  apply for_each_seq_post.
  { split; [done|]. split; [apply stable_refl|]. intros; lia. }
  intros i s1 Hi (Hwf1 & Hst1 & Hdone). unfold expand_jug.
  assert (i < length (jugs cs))%nat as Hi' by lia.
  pose proof (consider_step target caps s p cs _ s1 Hwf1 Hst1 Hp
                (move_fill (jugs cs) i Hi')) as Hfill.
  destruct (consider _ _ (JugsState_init (alter Jug.fill_to_full _ _)) _)
    as [s2| |]; try done.
  destruct Hfill as (Hwf2 & Hst2 & H12 & Hfill).
  pose proof (consider_step target caps s p cs _ s2 Hwf2 Hst2 Hp
                (move_empty (jugs cs) i Hi')) as Hempty.
  destruct (consider _ _ (JugsState_init (alter Jug.empty _ _)) _)
    as [s3| |]; try done.
  destruct Hempty as (Hwf3 & Hst3 & H23 & Hempty).
  eapply (ctl_post_mono
            (pours_in caps s (jugs cs) i (0 + length (jugs cs))) _
            (fun s1 => target_met target (root s1))); [|done|].
  { intros s4 (Hwf4 & Hst4 & Hbefore & Hf & He & Hpours).
    split; [done|]. split; [done|]. intros i' js' Hlt Hfrom.
    destruct (decide (i' = i)) as [->|Hne]; [|apply (Hbefore i'); [lia|done]].
    destruct Hfrom; [done|done|by apply Hpours]. }
  apply for_each_seq_post.
  { split; [done|]. split; [done|]. split.
    - intros i' js' Hlt Hfrom.
      eapply stable_all_jugs; [exact H23|]. eapply stable_all_jugs; [exact H12|].
      by apply (Hdone i').
    - split; [by eapply stable_all_jugs|]. split; [done|intros; lia]. }
  intros k s4 Hk (Hwf4 & Hst4 & Hbefore & Hf & He & Hpours).
  case_decide as Hik.
  { subst k. simpl. split; [done|]. split; [done|]. split; [done|].
    split; [done|]. split; [done|]. intros k Hk' Hne. apply Hpours; [lia|done]. }
  assert (k < length (jugs cs))%nat as Hk' by lia.
  pose proof (consider_step target caps s p cs _ s4 Hwf4 Hst4 Hp
                (move_transfer (jugs cs) i k Hi' Hk' Hik)) as Hpour.
  destruct (consider _ _ _ s4) as [s5| |]; try done. simpl in *.
  destruct Hpour as (Hwf5 & Hst5 & H45 & Hpour).
  split; [done|]. split; [done|]. split.
  { intros i' js' Hlt Hfrom. eapply stable_all_jugs; [exact H45|]. by apply (Hbefore i'). }
  split; [by eapply stable_all_jugs|]. split; [by eapply stable_all_jugs|].
  intros k' Hlt Hne. destruct (decide (k' = k)) as [->|Hkk]; [done|].
  eapply stable_all_jugs; [exact H45|]. apply Hpours; [lia|done].
Qed.

Lemma consider_flagged_hold target p cs cand s :
  flagged_hold target (root s) -> get_state p (root s) = Some cs ->
  ctl_sat (fun s' => flagged_hold target (root s')) (fun _ => True)
          (consider target p (JugsState_init cand) s).
Proof.
  intros Hs Hp. rewrite consider_eq.
  destruct (state_exists (root s) (JugsState_init cand)) as [[]|]; [| |done];
    destruct (has_fill_amount (JugsState_init cand) target) eqn:Hhas; simpl;
    try done; unfold flagged_hold;
    rewrite nodes_update_add by eauto;
    (apply Forall_app; split; [done|]); by repeat constructor.
Qed.

Lemma consider_kept target caps p cs cand s :
  well_formed caps (root s) /\ flagged_hold target (root s) ->
  get_state p (root s) = Some cs -> move (jugs cs) cand ->
  ctl_sat (fun s' => well_formed caps (root s') /\ flagged_hold target (root s'))
          (fun _ => True)
          (consider target p (JugsState_init cand) s).
Proof.
  intros [Hwf Hfl] Hp Hmove. apply ctl_sat_and.
  - eapply ctl_sat_mono; [| |by eapply consider_well_formed]; done.
  - by eapply consider_flagged_hold.
Qed.

Lemma expand_kept target caps p s :
  well_formed caps (root s) /\ flagged_hold target (root s) -> valid p s ->
  ctl_sat (fun s' => (well_formed caps (root s') /\ flagged_hold target (root s'))
                     /\ stable s s')
          (fun _ => True) (expand target p s).
Proof.
  apply (expand_sat target
           (fun s => well_formed caps (root s) /\ flagged_hold target (root s))
           (fun _ => True)).
  intros; by eapply consider_kept.
Qed.

Lemma graph_it_helper_kept target caps fuel p s :
  well_formed caps (root s) /\ flagged_hold target (root s) -> valid p s ->
  result_sat (fun s' => (well_formed caps (root s') /\ flagged_hold target (root s'))
                        /\ stable s s')
             (fun _ => True) (graph_it_helper fuel target p s).
Proof.
  intros Hs Hp.
  apply (graph_it_helper_sat target
           (fun s => well_formed caps (root s) /\ flagged_hold target (root s))
           (fun _ => True) (fun _ _ => True)); try done.
  intros; by eapply consider_kept.
Qed.

(** A call of [_helper] makes no address valid outside the subtree it was
    called on. *)
Lemma helper_outside_valid target fuel q s s' r :
  graph_it_helper fuel target q s = Done s' -> valid q s ->
  ~ q `prefix_of` r -> valid r s' -> valid r s.
Proof.
  intros Hrun Hq. induction r as [|k r IH] using rev_ind; intros Hout Hr.
  - apply valid_root.
  - destruct Hr as [n' Hr].
    destruct (get_state_snoc_inv _ _ _ _ Hr) as (c' & Hc' & Hk).
    assert (~ q `prefix_of` r) as Hout'.
    { intros Hpre. apply Hout. etrans; [done|]. by apply prefix_app_r. }
    destruct (IH Hout' (ex_intro _ _ Hc')) as [c Hc].
    destruct (helper_leaves_outside_alone _ _ _ _ _ _ _ Hrun Hq Hout' Hc)
      as (c2 & Hc2 & Hlen).
    assert (c2 = c') as -> by congruence.
    apply lookup_lt_Some in Hk. rewrite Hlen in Hk.
    destruct (lookup_lt_is_Some_2 _ _ Hk) as [ch Hch].
    exists ch. by eapply get_state_snoc.
Qed.

Lemma expanded_below_outside target fuel q s s' r :
  graph_it_helper fuel target q s = Done s' -> valid q s -> stable s s' ->
  (forall r', r `prefix_of` r' -> ~ q `prefix_of` r') ->
  expanded_below r (root s) -> expanded_below r (root s').
Proof.
  intros Hrun Hq Hst Hout Hr r' n' Hpre Hn'.
  destruct (helper_outside_valid _ _ _ _ _ r' Hrun Hq (Hout _ Hpre) (ex_intro _ _ Hn'))
    as [n Hn].
  destruct (Hst _ _ Hn) as (n2 & Hn2 & Hjugs & _).
  assert (n2 = n') as -> by congruence. rewrite Hjugs.
  eapply stable_expanded; [done|]. by eapply Hr.
Qed.

Lemma graph_it_helper_exhausts target caps fuel : forall p s s',
  graph_it_helper fuel target p s = Done s' ->
  well_formed caps (root s) /\ flagged_hold target (root s) -> valid p s ->
  target_met target (root s') \/ expanded_below p (root s').
Proof.
  induction fuel as [|fuel IH]; intros p s s' Hrun Hs Hp; [done|].
  simpl in Hrun. unfold try_block in Hrun.
  pose proof (expand_kept target caps p s Hs Hp) as Hkept.
  destruct Hp as [cs Hp].
  pose proof (expand_exhausts target caps p s cs (proj1 Hs) Hp) as Hexp.
  destruct (expand target p s) as [s1|s1|]; simpl in *; [| |done].
  2:{ injection Hrun as <-. by left. }
  destruct Hkept as [Hs1 Hst1]. destruct Hexp as (_ & _ & Hcs).
  destruct (Hst1 _ _ Hp) as (cs1 & Hp1 & Hjugs1 & _).
  assert (ctl_post (children_done caps target p (length (next_states cs1)) s1
                      (0 + length (next_states cs1)))
                   (fun s2 => target_met target (root s2))
                   (descend (graph_it_helper fuel target) p s1)) as Hloop.
  { unfold descend. rewrite Hp1. apply for_each_seq_post.
    { split; [done|]. split; [apply stable_refl|]. split; [eauto|].
      right. intros; lia. }
    intros x s2 Hx (Hs2 & Hst2 & (c2 & Hc2 & Hlen2) & Hdone).
    destruct (get_state (p ++ [x]) (root s2)) as [child|] eqn:Hchild; [|done].
    destruct (goal_flag child) eqn:Hflag; simpl.
    { exists (jugs child). split; [by eapply get_state_all_jugs|].
      destruct Hs2 as [_ Hfl]. unfold flagged_hold in Hfl.
      rewrite Forall_forall in Hfl.
      apply (Hfl (jugs child, goal_flag child)); [by eapply get_state_nodes|done]. }
    pose proof (graph_it_helper_kept target caps fuel (p ++ [x]) s2 Hs2
                  (ex_intro _ _ Hchild)) as Hkept.
    destruct (graph_it_helper fuel target (p ++ [x]) s2) as [s3|] eqn:Hcall;
      simpl in *; [|done].
    destruct Hkept as [Hs3 Hst3].
    split; [done|]. split; [by eapply stable_trans|]. split.
    { destruct (helper_keeps_siblings _ _ _ _ _ _ _ Hcall (ex_intro _ _ Hchild) Hc2)
        as (c3 & Hc3 & Hlen3).
      exists c3. split; [done|congruence]. }
    destruct Hdone as [Hmet|Hdone]; [left; by eapply stable_target_met|].
    destruct (IH _ _ _ Hcall Hs2 (ex_intro _ _ Hchild)) as [Hmet|Hnew]; [by left|].
    right. intros idx Hidx. destruct (decide (idx = x)) as [->|Hne]; [done|].
    eapply expanded_below_outside; [exact Hcall|by eexists|done| |apply Hdone; lia].
    intros r' Hpre1 Hpre2.
    by destruct (apart_branches p idx x r' r' Hne Hpre1 Hpre2) as [Hcontra _]. }
  assert (children_done caps target p (length (next_states cs1)) s1
            (length (next_states cs1)) s' \/ target_met target (root s'))
    as Hend.
  { destruct (descend _ p s1) as [s2|s2|]; simpl in *; [| |done];
      injection Hrun as <-; [by left|by right]. }
  destruct Hend as [(_ & Hst' & (c' & Hc' & Hlen') & Hdone)|Hmet]; [|by left].
  destruct Hdone as [Hmet|Hdone]; [by left|]. right.
  intros q n [k ->] Hq. destruct k as [|idx k].
  - rewrite app_nil_r in Hq. assert (n = c') as -> by congruence.
    destruct (Hst' _ _ Hp1) as (c2 & Hc2 & Hjugs2 & _).
    assert (c2 = c') as -> by congruence.
    rewrite Hjugs2, Hjugs1. by eapply stable_expanded.
  - assert (is_Some (get_state (p ++ [idx]) (root s'))) as [ch Hch].
    { rewrite (get_state_app p (idx :: k)), Hc' in Hq. simpl in Hq.
      rewrite (get_state_app p [idx]), Hc'. simpl.
      destruct (next_states c' !! idx); [eauto|done]. }
    destruct (get_state_snoc_inv _ _ _ _ Hch) as (c2 & Hc2 & Hidx).
    assert (c2 = c') as -> by congruence.
    apply lookup_lt_Some in Hidx.
    eapply (Hdone idx); [lia| |exact Hq].
    exists k. by rewrite <-app_assoc.
Qed.

Lemma well_formed_one js : well_formed (Jug.capacity <$> js) (JugsState_init js).
Proof.
  split; unfold all_jugs; simpl; [by repeat constructor|apply NoDup_singleton].
Qed.

Lemma graph_it_sound fuel js target g h js' :
  graph_it fuel (JugsGraph_init js target) = Done (g, h) ->
  js' ∈ all_jugs (start g) -> reachable js js'.
Proof.
  intros (_ & _ & Hjs & _ & Hedges)%graph_it_flags_right Hin.
  apply list_elem_of_fmap in Hin as (x & -> & Hx).
  destruct (nodes_get_state _ _ Hx) as (p & n & Hp & ->). simpl.
  pose proof (chain_along p _ _ Hedges Hp) as Hchain.
  pose proof (states_along_last _ _ _ Hp) as Hlast.
  destruct (states_along_cons (start g) p) as [rest Hrest].
  rewrite Hrest in *. rewrite fmap_cons, Hjs in Hchain.
  apply (chain_reachable js (jugs <$> rest)); [done|].
  rewrite <-Hjs, <-fmap_cons, fmap_last, Hlast. done.
Qed.

Lemma graph_it_complete fuel js target g h :
  graph_it fuel (JugsGraph_init js target) = Done (g, h) ->
  target_met target (start g) \/
  forall js', reachable js js' -> js' ∈ all_jugs (start g).
Proof.
  intros Hrun.
  destruct (graph_it_flags_right _ _ _ _ _ Hrun) as (_ & _ & Hjs & _).
  apply graph_it_inv in Hrun as (s' & Hrun & -> & _). simpl in *.
  destruct (graph_it_helper_exhausts target (Jug.capacity <$> js) fuel [] _ _ Hrun)
    as [Hmet|Hall]; [| |by left|].
  - split; [apply well_formed_one|]. by repeat constructor.
  - apply valid_root.
  - right. intros js' Hreach. induction Hreach as [|js1 js2 _ IH Hmove].
    + rewrite <-Hjs, all_jugs_eq. by left.
    + apply list_elem_of_fmap in IH as (x & -> & Hx).
      destruct (nodes_get_state _ _ Hx) as (p & n & Hp & ->).
      eapply (Hall p n); [apply prefix_nil|done|done].
Qed.

(** X11: the graph built from given jugs holds only configurations that
    moves produce from those jugs, and holds all of them unless one of its
    states holds the target: short of a goal the expansion is exhaustive. *)
Theorem graph_it_explores_what_is_reachable fuel js target g h :
  graph_it fuel (JugsGraph_init js target) = Done (g, h) ->
  (forall js', js' ∈ all_jugs (start g) -> reachable js js') /\
  ((forall js', js' ∈ all_jugs (start g) -> holds js' target = false) ->
   forall js', reachable js js' -> js' ∈ all_jugs (start g)).
Proof.
  intros Hrun. split.
  - intros js'. by eapply graph_it_sound.
  - intros Hnone. destruct (graph_it_complete _ _ _ _ _ Hrun) as [Hmet|Hall]; [|done].
    destruct Hmet as (js0 & Hin & Hholds). rewrite (Hnone _ Hin) in Hholds. done.
Qed.

Lemma graph_it_explores_what_is_reachable_witness :
  exists g h,
    graph_it 2 (new_graph [7] 4) = Done (g, h) /\
    (forall js', js' ∈ all_jugs (start g) -> reachable (Jug.init <$> [7]) js') /\
    ((forall js', js' ∈ all_jugs (start g) -> holds js' 4 = false) ->
     forall js', reachable (Jug.init <$> [7]) js' -> js' ∈ all_jugs (start g)).
Proof.
  eexists _, _. split; [vm_compute; reflexivity|].
  eapply (graph_it_explores_what_is_reachable 2 (Jug.init <$> [7]) 4).
  vm_compute; reflexivity.
Defined.

Lemma print_no_solution self :
  graphed self = true ->
  (print_solutions self = ([NoSolutionLine], None) <-> unflagged (start self)).
Proof.
  intros Hg. rewrite (print_solutions_eq _ Hg). cbn zeta.
  rewrite <-(goal_addresses_nil _ []). unfold goal_paths.
  destruct (goal_addresses [] (start self)) as [|p ps]; [done|].
  rewrite fmap_cons. simpl. split; [|done].
  destruct (snd (shortest _)); [|done].
  unfold solution_blocks, solution_block. simpl. by intros [=].
Qed.

Lemma unflagged_iff_none_holds target g :
  goal_flag g = false -> holds (jugs g) target = false -> flags_right target g ->
  (unflagged g <-> forall js', js' ∈ all_jugs g -> holds js' target = false).
Proof.
  intros Hroot Hjs Hflags. unfold unflagged, flags_right in *.
  rewrite (nodes_eq g) in Hflags |- *. unfold all_jugs. rewrite (nodes_eq g).
  simpl in *. rewrite Forall_forall in Hflags. split.
  - intros Hun js' [->|Hin]%elem_of_cons; [done|].
    apply list_elem_of_fmap in Hin as (x & -> & Hx).
    rewrite <-(Hflags _ Hx). rewrite Forall_forall in Hun. apply Hun. by right.
  - intros Hnone. apply Forall_forall. intros x [->|Hx]%elem_of_cons; [done|].
    rewrite (Hflags _ Hx). apply Hnone. right. apply list_elem_of_fmap. by exists x.
Qed.

(** X12: when the jugs the graph is built from do not hold the target
    already, [print_solutions] prints that there is no solution exactly when
    no sequence of moves from those jugs leads to a configuration with the
    target in one of the jugs. *)
Theorem no_solution_means_unreachable fuel js target g h :
  graph_it fuel (JugsGraph_init js target) = Done (g, h) ->
  holds js target = false ->
  (print_solutions g = ([NoSolutionLine], None) <->
   forall js', reachable js js' -> holds js' target = false).
Proof.
  intros Hrun Hjs.
  destruct (graph_it_flags_right _ _ _ _ _ Hrun) as (_ & Hroot & Hjugs & Hflags & _).
  assert (graphed g = true) as Hg.
  { by apply graph_it_inv in Hrun as (s' & _ & -> & _). }
  rewrite (print_no_solution _ Hg).
  rewrite (unflagged_iff_none_holds target) by (done || by rewrite Hjugs).
  split.
  - intros Hnone js' Hreach.
    destruct (graph_it_complete _ _ _ _ _ Hrun) as [Hmet|Hall].
    + destruct Hmet as (js0 & Hin & Hholds). by rewrite (Hnone _ Hin) in Hholds.
    + by apply Hnone, Hall.
  - intros Hnone js' Hin. apply Hnone. by eapply graph_it_sound.
Qed.

Lemma no_solution_means_unreachable_witness :
  exists g h,
    graph_it 2 (new_graph [7] 4) = Done (g, h) /\
    (print_solutions g = ([NoSolutionLine], None) <->
     forall js', reachable (Jug.init <$> [7]) js' -> holds js' 4 = false).
Proof.
  eexists _, _. split; [vm_compute; reflexivity|].
  eapply (no_solution_means_unreachable 2 (Jug.init <$> [7]) 4).
  - vm_compute; reflexivity.
  - reflexivity.
Defined.

(** ** Flagged states are never expanded *)

(** The proof rule again, for invariants that need to know that the state
    being expanded is not flagged: [_helper] is only called on the root and
    on children whose flag it has tested. *)
Section rule_unflagged.
Variable goal : Z.
Variable I : store -> Prop.
Variable Q : failure -> Prop.
Variable F : nat -> path -> Prop.

Hypothesis consider_sat : forall p cs cand s,
  I s -> get_state p (root s) = Some cs -> goal_flag cs = false ->
  move (jugs cs) cand ->
  ctl_sat I Q (consider goal p (JugsState_init cand) s).
Hypothesis fuel_step : forall fuel p i, F (S fuel) p -> F fuel (p ++ [i]).
Hypothesis fuel_out : forall p s, I s -> valid p s -> F 0%nat p -> Q OutOfFuel.



End rule_unflagged.









(** ** The printed forms *)

Lemma occurrences_app c s t :
  occurrences c (s +:+ t) = (occurrences c s + occurrences c t)%nat.
Proof.
  induction s as [|a s IH]; simpl; [done|]. rewrite IH. lia.
Qed.

Lemma occurrences_none c a s :
  occurrences c s = 0%nat -> In a (String.list_ascii_of_string s) ->
  Ascii.eqb a c = false.
Proof.
  induction s as [|b s IH]; cbn [occurrences String.list_ascii_of_string In]; [done|].
  intros Hc [->|Ha].
  - destruct (Ascii.eqb a c); [lia|done].
  - apply IH; [lia|done].
Qed.

Lemma pretty_N_char_digit n :
  In (pretty_N_char n) (String.list_ascii_of_string "0123456789").
Proof. unfold pretty_N_char. repeat case_match; simpl; tauto. Qed.

Lemma occurrences_digits c x : forall s,
  occurrences c "0123456789" = 0%nat ->
  occurrences c (pretty_N_go x s) = occurrences c s.
Proof.
  induction (N.lt_wf_0 x) as [x _ IH]. intros s Hc.
  destruct (decide (x = 0)%N) as [->|Hx]; [by rewrite pretty_N_go_0|].
  rewrite pretty_N_go_step by lia. rewrite IH; [|apply N.div_lt; lia|done].
  cbn [occurrences].
  by rewrite (occurrences_none c _ "0123456789" Hc (pretty_N_char_digit _)).
Qed.

Lemma occurrences_pretty_Z c (z : Z) :
  occurrences c "0123456789-" = 0%nat -> occurrences c (pretty z) = 0%nat.
Proof.
  intros Hc.
  assert (occurrences c "0123456789" = 0%nat /\ occurrences c "-" = 0%nat) as [Hd Hm].
  { change "0123456789-"%string with ("0123456789" +:+ "-") in Hc.
    rewrite occurrences_app in Hc. lia. }
  assert (occurrences c "0" = 0%nat) as H0.
  { change "0123456789"%string with ("0" +:+ "123456789") in Hd.
    rewrite occurrences_app in Hd. lia. }
  assert (forall n : N, occurrences c (pretty n) = 0%nat) as HN.
  { intros n. unfold pretty, pretty_N. case_decide; [done|].
    by rewrite occurrences_digits. }
  destruct z as [|p|p].
  - exact H0.
  - apply (HN (N.pos p)).
  - change (pretty (Z.neg p)) with ("-" +:+ pretty (N.pos p)).
    rewrite occurrences_app, HN. lia.
Qed.

Lemma occurrences_Jug_repr c j :
  occurrences c "0123456789-Jug: /" = 0%nat -> occurrences c (Jug_repr j) = 0%nat.
Proof.
  intros Hc.
  change "0123456789-Jug: /"%string with ("0123456789-" +:+ "Jug: " +:+ "/") in Hc.
  rewrite !occurrences_app in Hc. unfold Jug_repr.
  rewrite !occurrences_app, !occurrences_pretty_Z by lia. lia.
Qed.

Lemma occurrences_str_jugs c js :
  occurrences c "0123456789-Jug: /[, ]" = 0%nat ->
  occurrences c (str_jugs js) = 0%nat.
Proof.
  intros Hc.
  change "0123456789-Jug: /[, ]"%string
    with ("0123456789-Jug: /" +:+ "[" +:+ ", " +:+ "]") in Hc.
  rewrite !occurrences_app in Hc. unfold str_jugs.
  rewrite !occurrences_app.
  assert (occurrences c (String.concat ", " (Jug_repr <$> js)) = 0%nat) as ->; [|lia].
  induction js as [|j js IH]; [done|]. rewrite fmap_cons.
  pose proof (occurrences_Jug_repr c j ltac:(lia)) as Hj.
  destruct js as [|j' js]; [done|].
  change (String.concat ", " (Jug_repr j :: (Jug_repr <$> (j' :: js))))
    with (Jug_repr j +:+ ", " +:+ String.concat ", " (Jug_repr <$> (j' :: js))).
  rewrite !occurrences_app, IH. lia.
Qed.

Lemma occurrences_concat c (f : JugsState -> string) (w : JugsState -> nat) l :
  Forall (fun s => occurrences c (f s) = w s) l ->
  occurrences c (String.concat "" (map f l)) = list_sum (map w l).
Proof.
  induction 1 as [|s l Hs _ IH]; [done|].
  destruct l as [|s' l].
  - simpl. rewrite Hs. lia.
  - change (String.concat "" (map f (s :: s' :: l)))
      with (f s +:+ "" +:+ String.concat "" (map f (s' :: l))).
    rewrite !occurrences_app, Hs, IH. simpl. lia.
Qed.

Lemma list_sum_nodes (w : list Jug.t * bool -> nat) l :
  list_sum (map (fun s => list_sum (map w (nodes s))) l) =
  list_sum (map w (flat_map nodes l)).
Proof.
  induction l as [|s l IH]; [done|]. simpl.
  rewrite map_app, list_sum_app. lia.
Qed.

Lemma repr_state_eq prefix s :
  repr_state prefix s =
  prefix +:+ str_jugs (jugs s)
    +:+ (if goal_flag s then " <----" else "")
    +:+ newline
    +:+ String.concat "" (map (repr_state ("-" +:+ prefix)) (next_states s)).
Proof. by destruct s. Qed.

(** What the text of a state and of all below it holds of a character that
    is neither in the prefix nor in the printed form of jugs. *)
Lemma occurrences_repr_state c s : forall prefix,
  occurrences c "0123456789-Jug: /[, ]" = 0%nat ->
  occurrences c prefix = 0%nat ->
  occurrences c (repr_state prefix s) =
  list_sum (map (fun n : list Jug.t * bool => (occurrences c (if n.2 then " <----" else "")
                           + occurrences c newline)%nat) (nodes s)).
Proof.
  induction s as [js cs fl IH] using JugsState_tree_ind. intros prefix Hc Hp.
  rewrite repr_state_eq, nodes_eq. cbn [jugs goal_flag next_states].
  rewrite !occurrences_app, Hp, occurrences_str_jugs by done.
  rewrite (occurrences_concat c _
             (fun s => list_sum (map (fun n : list Jug.t * bool =>
                (occurrences c (if n.2 then " <----" else "")
                 + occurrences c newline)%nat) (nodes s)))).
  - rewrite list_sum_nodes. unfold list_sum. cbn [map fold_right snd]. lia.
  - eapply Forall_impl; [exact IH|]. intros s Hs. apply Hs; [done|].
    rewrite occurrences_app, Hp.
    change "0123456789-Jug: /[, ]"%string
      with ("0123456789" +:+ "-" +:+ "Jug: /[, ]") in Hc.
    rewrite !occurrences_app in Hc. lia.
Qed.

(** X14: the text that [__repr__] gives of a graph has one line break for
    each state of the graph and one [<] for each flagged state. *)
Theorem repr_has_a_line_for_each_state (self : JugsGraph) :
  occurrences "010"%char (JugsGraph_repr self) = node_count (start self) /\
  occurrences "<"%char (JugsGraph_repr self) =
    length (List.filter snd (nodes (start self))).
Proof.
  assert (forall c,
            occurrences c "0123456789-Jug: /[, ]" = 0%nat ->
            occurrences c (JugsGraph_repr self) =
            list_sum (map (fun n : list Jug.t * bool =>
                             (occurrences c (if n.2 then " <----" else "")
                              + occurrences c newline)%nat)
                          (nodes (start self)))) as Hgen.
  { intros c Hc. unfold JugsGraph_repr, repr_helper.
    rewrite !occurrences_app, occurrences_str_jugs by done.
    rewrite (occurrences_concat c _
               (fun s => list_sum (map (fun n : list Jug.t * bool =>
                  (occurrences c (if n.2 then " <----" else "")
                   + occurrences c newline)%nat) (nodes s)))).
    - rewrite list_sum_nodes, (nodes_eq (start self)).
      unfold list_sum. cbn [map fold_right snd]. lia.
    - apply Forall_forall. intros s _. apply occurrences_repr_state; [done|].
      change "0123456789-Jug: /[, ]"%string
        with ("0123456789" +:+ "-" +:+ "Jug: /[, ]") in Hc.
      rewrite !occurrences_app in Hc. lia. }
  rewrite (Hgen "010"%char), (Hgen "<"%char) by reflexivity. clear Hgen.
  unfold node_count.
  induction (nodes (start self)) as [|[js []] l [IHn IHm]]; simpl in *; lia.
Qed.

Lemma append_assoc s t u : (s +:+ t) +:+ u = s +:+ t +:+ u.
Proof.
  induction s as [|a s IH]; [done|].
  change (String a ((s +:+ t) +:+ u) = String a (s +:+ t +:+ u)).
  by rewrite IH.
Qed.

Lemma occurrences_here c s : occurrences c (String c s) <> 0%nat.
Proof. cbn [occurrences]. rewrite Ascii.eqb_refl. lia. Qed.

(** A text is cut in one way only at the first occurrence of a character. *)
Lemma append_split c a1 : forall a2 r1 r2,
  occurrences c a1 = 0%nat -> occurrences c a2 = 0%nat ->
  a1 +:+ String c r1 = a2 +:+ String c r2 -> a1 = a2 /\ r1 = r2.
Proof.
  induction a1 as [|x a1 IH]; intros [|y a2] r1 r2 H1 H2 Heq.
  - by injection Heq as ->.
  - injection Heq as -> _. by apply occurrences_here in H2.
  - injection Heq as -> _. by apply occurrences_here in H1.
  - injection Heq as -> Heq.
    cbn [occurrences] in H1, H2.
    destruct (IH a2 r1 r2) as [-> ->]; [lia|lia|done|done].
Qed.

Lemma Jug_repr_inj j1 j2 : Jug_repr j1 = Jug_repr j2 -> j1 = j2.
Proof.
  unfold Jug_repr. intros Heq. apply (inj (String.append "Jug: ")) in Heq.
  apply (append_split "/"%char) in Heq as [Ha Hc];
    [|by apply occurrences_pretty_Z..].
  apply (inj pretty) in Ha. apply (inj pretty) in Hc.
  destruct j1, j2; simpl in *; congruence.
Qed.

Lemma list_repr_inj l1 : forall l2,
  String.concat ", " (Jug_repr <$> l1) +:+ "]" =
  String.concat ", " (Jug_repr <$> l2) +:+ "]" -> l1 = l2.
Proof.
  assert (forall j l, exists r,
            String.concat ", " (Jug_repr <$> (j :: l)) +:+ "]" = String "J" r)
    as Hhead.
  { intros j [|j' l]; eexists; rewrite ?fmap_cons; reflexivity. }
  assert (forall j j' l,
            String.concat ", " (Jug_repr <$> (j :: j' :: l)) +:+ "]" =
            Jug_repr j +:+ String ","
              (String " " (String.concat ", " (Jug_repr <$> (j' :: l)) +:+ "]")))
    as Hcons.
  { intros j j' l. rewrite !fmap_cons.
    change (String.concat ", " (Jug_repr j :: Jug_repr j' :: (Jug_repr <$> l)))
      with (Jug_repr j +:+ ", " +:+
            String.concat ", " (Jug_repr j' :: (Jug_repr <$> l))).
    by rewrite !append_assoc. }
  assert (forall j, occurrences "," (Jug_repr j) = 0%nat) as Hcomma.
  { intros j. by apply occurrences_Jug_repr. }
  assert (forall j, occurrences "]" (Jug_repr j) = 0%nat) as Hclose.
  { intros j. by apply occurrences_Jug_repr. }
  induction l1 as [|j1 l1 IH]; intros [|j2 l2] Heq; [done|..].
  - destruct (Hhead j2 l2) as [r Hr]. rewrite Hr in Heq. discriminate.
  - destruct (Hhead j1 l1) as [r Hr]. rewrite Hr in Heq. discriminate.
  - destruct l1 as [|j1' l1], l2 as [|j2' l2].
    + cbn [fmap list_fmap String.concat] in Heq.
      apply (append_split "]"%char) in Heq as [Heq _]; [|done..].
      by apply Jug_repr_inj in Heq as ->.
    + rewrite Hcons in Heq. apply (f_equal (occurrences ",")) in Heq.
      cbn [fmap list_fmap String.concat] in Heq.
      rewrite !occurrences_app, !Hcomma in Heq.
      change (occurrences "," "]") with 0%nat in Heq.
      match type of Heq with
      | context [occurrences ?c (String ?c ?s)] =>
          pose proof (occurrences_here c s)
      end. lia.
    + rewrite Hcons in Heq. apply (f_equal (occurrences ",")) in Heq.
      cbn [fmap list_fmap String.concat] in Heq.
      rewrite !occurrences_app, !Hcomma in Heq.
      change (occurrences "," "]") with 0%nat in Heq.
      match type of Heq with
      | context [occurrences ?c (String ?c ?s)] =>
          pose proof (occurrences_here c s)
      end. lia.
    + rewrite !Hcons in Heq.
      apply (append_split ","%char) in Heq as [Hj Heq]; [|done..].
      apply Jug_repr_inj in Hj as ->. injection Heq as Heq.
      by rewrite (IH (j2' :: l2) Heq).
Qed.

(** X15: the printed form of a list of jugs names one list of jugs only:
    lists that print alike have the same jugs, amounts and capacities, in
    the same order. *)
Theorem str_jugs_tells_the_jugs (js1 js2 : list Jug.t) :
  str_jugs js1 = str_jugs js2 -> js1 = js2.
Proof.
  unfold str_jugs. intros Heq. apply (inj (String.append "[")) in Heq.
  by apply list_repr_inj.
Qed.

Lemma str_jugs_tells_the_jugs_witness :
  str_jugs [Jug.mk 3 0; Jug.mk 5 4] = "[Jug: 0/3, Jug: 4/5]" /\
  [Jug.mk 3 0; Jug.mk 5 4] = [Jug.mk 3 0; Jug.mk 5 4].
Proof.
  split; [reflexivity|].
  apply (str_jugs_tells_the_jugs [Jug.mk 3 0; Jug.mk 5 4]). reflexivity.
Defined.

Lemma get_state_update_at p f : forall g,
  get_state p (update_at p f g) = f <$> get_state p g.
Proof.
  induction p as [|i p IH]; intros g; [done|]. cbn [get_state update_at next_states].
  rewrite list_lookup_alter, decide_True by done.
  destruct (next_states g !! i) as [ch|]; [|reflexivity].
  apply IH.
Qed.

(** ** Attaching a state *)

(** X16: [add_state] on the object at an address appends: the state handed
    in is the last child of that object, every object that was in the tree
    is still at its address with its jugs, its flag and as many children as
    before (one more at that address), and the tree has grown by what was
    handed in. *)
Theorem add_state_appends (p : path) (c g n : JugsState) :
  get_state p g = Some n ->
  get_state (p ++ [length (next_states n)]) (update_at p (add_state c) g) = Some c /\
  (forall q m, get_state q g = Some m ->
     exists m', get_state q (update_at p (add_state c) g) = Some m' /\
       jugs m' = jugs m /\ goal_flag m' = goal_flag m /\
       length (next_states m') =
         (length (next_states m) + if decide (p = q) then 1 else 0)%nat) /\
  node_count (update_at p (add_state c) g) = (node_count g + node_count c)%nat.
Proof.
  intros Hp. repeat split.
  - rewrite get_state_app, get_state_update_at, Hp.
    cbn [fmap option_fmap option_map mbind option_bind get_state add_state next_states].
    by rewrite lookup_app_r, Nat.sub_diag by done.
  - intros q m Hq.
    destruct (get_state_update_add p c q g m Hq) as (m' & Hm' & Hj & Hf & _).
    destruct (get_state_update_add_children p c q g m Hq) as (m'' & Hm'' & Hlen).
    rewrite Hm' in Hm''. injection Hm'' as <-. by exists m'.
  - unfold node_count. by rewrite nodes_update_add, length_app by eauto.
Qed.

Lemma add_state_appends_witness :
  get_state [0%nat] (mkState [] [mkState [Jug.mk 3 3] [] false] false)
    = Some (mkState [Jug.mk 3 3] [] false) /\
  node_count (update_at [0%nat] (add_state (mkState [Jug.mk 3 0] [] false))
                (mkState [] [mkState [Jug.mk 3 3] [] false] false)) = 3%nat.
Proof.
  split; [reflexivity|].
  apply (add_state_appends [0%nat] (mkState [Jug.mk 3 0] [] false)
           (mkState [] [mkState [Jug.mk 3 3] [] false] false)
           (mkState [Jug.mk 3 3] [] false)).
  reflexivity.
Defined.

(** ** The recursion limit: what a run under a limit is *)

Lemma call_room {A} room (body : nat -> result A) :
  (1 <= room)%nat -> call room body = body (room - 1)%nat.
Proof. destruct room as [|room]; [lia|]. intros _. simpl. by rewrite Nat.sub_0_r. Qed.

Lemma frames_room {A} n room (body : nat -> result A) :
  (n <= room)%nat -> frames n room body = body (room - n)%nat.
Proof. intros Hn. unfold frames. by rewrite (proj2 (Nat.leb_le _ _) Hn). Qed.

Lemma or_overflows_refl {A} (r : result A) : or_overflows r r.
Proof. by right. Qed.

Lemma call_or_overflows {A} room (body : nat -> result A) r0 :
  (forall room', or_overflows (body room') r0) -> or_overflows (call room body) r0.
Proof. intros Hbody. destruct room; [by left|]. apply Hbody. Qed.

Lemma frames_or_overflows {A} n room (body : nat -> result A) r0 :
  (forall room', or_overflows (body room') r0) -> or_overflows (frames n room body) r0.
Proof. intros Hbody. unfold frames. case_match; [apply Hbody|by left]. Qed.

Lemma and_then_or_overflows {A B} (r r0 : result A) (k k0 : A -> result B) :
  or_overflows r r0 -> (forall a, or_overflows (k a) (k0 a)) ->
  or_overflows (and_then r k) (and_then r0 k0).
Proof.
  intros [->| ->] Hk; [by left|]. destruct r0 as [a|e]; simpl; [apply Hk|by right].
Qed.

Lemma comprehension_within_or_overflows {A B} I room
    (f : nat -> A -> result B) (f0 : A -> option B) l :
  (forall room' x, x ∈ l -> or_overflows (f room' x) (raising (f0 x))) ->
  or_overflows (comprehension_within I room f l) (raising (comprehension f0 l)).
Proof.
  intros Hf. unfold comprehension_within. apply frames_or_overflows. intros room'.
  induction l as [|x l IH]; [by right|].
  destruct (Hf room' x (list_elem_of_here _ _)) as [Hx|Hx].
  { left. by rewrite Hx. }
  rewrite Hx. simpl. destruct (f0 x) as [y|]; simpl; [|by right].
  destruct IH as [IH|IH].
  { intros r y' Hy'. apply Hf. by right. }
  - left. by rewrite IH.
  - rewrite IH. destruct (comprehension f0 l); by right.
Qed.

Lemma comprehension_within_room {A B} I room
    (f : nat -> A -> result B) (f0 : A -> option B) l :
  (comprehension_frames I <= room)%nat ->
  (forall x, x ∈ l -> f (room - comprehension_frames I)%nat x = raising (f0 x)) ->
  comprehension_within I room f l = raising (comprehension f0 l).
Proof.
  intros Hroom Hf. unfold comprehension_within. rewrite frames_room by done.
  induction l as [|x l IH]; [done|].
  rewrite (Hf x (list_elem_of_here _ _)). simpl.
  destruct (f0 x) as [y|]; simpl; [|done].
  rewrite IH by (intros y' Hy'; apply Hf; by right).
  by destruct (comprehension f0 l).
Qed.

(** *** The height of a tree *)

Lemma height_eq g :
  height g = foldr Nat.max 0%nat (map (fun c => S (height c)) (next_states g)).
Proof. by destruct g. Qed.

Lemma height_child g c : c ∈ next_states g -> (S (height c) <= height g)%nat.
Proof.
  rewrite (height_eq g). induction (next_states g) as [|x l IH]; [by intros ?%elem_of_nil|].
  intros [->|Hc]%elem_of_cons; simpl; [lia|]. specialize (IH Hc). lia.
Qed.

Lemma height_leaf g : next_states g = [] -> height g = 0%nat.
Proof. intros Hg. by rewrite height_eq, Hg. Qed.

Lemma height_lt_node_count g : (height g < node_count g)%nat.
Proof.
  unfold node_count.
  induction g as [js cs fl IH] using JugsState_tree_ind.
  rewrite height_eq, nodes_eq. cbn [next_states jugs goal_flag length].
  apply Nat.lt_succ_r.
  induction IH as [|c cs Hc _ IHcs]; simpl; [lia|].
  rewrite length_app. lia.
Qed.

(** *** The duplicate check *)

Lemma state_exists_helper_within_eq I state g room :
  state_exists_helper_within I state g room =
  and_then
    (comprehension_within I room
       (fun room s => call room (fun _ => raising (is_same state s)))
       (next_states g))
    (fun these_states =>
       and_then
         (comprehension_within I room
            (fun room s => call room (state_exists_helper_within I state s))
            (next_states g))
         (fun child_states =>
            Done (fold_left orb child_states (fold_left orb these_states false)))).
Proof. by destruct g. Qed.

Lemma state_exists_helper_eq state g :
  state_exists_helper state g =
  match comprehension (is_same state) (next_states g) with
  | None => None
  | Some these_states =>
      match comprehension (state_exists_helper state) (next_states g) with
      | None => None
      | Some child_states =>
          Some (fold_left orb child_states (fold_left orb these_states false))
      end
  end.
Proof. by destruct g. Qed.

Lemma state_exists_helper_or_overflows I state g : forall room,
  or_overflows (state_exists_helper_within I state g room)
               (raising (state_exists_helper state g)).
Proof.
  induction g as [js cs fl IH] using JugsState_tree_ind. intros room.
  rewrite state_exists_helper_within_eq, state_exists_helper_eq.
  cbn [next_states]. rewrite Forall_forall in IH.
  destruct (comprehension_within_or_overflows I room
              (fun room s => call room (fun _ => raising (is_same state s)))
              (is_same state) cs) as [H1|H1].
  { intros. apply call_or_overflows. intros _. by right. }
  { left. by rewrite H1. }
  rewrite H1. destruct (comprehension (is_same state) cs) as [these|]; [|by right].
  cbn [raising and_then].
  destruct (comprehension_within_or_overflows I room
              (fun room s => call room (state_exists_helper_within I state s))
              (state_exists_helper state) cs) as [H2|H2].
  { intros room' c Hc. apply call_or_overflows. intros room''. by apply IH. }
  { left. by rewrite H2. }
  rewrite H2. destruct (comprehension (state_exists_helper state) cs); by right.
Qed.

Lemma state_exists_helper_room I state g : forall room,
  (comprehension_frames I + (1 + comprehension_frames I) * height g <= room)%nat ->
  state_exists_helper_within I state g room = raising (state_exists_helper state g).
Proof.
  induction g as [js cs fl IH] using JugsState_tree_ind. intros room Hroom.
  rewrite state_exists_helper_within_eq, state_exists_helper_eq.
  cbn [next_states]. rewrite Forall_forall in IH.
  assert (forall c, c ∈ cs -> (S (height c) <= height (mkState js cs fl))%nat) as Hh.
  { intros c Hc. by apply height_child. }
  rewrite (comprehension_within_room I room _ (is_same state)); [|lia|]; last first.
  { intros c Hc. specialize (Hh c Hc). by rewrite call_room by lia. }
  destruct (comprehension (is_same state) cs) as [these|]; [|done].
  cbn [raising and_then].
  rewrite (comprehension_within_room I room _ (state_exists_helper state));
    [|lia|]; last first.
  { intros c Hc. specialize (Hh c Hc). rewrite call_room by lia.
    apply IH; [done|]. nia. }
  by destruct (comprehension (state_exists_helper state) cs).
Qed.

Lemma state_exists_or_overflows I room g state :
  or_overflows (state_exists_within I room g state) (raising (state_exists g state)).
Proof.
  unfold state_exists_within, state_exists.
  destruct room as [|room]; [by left|]. cbn [call].
  destruct (is_same state g) as [this|]; [|by right]. cbn [raising and_then].
  destruct (state_exists_helper_or_overflows I state g room) as [H|H].
  { left. by rewrite H. }
  rewrite H. destruct (state_exists_helper state g); by right.
Qed.

Lemma state_exists_room I room g state :
  (state_exists_frames I g <= room)%nat ->
  state_exists_within I room g state = raising (state_exists g state).
Proof.
  unfold state_exists_frames. intros Hroom.
  unfold state_exists_within, state_exists.
  rewrite !call_room by lia.
  destruct (is_same state g) as [this|]; [|done]. cbn [raising and_then].
  rewrite state_exists_helper_room by nia.
  by destruct (state_exists_helper state g).
Qed.

(** *** The candidates *)

Lemma comprehension_id {A} (l : list A) : comprehension Some l = Some l.
Proof. induction l as [|x l IH]; simpl; [done|]. by rewrite IH. Qed.

Lemma JugsState_init_or_overflows I room js :
  or_overflows (JugsState_init_within I room js) (Done (JugsState_init js)).
Proof.
  unfold JugsState_init_within. apply call_or_overflows. intros room'.
  destruct (comprehension_within_or_overflows I room'
              (fun room j => frames (copy_frames I) room (fun _ => Done j))
              Some js) as [H|H].
  { intros. apply frames_or_overflows. intros _. by right. }
  { left. by rewrite H. }
  rewrite H, comprehension_id. by right.
Qed.

Lemma JugsState_init_room I room js :
  (1 + comprehension_frames I + copy_frames I <= room)%nat ->
  JugsState_init_within I room js = Done (JugsState_init js).
Proof.
  intros Hroom. unfold JugsState_init_within. rewrite call_room by lia.
  rewrite (comprehension_within_room I _ _ Some); [by rewrite comprehension_id|lia|].
  intros j _. by rewrite frames_room by lia.
Qed.

Lemma ctl_or_overflows_refl r : ctl_or_overflows r r.
Proof. by right. Qed.

Lemma and_next_or_overflows {A} (r : result A) (a : A) (k : A -> ctl) r0 :
  or_overflows r (Done a) -> ctl_or_overflows (k a) r0 ->
  ctl_or_overflows (and_next r k) r0.
Proof. intros [->| ->] Hk; [by left|done]. Qed.

Lemma consider_or_overflows I room goal p candidate s :
  ctl_or_overflows (consider_within I room goal p candidate s)
                   (consider goal p candidate s).
Proof.
  unfold consider_within, consider.
  destruct room as [|room]; [by left|]. cbn [call].
  destruct (state_exists_or_overflows I room (root s) candidate) as [H|H].
  { left. by rewrite H. }
  rewrite H. destruct (state_exists (root s) candidate) as [exists_|]; [|by right].
  cbn [raising and_next]. right.
  by destruct exists_, (has_fill_amount candidate goal).
Qed.

Lemma consider_room I room goal p candidate s :
  (1 + state_exists_frames I (root s) <= room)%nat ->
  consider_within I room goal p candidate s = consider goal p candidate s.
Proof.
  intros Hroom. unfold consider_within, consider.
  rewrite !call_room by lia. rewrite state_exists_room by lia.
  destruct (state_exists (root s) candidate) as [exists_|]; [|done].
  cbn [raising and_next].
  by destruct exists_, (has_fill_amount candidate goal).
Qed.

Lemma for_each_or_overflows {A} (body body0 : A -> store -> ctl) l :
  (forall x s, x ∈ l -> ctl_or_overflows (body x s) (body0 x s)) ->
  forall s, ctl_or_overflows (for_each body l s) (for_each body0 l s).
Proof.
  induction l as [|x l IH]; intros Hbody s; [by right|]. simpl.
  destruct (Hbody x s (list_elem_of_here _ _)) as [H|H].
  { left. by rewrite H. }
  rewrite H. destruct (body0 x s) as [s1|s1|e]; [|by right..].
  apply IH. intros y s' Hy. apply Hbody. by right.
Qed.

Lemma for_each_agree {A} (P : store -> Prop) Q (body body0 : A -> store -> ctl) l :
  (forall x s, x ∈ l -> P s -> body x s = body0 x s) ->
  (forall x s, x ∈ l -> P s -> ctl_sat P Q (body0 x s)) ->
  forall s, P s -> for_each body l s = for_each body0 l s.
Proof.
  induction l as [|x l IH]; intros Heq Hsat s Hs; [done|]. simpl.
  rewrite (Heq x s (list_elem_of_here _ _) Hs).
  pose proof (Hsat x s (list_elem_of_here _ _) Hs) as Hx.
  destruct (body0 x s) as [s1|s1|e]; [|done..].
  apply IH; [| |done]; intros y s' Hy; [apply Heq|apply Hsat]; by right.
Qed.

Lemma expand_jug_or_overflows I room goal p js i s :
  ctl_or_overflows (expand_jug_within I room goal p js i s) (expand_jug goal p js i s).
Proof.
  unfold expand_jug_within, expand_jug.
  eapply and_next_or_overflows; [apply JugsState_init_or_overflows|].
  eapply and_next_or_overflows.
  { apply call_or_overflows. intros _. apply or_overflows_refl. }
  change (with_jugs (alter Jug.fill_to_full i) (JugsState_init js))
    with (JugsState_init (alter Jug.fill_to_full i js)).
  destruct (consider_or_overflows I room goal p
              (JugsState_init (alter Jug.fill_to_full i js)) s) as [H|H].
  { left. by rewrite H. }
  rewrite H. destruct (consider _ _ _ s) as [s1|s1|e]; [|by right..].
  eapply and_next_or_overflows; [apply JugsState_init_or_overflows|].
  eapply and_next_or_overflows.
  { apply call_or_overflows. intros _. apply or_overflows_refl. }
  change (with_jugs (alter Jug.empty i) (JugsState_init js))
    with (JugsState_init (alter Jug.empty i js)).
  destruct (consider_or_overflows I room goal p
              (JugsState_init (alter Jug.empty i js)) s1) as [H'|H'].
  { left. by rewrite H'. }
  rewrite H'. destruct (consider _ _ _ s1) as [s2|s2|e]; [|by right..].
  apply for_each_or_overflows. intros k s3 _.
  case_decide; [by right|].
  eapply and_next_or_overflows; [apply JugsState_init_or_overflows|].
  eapply and_next_or_overflows.
  { apply call_or_overflows. intros room'. apply call_or_overflows. intros _.
    apply or_overflows_refl. }
  apply consider_or_overflows.
Qed.

Lemma expand_or_overflows I room goal p s :
  ctl_or_overflows (expand_within I room goal p s) (expand goal p s).
Proof.
  unfold expand_within, expand. destruct (get_state p (root s)) as [cs|]; [|by right].
  apply for_each_or_overflows. intros. apply expand_jug_or_overflows.
Qed.

Lemma descend_or_overflows (helper helper0 : path -> store -> result store) p s :
  (forall q s', or_overflows (helper q s') (helper0 q s')) ->
  ctl_or_overflows (descend helper p s) (descend helper0 p s).
Proof.
  intros Hh. unfold descend. destruct (get_state p (root s)) as [cs|]; [|by right].
  apply for_each_or_overflows. intros idx s' _.
  destruct (get_state (p ++ [idx]) (root s')) as [child|]; [|by right].
  destruct (goal_flag child); [by right|].
  destruct (Hh (p ++ [idx]) s') as [->| ->]; [by left|by right].
Qed.

Lemma graph_it_helper_within_eq I room goal p s :
  graph_it_helper_within I room goal p s =
  match try_block_within I room
          (fun child s' =>
             call room (fun room' => graph_it_helper_within I room' goal child s'))
          goal p s with
  | Normal s' => Done s'
  | GoalFound s' => Done s'
  | Abort e => Failed e
  end.
Proof. by destruct room. Qed.

Lemma graph_it_helper_eq fuel goal p s :
  graph_it_helper (S fuel) goal p s =
  match try_block (graph_it_helper fuel goal) goal p s with
  | Normal s' => Done s'
  | GoalFound s' => Done s'
  | Abort e => Failed e
  end.
Proof. done. Qed.

(** Under any limit the expansion ends as it does without one, or with the
    exception of the limit. *)
Lemma graph_it_helper_or_overflows I goal room : forall fuel p s,
  (room < fuel)%nat ->
  or_overflows (graph_it_helper_within I room goal p s) (graph_it_helper fuel goal p s).
Proof.
  induction room as [|room IH]; intros [|fuel] p s Hfuel; try lia;
    rewrite graph_it_helper_within_eq, graph_it_helper_eq;
    unfold try_block_within, try_block.
  - destruct (expand_or_overflows I 0 goal p s) as [->| ->]; [by left|].
    destruct (expand goal p s) as [s1|s1|e]; [|by right..].
    destruct (descend_or_overflows
                (fun child s' => call 0%nat (fun room' =>
                   graph_it_helper_within I room' goal child s'))
                (graph_it_helper fuel goal) p s1) as [->| ->];
      [by left|by left|by right].
  - destruct (expand_or_overflows I (S room) goal p s) as [->| ->]; [by left|].
    destruct (expand goal p s) as [s1|s1|e]; [|by right..].
    destruct (descend_or_overflows
                (fun child s' => call (S room) (fun room' =>
                   graph_it_helper_within I room' goal child s'))
                (graph_it_helper fuel goal) p s1) as [->| ->];
      [|by left|by right].
    intros q s'. cbn [call]. apply IH. lia.
Qed.

(** *** Room enough *)

Lemma consider_keeps_the_run goal caps p cs cand s :
  well_formed caps (root s) /\ in_bounds (root s) ->
  get_state p (root s) = Some cs -> move (jugs cs) cand ->
  ctl_sat (fun s' => well_formed caps (root s') /\ in_bounds (root s'))
          (fun _ => True) (consider goal p (JugsState_init cand) s).
Proof.
  intros [Hwf Hb] Hp Hmove. apply ctl_sat_and.
  - eapply ctl_sat_mono; [| |by eapply consider_well_formed]; done.
  - by eapply consider_in_bounds.
Qed.

Lemma state_exists_frames_bound I caps g :
  well_formed caps g -> in_bounds g ->
  (1 + state_exists_frames I g <= helper_frames I (length (fillings caps)))%nat.
Proof.
  intros Hwf Hb. pose proof (well_formed_size _ _ Hwf Hb) as Hsize.
  pose proof (height_lt_node_count g) as Hh.
  unfold state_exists_frames, helper_frames. nia.
Qed.

Lemma expand_jug_room I room goal caps s0 p cs i s :
  (helper_frames I (length (fillings caps)) <= room)%nat ->
  get_state p (root s0) = Some cs -> (i < length (jugs cs))%nat ->
  (well_formed caps (root s) /\ in_bounds (root s)) /\ stable s0 s ->
  expand_jug_within I room goal p (jugs cs) i s = expand_jug goal p (jugs cs) i s.
Proof.
  intros Hroom Hp Hi Hs. unfold expand_jug_within, expand_jug.
  assert (1 + comprehension_frames I + copy_frames I <= room)%nat as Hinit
    by (unfold helper_frames in Hroom; lia).
  assert (2 <= room)%nat as H2 by (unfold helper_frames in Hroom; lia).
  assert (forall cand s1,
            move (jugs cs) cand ->
            (well_formed caps (root s1) /\ in_bounds (root s1)) /\ stable s0 s1 ->
            consider_within I room goal p (JugsState_init cand) s1 =
              consider goal p (JugsState_init cand) s1 /\
            ctl_sat (fun s' => (well_formed caps (root s') /\ in_bounds (root s'))
                               /\ stable s0 s')
                    (fun _ => True) (consider goal p (JugsState_init cand) s1)) as Hcons.
  { intros cand s1 Hmove [[Hwf Hb] Hst]. split.
    - apply consider_room.
      pose proof (state_exists_frames_bound I caps _ Hwf Hb). lia.
    - apply (consider_inv goal _ _ (consider_keeps_the_run goal caps) s0 p cs);
        by try split. }
  rewrite !JugsState_init_room by done. cbn [and_next].
  rewrite !call_room by lia. cbn [and_next].
  change (with_jugs (alter Jug.fill_to_full i) (JugsState_init (jugs cs)))
    with (JugsState_init (alter Jug.fill_to_full i (jugs cs))).
  destruct (Hcons _ s (move_fill _ i Hi) Hs) as [-> H1].
  destruct (consider _ _ (JugsState_init (alter Jug.fill_to_full _ _)) _)
    as [s1| |]; try done.
  change (with_jugs (alter Jug.empty i) (JugsState_init (jugs cs)))
    with (JugsState_init (alter Jug.empty i (jugs cs))).
  destruct (Hcons _ s1 (move_empty _ i Hi) H1) as [-> H3].
  destruct (consider _ _ (JugsState_init (alter Jug.empty _ _)) _)
    as [s2| |]; try done.
  apply (for_each_agree
           (fun s' => (well_formed caps (root s') /\ in_bounds (root s')) /\ stable s0 s')
           (fun _ => True)); [| |done].
  - intros k s3 Hk Hs3. apply elem_of_seq in Hk. case_decide; [done|].
    rewrite !call_room by lia. cbn [and_next].
    apply Hcons; [|done]. apply move_transfer; [done|lia|done].
  - intros k s3 Hk Hs3. apply elem_of_seq in Hk. case_decide; [done|].
    apply Hcons; [|done]. apply move_transfer; [done|lia|done].
Qed.

Lemma expand_room I room goal caps p s :
  (helper_frames I (length (fillings caps)) <= room)%nat ->
  well_formed caps (root s) /\ in_bounds (root s) -> valid p s ->
  expand_within I room goal p s = expand goal p s.
Proof.
  intros Hroom Hs [cs Hp]. unfold expand_within, expand. rewrite Hp.
  apply (for_each_agree
           (fun s' => (well_formed caps (root s') /\ in_bounds (root s')) /\ stable s s')
           (fun _ => True)); [| |split; [done|apply stable_refl]].
  - intros i s1 Hi Hs1. apply elem_of_seq in Hi.
    apply (expand_jug_room I room goal caps s); [done|done|lia|done].
  - intros i s1 Hi Hs1. apply elem_of_seq in Hi.
    apply (expand_jug_sat goal _ _ (consider_keeps_the_run goal caps) s);
      [done|lia|done].
Qed.

(** With room for a chain of [_helper] as long as there are configurations
    and for [state_exists] on it, the limit is not met. *)
Lemma graph_it_helper_room I goal caps room : forall p s,
  well_formed caps (root s) /\ in_bounds (root s) -> valid p s ->
  (length (fillings caps) + helper_frames I (length (fillings caps))
   <= room + length p)%nat ->
  graph_it_helper_within I room goal p s = graph_it_helper (S room) goal p s.
Proof.
  induction room as [room IH] using lt_wf_ind. intros p s Hs Hp Hroom.
  assert (length p < length (fillings caps))%nat as Hdepth.
  { destruct Hp as [cs Hp], Hs as [Hwf Hb]. apply get_state_length in Hp.
    pose proof (well_formed_size _ _ Hwf Hb). lia. }
  rewrite graph_it_helper_within_eq, graph_it_helper_eq.
  unfold try_block_within, try_block.
  rewrite (expand_room I room goal caps) by (done || lia).
  pose proof (expand_sat goal _ _ (consider_keeps_the_run goal caps) p s Hs Hp) as Hexp.
  destruct (expand goal p s) as [s1| |]; try done.
  destruct Hexp as [Hs1 Hst1]. destruct Hp as [cs0 Hp].
  destruct (Hst1 _ _ Hp) as (cs & Hp1 & _).
  assert (descend
            (fun child s' => call room (fun room' =>
               graph_it_helper_within I room' goal child s')) p s1 =
          descend (graph_it_helper room goal) p s1) as ->; [|done].
  unfold descend. rewrite Hp1.
  apply (for_each_agree
           (fun s' => (well_formed caps (root s') /\ in_bounds (root s')) /\ stable s1 s')
           (fun _ => True)); [| |split; [done|apply stable_refl]].
  - intros idx s2 Hidx [Hs2 Hst2].
    destruct (get_state (p ++ [idx]) (root s2)) as [child|] eqn:Hc; [|done].
    destruct (goal_flag child); [done|].
    destruct room as [|room]; [lia|]. cbn [call].
    rewrite (IH room); [done|lia|done|by eexists|].
    rewrite length_app. simpl. lia.
  - intros idx s2 Hidx [Hs2 Hst2]. apply elem_of_seq in Hidx.
    destruct (lookup_lt_is_Some_2 (next_states cs) idx) as [child Hchild]; [lia|].
    pose proof (get_state_snoc _ _ _ _ _ Hp1 Hchild) as Hc1.
    destruct (Hst2 _ _ Hc1) as (child' & Hc2 & _). rewrite Hc2.
    destruct (goal_flag child'); [done|].
    pose proof (graph_it_helper_sat goal
                  (fun s => well_formed caps (root s) /\ in_bounds (root s))
                  (fun _ => True) (fun _ _ => True)
                  (consider_keeps_the_run goal caps)
                  ltac:(done) ltac:(done) room (p ++ [idx]) s2 Hs2
                  (ex_intro _ _ Hc2) Logic.I) as Hrec.
    destruct (graph_it_helper room goal (p ++ [idx]) s2); simpl in *; [|done].
    destruct Hrec. split; [done|]. by eapply stable_trans.
Qed.

(** *** [graph_it] under a limit *)

Lemma graph_it_or_overflows I limit fuel self :
  (limit <= S fuel)%nat ->
  or_overflows (graph_it_within I limit self) (graph_it fuel self).
Proof.
  intros Hfuel. unfold graph_it_within, graph_it.
  destruct limit as [|[|room]]; [by left..|]. cbn [call].
  destruct (graph_it_helper_or_overflows I (goal self) room fuel []
              (mkStore (start self) [])) as [->| ->]; [lia|by left|].
  destruct (graph_it_helper _ _ _ _); by right.
Qed.

Lemma graph_it_room I limit caps target :
  Forall (fun c => 0 <= c) caps ->
  (frames_enough I caps <= limit)%nat ->
  graph_it_within I limit (new_graph caps target) =
  graph_it (limit - 1) (new_graph caps target).
Proof.
  intros Hpos Hlimit. unfold frames_enough in Hlimit.
  unfold graph_it_within, graph_it.
  destruct limit as [|[|room]]; [lia..|]. cbn [call].
  replace (S (S room) - 1)%nat with (S room) by lia.
  rewrite (graph_it_helper_room I _ caps).
  - by destruct (graph_it_helper _ _ _ _).
  - split; [apply well_formed_init|by apply in_bounds_init].
  - apply valid_root.
  - simpl. lia.
Qed.

Lemma frames_enough_fuel I caps :
  (length (fillings caps) + 2 <= frames_enough I caps)%nat.
Proof. unfold frames_enough. lia. Qed.

(** The two outcomes of [graph_it] under a limit. *)
Lemma graph_it_within_outcomes I caps target :
  Forall (fun c => 0 <= c) caps ->
  exists g h,
    (forall fuel, (length (fillings caps) < fuel)%nat ->
       graph_it fuel (new_graph caps target) = Done (g, h)) /\
    (forall limit,
       graph_it_within I limit (new_graph caps target) = Failed RecursionError \/
       graph_it_within I limit (new_graph caps target) = Done (g, h)) /\
    (forall limit, (frames_enough I caps <= limit)%nat ->
       graph_it_within I limit (new_graph caps target) = Done (g, h)).
Proof.
  intros Hpos. destruct (graph_it_without_limit caps target Hpos) as (g & h & _ & Hrun).
  exists g, h. split; [done|]. split.
  - intros limit.
    destruct (graph_it_or_overflows I limit (limit + S (length (fillings caps)))
                (new_graph caps target)) as [H|H]; [lia|by left|].
    right. rewrite H. apply Hrun. lia.
  - intros limit Hlimit. pose proof (frames_enough_fuel I caps).
    rewrite graph_it_room by done. apply Hrun. lia.
Qed.

(** *** [print_solutions] under a limit *)

Lemma get_state_path_within_eq g room p acc :
  _get_state_path_within g room p acc =
  match get_state p g with
  | None => Failed Dangling
  | Some cs =>
      match parent p with
      | None => Done (cs :: acc)
      | Some q => call room (fun room' => _get_state_path_within g room' q (cs :: acc))
      end
  end.
Proof. by destruct room. Qed.

Lemma parent_length p q : parent p = Some q -> length p = S (length q).
Proof.
  destruct p as [|i p] using rev_ind; [done|].
  rewrite parent_snoc. intros [= <-]. rewrite length_app. simpl. lia.
Qed.

Lemma get_state_path_or_overflows g room : forall p acc,
  or_overflows (_get_state_path_within g room p acc) (_get_state_path g p acc).
Proof.
  induction room as [|room IH]; intros p acc;
    rewrite get_state_path_within_eq, get_state_path_unfold;
    destruct (get_state p g) as [cs|]; try (by right);
    destruct (parent p) as [q|]; try (by right).
  - by left.
  - apply IH.
Qed.

Lemma get_state_path_room g room : forall p acc,
  (length p <= room)%nat ->
  _get_state_path_within g room p acc = _get_state_path g p acc.
Proof.
  induction room as [|room IH]; intros p acc Hroom;
    rewrite get_state_path_within_eq, get_state_path_unfold;
    destruct (get_state p g) as [cs|]; try done;
    destruct (parent p) as [q|] eqn:Hq; try done;
    apply parent_length in Hq.
  - lia.
  - apply IH. lia.
Qed.

Lemma get_state_path_within_length g room : forall p acc sl,
  _get_state_path_within g room p acc = Done sl ->
  (length sl <= S room + length acc)%nat.
Proof.
  induction room as [|room IH]; intros p acc sl;
    rewrite get_state_path_within_eq;
    destruct (get_state p g) as [cs|]; try done;
    destruct (parent p) as [q|] eqn:Hq; try done.
  - intros [= <-]. simpl. lia.
  - cbn [call]. intros Hsl%IH. simpl in Hsl. lia.
  - intros [= <-]. simpl. lia.
Qed.

Lemma print_states_room I room sl :
  (1 + repr_frames I <= room)%nat ->
  print_states I room sl = Done (map (fun s => JugsLine (jugs s)) sl).
Proof.
  intros Hroom. induction sl as [|s sl IH]; [done|]. simpl. rewrite IH.
  unfold print_jugs. destruct (jugs s); [done|].
  by rewrite frames_room, call_room by lia.
Qed.

Lemma print_states_or_overflows I room sl :
  or_overflows (print_states I room sl)
               (Done (map (fun s => JugsLine (jugs s)) sl)).
Proof.
  induction sl as [|s sl IH]; [by right|]. simpl.
  assert (or_overflows (print_jugs I room (jugs s)) (Done (JugsLine (jugs s)))) as [->| ->].
  { unfold print_jugs. destruct (jugs s); [by right|].
    apply frames_or_overflows. intros room'. apply call_or_overflows.
    intros _. by right. }
  { by left. }
  cbn [and_then]. destruct IH as [->| ->]; [by left|by right].
Qed.

Lemma traverse_states_within_eq I g p cs room pr :
  _traverse_states_within I g p cs room pr =
  if goal_flag cs then
    and_then (call room (fun room' => _get_state_path_within g room' p []))
      (fun state_list =>
         and_then (print_states I room state_list)
           (fun _ => Done (record_solution pr state_list)))
  else
    for_enumerate
      (fun idx s pr =>
         call room (fun room' => _traverse_states_within I g (p ++ [idx]) s room' pr))
      (next_states cs) 0%nat pr.
Proof. by destruct cs. Qed.

Lemma traverse_states_eq g p cs pr :
  _traverse_states g p cs pr =
  if goal_flag cs then
    match _get_state_path g p [] with
    | Failed e => Failed e
    | Done state_list => Done (record_solution pr state_list)
    end
  else
    for_enumerate
      (fun idx s pr => _traverse_states g (p ++ [idx]) s pr)
      (next_states cs) 0%nat pr.
Proof. by destruct cs. Qed.

Lemma for_enumerate_or_overflows {A St} (body body0 : nat -> A -> St -> result St) l :
  (forall idx x st, x ∈ l -> or_overflows (body idx x st) (body0 idx x st)) ->
  forall idx st,
    or_overflows (for_enumerate body l idx st) (for_enumerate body0 l idx st).
Proof.
  induction l as [|x l IH]; intros Hbody idx st; [by right|]. simpl.
  destruct (Hbody idx x st (list_elem_of_here _ _)) as [->| ->]; [by left|].
  destruct (body0 idx x st) as [st'|e]; [|by right].
  apply IH. intros. apply Hbody. by right.
Qed.

Lemma for_enumerate_ext {A St} (body body0 : nat -> A -> St -> result St) l :
  (forall idx x st, x ∈ l -> body idx x st = body0 idx x st) ->
  forall idx st, for_enumerate body l idx st = for_enumerate body0 l idx st.
Proof.
  induction l as [|x l IH]; intros Hbody idx st; [done|]. simpl.
  rewrite (Hbody idx x st (list_elem_of_here _ _)).
  destruct (body0 idx x st) as [st'|e]; [|done].
  apply IH. intros. apply Hbody. by right.
Qed.

Lemma for_enumerate_inv {A St} (P : St -> Prop) (body : nat -> A -> St -> result St) l :
  (forall idx x st st', x ∈ l -> P st -> body idx x st = Done st' -> P st') ->
  forall idx st st', P st -> for_enumerate body l idx st = Done st' -> P st'.
Proof.
  induction l as [|x l IH]; intros Hbody idx st st' Hst; simpl; [by intros [= <-]|].
  destruct (body idx x st) as [st1|e] eqn:Hx; [|done].
  apply IH; [|by eapply Hbody; [apply list_elem_of_here|..]].
  intros. eapply Hbody; [by right|done..].
Qed.

Lemma traverse_states_or_overflows I g cs : forall room p pr,
  or_overflows (_traverse_states_within I g p cs room pr) (_traverse_states g p cs pr).
Proof.
  induction cs as [js children fl IH] using JugsState_tree_ind. intros room p pr.
  rewrite traverse_states_within_eq, traverse_states_eq. cbn [goal_flag next_states].
  destruct fl.
  - destruct room as [|room]; [by left|]. cbn [call].
    destruct (get_state_path_or_overflows g room p []) as [->| ->]; [by left|].
    destruct (_get_state_path g p []) as [sl|e]; [|by right].
    cbn [and_then].
    destruct (print_states_or_overflows I (S room) sl) as [->| ->]; [by left|by right].
  - apply for_enumerate_or_overflows. intros idx c pr' Hc.
    apply call_or_overflows. intros room'.
    rewrite Forall_forall in IH. by apply IH.
Qed.

Lemma traverse_states_room I g cs : forall room p pr,
  (length p + 1 + 2 * height cs + repr_frames I <= room)%nat ->
  _traverse_states_within I g p cs room pr = _traverse_states g p cs pr.
Proof.
  induction cs as [js children fl IH] using JugsState_tree_ind. intros room p pr Hroom.
  rewrite traverse_states_within_eq, traverse_states_eq. cbn [goal_flag next_states].
  destruct fl.
  - rewrite call_room, get_state_path_room by lia.
    destruct (_get_state_path g p []) as [sl|e]; [|done].
    cbn [and_then]. by rewrite print_states_room by lia.
  - apply for_enumerate_ext. intros idx c pr' Hc.
    pose proof (height_child (mkState js children false) c Hc) as Hh.
    rewrite call_room by lia.
    rewrite Forall_forall in IH. apply IH; [done|].
    rewrite length_app. simpl. lia.
Qed.

(** No solution recorded under a limit is longer than the limit. *)
Lemma traverse_states_within_steps I g (bound : nat) cs : forall room p pr pr',
  (room <= bound)%nat ->
  Forall (fun sol => steps sol <= Z.of_nat bound) (solutions pr) ->
  _traverse_states_within I g p cs room pr = Done pr' ->
  Forall (fun sol => steps sol <= Z.of_nat bound) (solutions pr').
Proof.
  induction cs as [js children fl IH] using JugsState_tree_ind.
  intros room p pr pr' Hroom Hpr.
  rewrite traverse_states_within_eq. cbn [goal_flag next_states].
  destruct fl.
  - destruct room as [|room]; [done|]. cbn [call].
    destruct (_get_state_path_within g room p []) as [sl|e] eqn:Hsl; [|done].
    cbn [and_then]. destruct (print_states I (S room) sl); [|done]. cbn [and_then].
    intros [= <-]. simpl. apply Forall_app. split; [done|].
    apply get_state_path_within_length in Hsl. repeat constructor. simpl in *. lia.
  - apply (for_enumerate_inv
             (fun pr => Forall (fun sol => steps sol <= Z.of_nat bound) (solutions pr)));
      [|done].
    intros idx c st st' Hc Hst. destruct room as [|room]; [done|]. cbn [call].
    rewrite Forall_forall in IH. apply IH; [done|lia|done].
Qed.

Lemma print_solutions_or_overflows I limit self :
  snd (print_solutions_within I limit self) = Some RecursionError \/
  print_solutions_within I limit self = print_solutions self.
Proof.
  unfold print_solutions_within, print_solutions.
  destruct limit as [|room]; [by left|].
  destruct (graphed self); [|by right].
  destruct room as [|room]; [by left|]. cbn [call].
  destruct (traverse_states_or_overflows I (start self) (start self) room []
              (mkPrinter 0 [] [])) as [->| ->]; [by left|].
  destruct (_traverse_states _ _ _ _) as [pr|e]; [|by right].
  destruct (solution_number pr =? 0)%nat; [by right|].
  destruct (snd (shortest (solutions pr))) as [sol|]; [|by right].
  destruct (print_states_or_overflows I (S room) (list_ sol)) as [->| ->];
    [by left|by right].
Qed.

Lemma print_solutions_room I limit self :
  (print_frames_enough I (start self) <= limit)%nat ->
  print_solutions_within I limit self = print_solutions self.
Proof.
  unfold print_frames_enough. intros Hlimit.
  unfold print_solutions_within, print_solutions.
  destruct limit as [|room]; [lia|].
  destruct (graphed self); [|done].
  rewrite call_room, traverse_states_room by (simpl; lia).
  destruct (_traverse_states _ _ _ _) as [pr|e]; [|done].
  destruct (solution_number pr =? 0)%nat; [done|].
  destruct (snd (shortest (solutions pr))) as [sol|]; [|done].
  by rewrite print_states_room by lia.
Qed.

(** The [TypeError] of [solution["list"]] is out of reach of a limit that
    is not above the first value of [min_steps]. *)
Lemma print_solutions_within_type_error I limit self :
  snd (print_solutions_within I limit self) = Some TypeError ->
  9999999999 < Z.of_nat limit.
Proof.
  unfold print_solutions_within.
  destruct limit as [|room]; [done|].
  destruct (graphed self); [|done].
  destruct room as [|room]; [done|]. cbn [call].
  destruct (_traverse_states_within _ _ _ _ _ _) as [pr|e] eqn:Hpr.
  - pose proof (traverse_states_within_steps I (start self) room (start self) room []
                  (mkPrinter 0 [] []) pr (Nat.le_refl _) (Forall_nil_2 _) Hpr) as Hsteps.
    destruct (solution_number pr =? 0)%nat eqn:Hn; [done|].
    unfold shortest.
    destruct (shortest_from_spec (solutions pr) 9999999999 None)
      as [[Hbig ->]|(pre & s & post & _ & _ & _ & _ & ->)]; simpl; [|].
    + intros _.
      destruct (traverse_states_or_overflows I (start self) (start self) room []
                  (mkPrinter 0 [] [])) as [Hov|Heq]; [congruence|].
      rewrite Hpr, (traverse_spec (start self) (start self) [] _ eq_refl) in Heq.
      injection Heq as ->.
      rewrite fold_record_number in Hn. rewrite fold_record_solutions in Hbig, Hsteps.
      simpl in *. destruct (goal_addresses [] (start self)) as [|a l]; [done|].
      rewrite fmap_cons in Hbig, Hsteps.
      apply Forall_cons in Hbig as [Hbig _]. apply Forall_cons in Hsteps as [Hsteps _].
      simpl in *. lia.
    + destruct (print_states_or_overflows I (S room) (list_ s)) as [->| ->]; done.
  - destruct (traverse_states_or_overflows I (start self) (start self) room []
                (mkPrinter 0 [] [])) as [Hov|Heq]; [simpl; congruence|].
    rewrite Hpr, (traverse_spec (start self) (start self) [] _ eq_refl) in Heq. done.
Qed.

(** *** More room *)

Lemma call_more_room {A} room room' (body : nat -> result A) :
  (room <= room')%nat ->
  (forall r r', (r <= r')%nat -> or_overflows (body r) (body r')) ->
  or_overflows (call room body) (call room' body).
Proof.
  intros Hroom Hbody. destruct room as [|room]; [by left|].
  destruct room' as [|room']; [lia|]. apply Hbody. lia.
Qed.

Lemma frames_more_room {A} n room room' (body : nat -> result A) :
  (room <= room')%nat ->
  (forall r r', (r <= r')%nat -> or_overflows (body r) (body r')) ->
  or_overflows (frames n room body) (frames n room' body).
Proof.
  intros Hroom Hbody. unfold frames.
  destruct (Nat.leb_spec n room); [|by left].
  rewrite (proj2 (Nat.leb_le n room')) by lia. apply Hbody. lia.
Qed.

Lemma and_next_more_room {A} (r r0 : result A) (k k0 : A -> ctl) :
  or_overflows r r0 -> (forall a, ctl_or_overflows (k a) (k0 a)) ->
  ctl_or_overflows (and_next r k) (and_next r0 k0).
Proof.
  intros [->| ->] Hk; [by left|]. destruct r0 as [a|e]; simpl; [apply Hk|by right].
Qed.

Lemma comprehension_within_more_room {A B} I room room'
    (f : nat -> A -> result B) l :
  (room <= room')%nat ->
  (forall r r' x, x ∈ l -> (r <= r')%nat -> or_overflows (f r x) (f r' x)) ->
  or_overflows (comprehension_within I room f l) (comprehension_within I room' f l).
Proof.
  intros Hroom Hf. unfold comprehension_within.
  apply frames_more_room; [done|]. intros r r' Hr.
  induction l as [|x l IH]; [by right|].
  apply and_then_or_overflows; [apply Hf; [apply list_elem_of_here|done]|].
  intros y. apply and_then_or_overflows; [|intros; by right].
  apply IH. intros. apply Hf; [by right|done].
Qed.

Lemma state_exists_helper_more_room I state g : forall room room',
  (room <= room')%nat ->
  or_overflows (state_exists_helper_within I state g room)
               (state_exists_helper_within I state g room').
Proof.
  induction g as [js cs fl IH] using JugsState_tree_ind. intros room room' Hroom.
  rewrite !state_exists_helper_within_eq. cbn [next_states].
  rewrite Forall_forall in IH.
  apply and_then_or_overflows.
  { apply comprehension_within_more_room; [done|]. intros r r' c _ Hr.
    apply call_more_room; [done|]. intros; by right. }
  intros these. apply and_then_or_overflows; [|intros; by right].
  apply comprehension_within_more_room; [done|]. intros r r' c Hc Hr.
  apply call_more_room; [done|]. intros; by apply IH.
Qed.

Lemma state_exists_more_room I room room' g state :
  (room <= room')%nat ->
  or_overflows (state_exists_within I room g state)
               (state_exists_within I room' g state).
Proof.
  intros Hroom. unfold state_exists_within.
  apply and_then_or_overflows; [apply call_more_room; [done|]; intros; by right|].
  intros this. apply and_then_or_overflows; [|intros; by right].
  apply call_more_room; [done|]. intros. by apply state_exists_helper_more_room.
Qed.

Lemma JugsState_init_more_room I room room' js :
  (room <= room')%nat ->
  or_overflows (JugsState_init_within I room js) (JugsState_init_within I room' js).
Proof.
  intros Hroom. unfold JugsState_init_within.
  apply call_more_room; [done|]. intros r r' Hr.
  apply and_then_or_overflows; [|intros; by right].
  apply comprehension_within_more_room; [done|]. intros r1 r1' j _ Hr1.
  apply frames_more_room; [done|]. intros; by right.
Qed.

Lemma consider_more_room I room room' goal p candidate s :
  (room <= room')%nat ->
  ctl_or_overflows (consider_within I room goal p candidate s)
                   (consider_within I room' goal p candidate s).
Proof.
  intros Hroom. unfold consider_within.
  apply and_next_more_room.
  { apply call_more_room; [done|]. intros. by apply state_exists_more_room. }
  intros exists_. apply and_next_more_room.
  { destruct (negb exists_); [|by right].
    apply call_more_room; [done|]. intros; by right. }
  intros s1. apply and_next_more_room; [|intros; by right].
  apply call_more_room; [done|]. intros; by right.
Qed.

Lemma expand_jug_more_room I room room' goal p js i s :
  (room <= room')%nat ->
  ctl_or_overflows (expand_jug_within I room goal p js i s)
                   (expand_jug_within I room' goal p js i s).
Proof.
  intros Hroom. unfold expand_jug_within.
  apply and_next_more_room; [by apply JugsState_init_more_room|]. intros st.
  apply and_next_more_room; [apply call_more_room; [done|]; intros; by right|].
  intros st'.
  destruct (consider_more_room I room room' goal p st' s Hroom) as [->| ->]; [by left|].
  destruct (consider_within I room' goal p st' s) as [s1|s1|e]; [|by right..].
  apply and_next_more_room; [by apply JugsState_init_more_room|]. intros st1.
  apply and_next_more_room; [apply call_more_room; [done|]; intros; by right|].
  intros st1'.
  destruct (consider_more_room I room room' goal p st1' s1 Hroom) as [->| ->];
    [by left|].
  destruct (consider_within I room' goal p st1' s1) as [s2|s2|e]; [|by right..].
  apply for_each_or_overflows. intros k s3 _. case_decide; [by right|].
  apply and_next_more_room; [by apply JugsState_init_more_room|]. intros st2.
  apply and_next_more_room; [|intros; by apply consider_more_room].
  apply call_more_room; [done|]. intros r r' Hr.
  apply call_more_room; [done|]. intros; by right.
Qed.

Lemma graph_it_helper_more_room I goal room : forall room' p s,
  (room <= room')%nat ->
  or_overflows (graph_it_helper_within I room goal p s)
               (graph_it_helper_within I room' goal p s).
Proof.
  induction room as [|room IH]; intros room' p s Hroom;
    rewrite !graph_it_helper_within_eq; unfold try_block_within, expand_within.
  - destruct (get_state p (root s)) as [cs|]; [|by right].
    destruct (for_each_or_overflows
                (expand_jug_within I 0 goal p (jugs cs))
                (expand_jug_within I room' goal p (jugs cs))
                (seq 0 (length (jugs cs)))
                ltac:(intros; by apply expand_jug_more_room) s) as [->| ->]; [by left|].
    destruct (for_each _ _ s) as [s1|s1|e]; [|by right..].
    destruct (descend_or_overflows
                (fun child s' => call 0%nat (fun room'' =>
                   graph_it_helper_within I room'' goal child s'))
                (fun child s' => call room' (fun room'' =>
                   graph_it_helper_within I room'' goal child s'))
                p s1) as [->| ->]; [by left|by left|by right].
  - destruct room' as [|room']; [lia|].
    destruct (get_state p (root s)) as [cs|]; [|by right].
    destruct (for_each_or_overflows
                (expand_jug_within I (S room) goal p (jugs cs))
                (expand_jug_within I (S room') goal p (jugs cs))
                (seq 0 (length (jugs cs)))
                ltac:(intros; by apply expand_jug_more_room) s) as [->| ->]; [by left|].
    destruct (for_each _ _ s) as [s1|s1|e]; [|by right..].
    destruct (descend_or_overflows
                (fun child s' => call (S room) (fun room'' =>
                   graph_it_helper_within I room'' goal child s'))
                (fun child s' => call (S room') (fun room'' =>
                   graph_it_helper_within I room'' goal child s'))
                p s1) as [->| ->]; [|by left|by right].
    intros q s'. cbn [call]. apply IH. lia.
Qed.

(** What overflows under a limit overflows under every lower one. *)
Lemma graph_it_more_room I limit limit' self :
  (limit <= limit')%nat ->
  graph_it_within I limit' self = Failed RecursionError ->
  graph_it_within I limit self = Failed RecursionError.
Proof.
  intros Hlimit. unfold graph_it_within.
  destruct limit as [|[|room]]; [done..|].
  destruct limit' as [|[|room']]; [lia..|]. cbn [call].
  destruct (graph_it_helper_more_room I (goal self) room room' []
              (mkStore (start self) [])) as [->| ->]; [lia|done..].
Qed.

(** ** Termination under the limit *)

Lemma graph_it_within_no_jugs I limit target :
  (2 <= limit)%nat ->
  graph_it_within I limit (new_graph [] target) =
  Done (mkGraph (JugsState_init []) target true, []).
Proof.
  intros Hlimit. destruct limit as [|[|room]]; [lia..|].
  unfold graph_it_within. cbn [call]. by rewrite graph_it_helper_within_eq.
Qed.

Lemma print_solutions_within_no_jugs I limit target :
  (2 <= limit)%nat ->
  print_solutions_within I limit (mkGraph (JugsState_init []) target true) =
  ([NoSolutionLine], None).
Proof.
  intros Hlimit. destruct limit as [|[|room]]; [lia..|].
  unfold print_solutions_within. cbn [call graphed start].
  by rewrite traverse_states_within_eq.
Qed.

(** C7: for every list of positive capacities and every target, under any
    limit on the nesting of calls the expansion either returns or ends with
    the [RecursionError] of the limit, which nothing catches; it returns
    whenever the limit is at least [frames_enough], always with the same
    graph, on which [graphed] is set and which holds a state with the target
    in one of its jugs (a goal was found) or else holds exactly the
    configurations that moves lead to (the states are exhausted); and what
    overflows under a limit overflows under every lower one. *)
Theorem graph_it_returns_within_the_limit (I : interpreter) (capacities : list Z)
    (target : Z) :
  Forall (fun c => 0 < c) capacities ->
  exists g h,
    graphed g = true /\
    exhausted_or_found (Jug.init <$> capacities) target (start g) /\
    (forall limit,
       graph_it_within I limit (new_graph capacities target) = Failed RecursionError \/
       graph_it_within I limit (new_graph capacities target) = Done (g, h)) /\
    (forall limit, (frames_enough I capacities <= limit)%nat ->
       graph_it_within I limit (new_graph capacities target) = Done (g, h)) /\
    (forall limit limit', (limit <= limit')%nat ->
       graph_it_within I limit' (new_graph capacities target) = Failed RecursionError ->
       graph_it_within I limit (new_graph capacities target) = Failed RecursionError).
Proof.
  intros Hpos%positive_nonnegative.
  destruct (graph_it_within_outcomes I capacities target Hpos)
    as (g & h & Hrun & Hany & Henough).
  specialize (Hrun _ (Nat.lt_succ_diag_r _)).
  exists g, h. split; [|split; [|split; [done|split; [done|]]]].
  - by apply graph_it_inv in Hrun as (s' & _ & -> & _).
  - unfold new_graph in Hrun. unfold exhausted_or_found.
    destruct (graph_it_complete _ _ _ _ _ Hrun) as [Hmet|Hall]; [by left|].
    right. intros js'. split; [apply Hall|]. by eapply graph_it_sound.
  - intros limit limit'. apply graph_it_more_room.
Qed.

Lemma graph_it_returns_within_the_limit_witness :
  exists g h,
    graphed g = true /\
    exhausted_or_found (Jug.init <$> [3; 5]) 4 (start g) /\
    (forall limit,
       graph_it_within with_comprehension_frames limit (new_graph [3; 5] 4) = Failed RecursionError \/
       graph_it_within with_comprehension_frames limit (new_graph [3; 5] 4) = Done (g, h)) /\
    (forall limit, (frames_enough with_comprehension_frames [3%Z; 5%Z] <= limit)%nat ->
       graph_it_within with_comprehension_frames limit (new_graph [3; 5] 4)
         = Done (g, h)) /\
    (forall limit limit', (limit <= limit')%nat ->
       graph_it_within with_comprehension_frames limit' (new_graph [3; 5] 4)
         = Failed RecursionError ->
       graph_it_within with_comprehension_frames limit (new_graph [3; 5] 4)
         = Failed RecursionError).
Proof.
  apply (graph_it_returns_within_the_limit with_comprehension_frames [3; 5] 4).
  repeat constructor.
Defined.

(** C7 as it is written fails: with jugs of 1 and 400 the target 399 is two
    moves away (fill the second jug, pour it into the first), yet under a
    limit of 1000 nested calls the expansion ends with [RecursionError],
    having gone down a chain of states that is too long, whether or not list
    comprehensions are charged a frame. *)
Lemma graph_it_overflows_before_the_goal :
  Forall (fun c => 0 < c) [1; 400] /\
  reachable (Jug.init <$> [1; 400]) [Jug.mk 1 1; Jug.mk 400 399] /\
  graph_it_within with_comprehension_frames 1000 (new_graph [1; 400] 399) = Failed RecursionError /\
  graph_it_within own_calls_only 1000 (new_graph [1; 400] 399) = Failed RecursionError.
Proof.
  split; [by repeat constructor|]. split; [|split; vm_compute; reflexivity].
  apply (reachable_move _ (alter Jug.fill_to_full 1%nat (Jug.init <$> [1; 400]))).
  - apply (reachable_move _ (Jug.init <$> [1; 400])); [apply reachable_here|].
    apply move_fill. simpl. lia.
  - change [Jug.mk 1 1; Jug.mk 400 399]
      with (transfer_at 1 0 (alter Jug.fill_to_full 1%nat (Jug.init <$> [1; 400]))).
    apply move_transfer; simpl; lia.
Qed.

(** Without a limit on the nesting of calls: with no jug at all, or with a
    target above every (positive) capacity, the expansion returns, no
    container of the graph is out of its range, no state is flagged, and
    [print_solutions] prints that there is no solution. *)
Lemma degenerate_run_without_limit (capacities : list Z) (target : Z) :
  Forall (fun c => 0 < c < target) capacities ->
  exists g h,
    run capacities target = Done (g, h) /\
    in_bounds (start g) /\ unflagged (start g) /\
    print_solutions g = ([NoSolutionLine], None).
Proof.
  intros Hcaps.
  assert (Forall (fun c => 0 <= c) capacities) as Hpos.
  { eapply Forall_impl; [exact Hcaps|]. intros; simpl in *; lia. }
  assert (Forall (fun c => c < target) capacities) as Hlt.
  { eapply Forall_impl; [exact Hcaps|]. intros; simpl in *; lia. }
  unfold run, graph_it, new_graph, JugsGraph_init. cbn [start goal].
  pose proof (graph_it_helper_sat target
                (fun s => well_formed capacities (root s) /\ in_bounds (root s) /\
                          unflagged (root s))
                (fun _ => False) (enough_fuel capacities)) as Hsat.
  specialize (Hsat (fun p cs cand s Hs => consider_out_of_reach _ _ p cs cand s Hlt Hs)).
  specialize (Hsat ltac:(unfold enough_fuel; intros ? ? ?;
                         rewrite length_app; simpl; lia)).
  specialize (Hsat ltac:(unfold enough_fuel; intros q s0 (Hwf0 & Hb0 & _) [n Hq] Hfuel;
                         apply get_state_length in Hq;
                         pose proof (well_formed_size _ _ Hwf0 Hb0); lia)).
  specialize (Hsat (S (length (fillings capacities))) []
                   (mkStore (JugsState_init (Jug.init <$> capacities)) [])).
  assert (unflagged (JugsState_init (Jug.init <$> capacities))) as Hu0
    by (by repeat constructor).
  specialize (Hsat (conj (well_formed_init _) (conj (in_bounds_init _ Hpos) Hu0))
                   (valid_root _)).
  specialize (Hsat ltac:(unfold enough_fuel; simpl; lia)).
  destruct (graph_it_helper _ _ _ _) as [s'|e]; simpl in Hsat; [|done].
  destruct Hsat as [(Hwf & Hb & Hu) _].
  eexists _, _. split; [reflexivity|]. simpl. split; [done|]. split; [done|].
  by apply (print_no_solution (mkGraph (root s') target true) eq_refl).
Qed.

(** C9: with no jug at all, or with a target above every (positive)
    capacity, no container of the graph is out of its range, no state is
    flagged, and the only exception that can end [graph_it] or
    [print_solutions] is the [RecursionError] of the limit on nested calls.
    Under a limit of [frames_enough] or more, and under any limit from 2 on
    when there is no jug, both return and [print_solutions] prints that there
    is no solution. *)
Theorem degenerate_runs_end_without_a_solution (I : interpreter)
    (capacities : list Z) (target : Z) :
  Forall (fun c => 0 < c < target) capacities ->
  exists g h,
    in_bounds (start g) /\ unflagged (start g) /\
    (forall limit,
       graph_it_within I limit (new_graph capacities target) = Failed RecursionError \/
       graph_it_within I limit (new_graph capacities target) = Done (g, h) /\
       (snd (print_solutions_within I limit g) = Some RecursionError \/
        print_solutions_within I limit g = ([NoSolutionLine], None))) /\
    (forall limit, (frames_enough I capacities <= limit)%nat ->
       graph_it_within I limit (new_graph capacities target) = Done (g, h) /\
       print_solutions_within I limit g = ([NoSolutionLine], None)) /\
    (capacities = [] -> forall limit, (2 <= limit)%nat ->
       graph_it_within I limit (new_graph capacities target) = Done (g, h) /\
       print_solutions_within I limit g = ([NoSolutionLine], None)).
Proof.
  intros Hcaps.
  assert (Forall (fun c => 0 <= c) capacities) as Hpos.
  { eapply Forall_impl; [exact Hcaps|]. intros; simpl in *; lia. }
  destruct (graph_it_within_outcomes I capacities target Hpos)
    as (g & h & Hrun & Hany & Henough).
  destruct (degenerate_run_without_limit capacities target Hcaps)
    as (g' & h' & Hrun' & Hb & Hu & Hprint).
  unfold run in Hrun'. rewrite Hrun in Hrun' by lia. injection Hrun' as <- <-.
  exists g, h. split; [done|]. split; [done|]. split; [|split].
  - intros limit. destruct (Hany limit) as [H|H]; [by left|]. right. split; [done|].
    destruct (print_solutions_or_overflows I limit g) as [H'|H']; [by left|].
    right. by rewrite H'.
  - intros limit Hlimit. split; [by apply Henough|].
    rewrite print_solutions_room; [done|].
    pose proof (graph_it_well_formed _ _ _ _ _ (Hrun _ (Nat.lt_succ_diag_r _))) as Hwf.
    pose proof (well_formed_size _ _ Hwf Hb).
    pose proof (height_lt_node_count (start g)).
    unfold frames_enough, helper_frames in Hlimit. unfold print_frames_enough. lia.
  - intros -> limit Hlimit. destruct (Hany limit) as [H|H];
      rewrite graph_it_within_no_jugs in H by done; [done|].
    injection H as <- <-. split; [by apply graph_it_within_no_jugs|].
    by apply print_solutions_within_no_jugs.
Qed.

Lemma degenerate_runs_end_without_a_solution_witness :
  exists g h,
    in_bounds (start g) /\ unflagged (start g) /\
    (forall limit,
       graph_it_within with_comprehension_frames limit (new_graph [3; 5] 9)
         = Failed RecursionError \/
       graph_it_within with_comprehension_frames limit (new_graph [3; 5] 9)
         = Done (g, h) /\
       (snd (print_solutions_within with_comprehension_frames limit g)
          = Some RecursionError \/
        print_solutions_within with_comprehension_frames limit g
          = ([NoSolutionLine], None))) /\
    (forall limit,
       (frames_enough with_comprehension_frames [3%Z; 5%Z] <= limit)%nat ->
       graph_it_within with_comprehension_frames limit (new_graph [3; 5] 9)
         = Done (g, h) /\
       print_solutions_within with_comprehension_frames limit g
         = ([NoSolutionLine], None)) /\
    ([3; 5] = [] -> forall limit, (2 <= limit)%nat ->
       graph_it_within with_comprehension_frames limit (new_graph [3; 5] 9)
         = Done (g, h) /\
       print_solutions_within with_comprehension_frames limit g
         = ([NoSolutionLine], None)).
Proof.
  apply (degenerate_runs_end_without_a_solution with_comprehension_frames [3; 5] 9).
  repeat constructor.
Defined.

(** C9 as it is written fails: with jugs of 1 and 167 and the target 168,
    above both capacities, [graph_it] ends with [RecursionError] under a
    limit of 1000 nested calls where list comprehensions are charged a frame;
    so it does with jugs of 1 and 300 and the target 301 where they are
    not and only the calls of the functions of this file count. *)
Lemma degenerate_run_overflows :
  Forall (fun c => 0 < c < 168) [1; 167] /\
  graph_it_within with_comprehension_frames 1000 (new_graph [1; 167] 168) = Failed RecursionError /\
  Forall (fun c => 0 < c < 301) [1; 300] /\
  graph_it_within own_calls_only 1000 (new_graph [1; 300] 301) = Failed RecursionError.
Proof.
  split; [by repeat constructor|]. split; [vm_compute; reflexivity|].
  split; [by repeat constructor|]. vm_compute; reflexivity.
Qed.

(** The runs with jugs of 3 and 5 stay far below the limit: they are the
    runs there are without a limit. *)
Lemma runs_with_3_and_5_fit_the_limit :
  graph_it_within with_comprehension_frames 1000 (new_graph [3; 5] 4) = run [3; 5] 4 /\
  graph_it_within with_comprehension_frames 1000 (new_graph [3; 5] 9) = run [3; 5] 9.
Proof. split; vm_compute; reflexivity. Qed.

(** X8: on a built graph, under any limit on nested calls [print_solutions]
    either ends with the [RecursionError] of the limit or does what it does
    without a limit, and the latter whenever the limit is at least
    [print_frames_enough].  Under a limit of at most 9999999999 (the first
    value of [min_steps]) it raises nothing else: the [TypeError] of
    [solution["list"]] needs solutions of 9999999999 states or more, which
    the traversal does not reach. *)
Theorem print_solutions_raises_only_at_the_limit (I : interpreter)
    (self : JugsGraph) (limit : nat) :
  graphed self = true ->
  (snd (print_solutions_within I limit self) = Some RecursionError \/
   print_solutions_within I limit self = print_solutions self) /\
  ((print_frames_enough I (start self) <= limit)%nat ->
   print_solutions_within I limit self = print_solutions self) /\
  (Z.of_nat limit <= 9999999999 ->
   snd (print_solutions_within I limit self) = None \/
   snd (print_solutions_within I limit self) = Some RecursionError).
Proof.
  intros Hg. split; [apply print_solutions_or_overflows|].
  split; [apply print_solutions_room|]. intros Hlimit.
  pose proof (print_solutions_within_type_error I limit self) as Htype.
  destruct (print_solutions_or_overflows I limit self) as [H|H]; [by right|].
  destruct (print_solutions_without_limit self Hg) as [[Hnone|Herr] _].
  - left. by rewrite H.
  - rewrite <-H in Herr. specialize (Htype Herr). lia.
Qed.

Lemma print_solutions_raises_only_at_the_limit_witness :
  (print_solutions_within with_comprehension_frames 3
     (mkGraph (mkState [Jug.mk 7 0] [mkState [Jug.mk 7 7] [] true] false) 7 true)
   = ([], Some RecursionError)) /\
  (print_solutions_within with_comprehension_frames 1000
     (mkGraph (mkState [Jug.mk 7 0] [mkState [Jug.mk 7 7] [] true] false) 7 true)
   = print_solutions
       (mkGraph (mkState [Jug.mk 7 0] [mkState [Jug.mk 7 7] [] true] false) 7 true)).
Proof.
  split; [vm_compute; reflexivity|].
  apply (print_solutions_raises_only_at_the_limit with_comprehension_frames
           (mkGraph (mkState [Jug.mk 7 0] [mkState [Jug.mk 7 7] [] true] false) 7 true)
           1000 eq_refl).
  vm_compute. lia.
Defined.

(** X17: the limit on nested calls decides whether [graph_it] returns, not
    what it returns: the calls that return, under whatever limits and
    whatever the interpreter counts, return the same graph, with the states
    added and flagged in the same order. *)
Theorem graph_it_returns_the_same_under_every_limit (I I' : interpreter)
    (limit limit' : nat) (self : JugsGraph) (g g' : JugsGraph) (h h' : list event) :
  graph_it_within I limit self = Done (g, h) ->
  graph_it_within I' limit' self = Done (g', h') ->
  g = g' /\ h = h'.
Proof.
  intros Hrun Hrun'.
  destruct (graph_it_or_overflows I limit limit self) as [H|H]; [lia|congruence|].
  destruct (graph_it_or_overflows I' limit' limit' self) as [H'|H']; [lia|congruence|].
  rewrite Hrun in H. rewrite Hrun' in H'.
  pose proof (graph_it_deterministic _ _ _ _ _ (eq_sym H) (eq_sym H')) as Heq.
  by injection Heq.
Qed.

Lemma graph_it_returns_the_same_under_every_limit_witness :
  exists g h g' h',
    graph_it_within with_comprehension_frames 40 (new_graph [3; 5] 4) = Done (g, h) /\
    graph_it_within own_calls_only 1000 (new_graph [3; 5] 4) = Done (g', h') /\
    g = g' /\ h = h'.
Proof.
  eexists _, _, _, _. split; [vm_compute; reflexivity|].
  split; [vm_compute; reflexivity|].
  eapply (graph_it_returns_the_same_under_every_limit
            with_comprehension_frames own_calls_only 40 1000 (new_graph [3; 5] 4));
    vm_compute; reflexivity.
Defined.
